(** * emd.spectra: instantaneous frequency statistics and Hilbert-Huang spectra

    A shallow embedding of [emd/spectra.py], followed by its properties.

    - [Py]       : Python exceptions, the result type of fallible calls, the
                   output/exception monad of code that prints, and the
                   module's global names.
    - [Spectra]  : the phase / frequency / amplitude estimators.  Arrays hold
                   real numbers ([R]); the identities studied there need pi
                   and square roots.
    - [HistBins] : [define_hist_bins], over reals extended with the IEEE
                   special values that [np.log] produces.
    - [Binning]  : the spectral aggregators.  They only compare and add, so
                   the samples are exact rationals or NaN and every
                   definition evaluates.

    Functions of numpy, scipy and [emd.utils] are modelled from their
    documented behaviour or taken as parameters.  Arithmetic is exact, except
    where a property depends on floating-point rounding: the quadrature
    transform and the holospectrum also have a form that takes the rounding
    of each operation as an argument ([quadrature_transform_with],
    [holospectrum_with]), to be read with the binary64 rounding ([round64]
    on reals, [qround64] on rationals). *)

From Stdlib Require Import String List ZArith QArith Reals Lia Lra Bool Arith.
From Stdlib Require Import Zfloor Sorted.
Import ListNotations.

(* ------------------------------------------------------------------------- *)
(** ** Python exceptions and results *)

Module Py.

Inductive exn : Type :=
| NameError (name : string)
| UnboundLocalError (name : string)
| ValueError (msg : string)
| IndexError (msg : string)
| TypeError (msg : string).

(** Configuration errors are reported by the module as [ValueError]
    (see the [raise] statements of [frequency_stats], [define_hist_bins]). *)
Definition is_configuration_error (e : exn) : bool :=
  match e with ValueError _ => true | _ => false end.

Inductive result (A : Type) : Type :=
| OK (a : A)
| Raise (e : exn).
Arguments OK {A} a.
Arguments Raise {A} e.

Definition rbind {A B} (r : result A) (f : A -> result B) : result B :=
  match r with OK a => f a | Raise e => Raise e end.

(** All-or-nothing traversal: the first exception wins. *)
Fixpoint rmapM {A B} (f : A -> result B) (l : list A) : result (list B) :=
  match l with
  | [] => OK []
  | x :: xs => rbind (f x) (fun y => rbind (rmapM f xs) (fun ys => OK (y :: ys)))
  end.

(** Code that writes to stdout: the lines printed so far and the outcome. *)
Definition io (A : Type) : Type := (list string * result A)%type.

Definition ret {A} (a : A) : io A := ([], OK a).
Definition raise {A} (e : exn) : io A := ([], Raise e).
Definition print (s : string) : io unit := ([s], OK tt).
Definition lift {A} (r : result A) : io A := ([], r).

Definition bind {A B} (m : io A) (f : A -> io B) : io B :=
  match m with
  | (out, OK a) => let '(out', r) := f a in (out ++ out', r)
  | (out, Raise e) => (out, Raise e)
  end.

Declare Scope py_scope.
Delimit Scope py_scope with py.
Notation "x <- m ;; k" := (bind m (fun x => k))
  (at level 61, m at next level, right associativity) : py_scope.
Notation "m ;;; k" := (bind m (fun _ => k))
  (at level 61, right associativity) : py_scope.

(** The names bound at module level of [spectra.py]: its imports and its
    [def]s.  A name that is neither a local of the running function nor listed
    here (nor a builtin) raises [NameError] when it is read. *)
Inductive pyobj : Type :=
| PyModule (name : string)
| PyFunction (name : string).

Definition module_globals : list (string * pyobj) :=
  [ ("np", PyModule "numpy");
    ("signal", PyModule "scipy.signal");
    ("sparse", PyModule "scipy.sparse");
    ("utils", PyModule "emd.utils");
    ("frequency_stats", PyFunction "frequency_stats");
    ("quadrature_transform", PyFunction "quadrature_transform");
    ("phase_from_analytic_signal", PyFunction "phase_from_analytic_signal");
    ("freq_from_phase", PyFunction "freq_from_phase");
    ("phase_from_freq", PyFunction "phase_from_freq");
    ("direct_quadrature", PyFunction "direct_quadrature");
    ("phase_angle", PyFunction "phase_angle");
    ("holospectrum_am", PyFunction "holospectrum_am");
    ("holospectrum", PyFunction "holospectrum");
    ("hilberthuang", PyFunction "hilberthuang");
    ("hilberthuang_1d", PyFunction "hilberthuang_1d");
    ("define_hist_bins", PyFunction "define_hist_bins");
    ("define_hist_bins_from_data", PyFunction "define_hist_bins_from_data");
    ("mean_vector", PyFunction "mean_vector") ]%string.

Fixpoint assoc {V} (k : string) (l : list (string * V)) : option V :=
  match l with
  | [] => None
  | (k', v) :: r => if String.eqb k k' then Some v else assoc k r
  end.

Definition load_global (name : string) : result pyobj :=
  match assoc name module_globals with
  | Some o => OK o
  | None => Raise (NameError name)
  end.

(** Reading a local variable of a function that no executed statement has
    assigned. *)
Definition load_local {A} (name : string) (slot : option A) : result A :=
  match slot with
  | Some a => OK a
  | None => Raise (UnboundLocalError name)
  end.

(** Elementwise combination of two sequences of the same length. *)
Fixpoint zipw {A B C} (f : A -> B -> C) (u : list A) (v : list B) : list C :=
  match u, v with
  | a :: u', b :: v' => f a b :: zipw f u' v'
  | _, _ => []
  end.

(** [a[-1]], which raises [IndexError] on an axis of length 0. *)
Definition last_item {A} (l : list A) : result A :=
  match nth_error l (length l - 1) with
  | Some a => OK a
  | None => Raise (IndexError "index -1 is out of bounds for axis 0 with size 0")
  end.

(** The Python slice [a[1:-1]]. *)
Definition slice_inner {A} (l : list A) : list A := removelast (tl l).

End Py.

(* ------------------------------------------------------------------------- *)
(** ** Phase, frequency and amplitude estimators *)

Module Spectra.
Import Py.
Local Open Scope R_scope.

(** An IMF array: axis 0 is time, and the trailing axes (IMF index, optional
    secondary index) are flattened into one row per time sample.  Every
    operation of this part of the module works along axis 0 or elementwise,
    so the flattening loses nothing. *)
Abbreviation row := (list R).
Abbreviation array := (list (list R)).
Abbreviation complex := (R * R)%type.
Abbreviation carray := (list (list (R * R))).

Definition Cadd (a b : complex) : complex := (fst a + fst b, snd a + snd b).
Definition Cmul (a b : complex) : complex :=
  (fst a * fst b - snd a * snd b, fst a * snd b + snd a * fst b).
Definition Cabs (a : complex) : R := sqrt (fst a * fst a + snd a * snd a).
Definition of_real (x : R) : complex := (x, 0).
Definition imag_unit : complex := (0, 1).

Definition vsub (u v : row) : row := zipw Rminus u v.
Definition vadd (u v : row) : row := zipw Rplus u v.

(** [np.diff(a, axis=0)]: [a[1:] - a[:-1]]. *)
Definition diff0 (a : array) : array :=
  zipw vsub (tl a) (firstn (length a - 1) a).

(** [np.lib.scimath.sqrt(x).real]: the square root taken in the complex
    plane, so that a negative argument has real part 0. *)
Definition scimath_sqrt_real (x : R) : R :=
  if Rlt_dec x 0 then 0 else sqrt x.

(** [np.gradient(a, axis=0)] with unit spacing: one-sided differences at the
    two ends, central differences inside. *)
Definition gradient0 (a : array) : result array :=
  let n := length a in
  if (n <? 2)%nat then
    Raise (ValueError "Shape of array too small to calculate a numerical gradient, at least (edge_order + 1) elements are required.")
  else
    OK ([vsub (nth 1 a []) (nth 0 a [])]
          ++ zipw (fun hi lo => map (fun d => d / 2) (vsub hi lo))
                  (skipn 2 a) (firstn (n - 2) a)
          ++ [vsub (nth (n - 1) a []) (nth (n - 2) a [])]).

(** [np.cumsum(a, axis=0)]. *)
Fixpoint cumsum_from (acc : row) (a : array) : array :=
  match a with
  | [] => []
  | r :: rest => let acc' := vadd acc r in acc' :: cumsum_from acc' rest
  end.

Definition cumsum0 (a : array) : array :=
  match a with
  | [] => []
  | r :: rest => r :: cumsum_from r rest
  end.

(** The starting phase of [phase_from_freq] is a Python scalar (the default
    [-np.pi]) or a row such as [phase[0]]; numpy broadcasts it along time. *)
Inductive scalar_or_row : Type :=
| Scalar (s : R)
| Row (v : row).

Definition broadcast_add_row (v r : row) : result row :=
  if (length v =? length r)%nat then OK (vadd v r)
  else if (length v =? 1)%nat then OK (map (fun x => nth 0 v 0 + x) r)
  else if (length r =? 1)%nat then OK (map (fun x => x + nth 0 r 0) v)
  else Raise (ValueError "operands could not be broadcast together").

Definition broadcast_add (s : scalar_or_row) (a : array) : result array :=
  match s with
  | Scalar x => OK (map (map (fun y => x + y)) a)
  | Row v => rmapM (broadcast_add_row v) a
  end.

(** [freq_from_phase]. *)
Definition freq_from_phase (iphase : array) (sample_rate : R) : result array :=
  rbind (gradient0 iphase) (fun iphase =>
  let ifrequency := map (map (fun d => d / (2 * PI) * sample_rate)) iphase in
  OK ifrequency).

(** [phase_from_freq]. *)
Definition phase_from_freq (ifrequency : array) (sample_rate : R)
    (phase_start : scalar_or_row) : result array :=
  let iphase_diff := map (map (fun f => (f / sample_rate) * (2 * PI))) ifrequency in
  broadcast_add phase_start (cumsum0 iphase_diff).

(** The sign mask of [quadrature_transform], as integers:
    [((np.diff(nX,axis=0)>0) * -2) + 1], then [mask[mask==0] = -1], then the
    last row repeated once ([np.r_[mask, mask[-1,None,:]]]). *)
Definition bool_to_Z (b : bool) : Z := if b then 1%Z else 0%Z.

Definition quadrature_mask (nX : array) : result (list (list Z)) :=
  let mask := map (map (fun d => (bool_to_Z (if Rlt_dec 0 d then true else false) * -2 + 1)%Z))
                  (diff0 nX) in
  let mask := map (map (fun m => if (m =? 0)%Z then (-1)%Z else m)) mask in
  rbind (last_item mask) (fun final => OK (mask ++ [final])).

(** The part of [quadrature_transform] after the normalisation. *)
Definition quadrature_of_normalised (nX : array) : result carray :=
  let imagX := map (map (fun x => scimath_sqrt_real (1 - x ^ 2))) nX in
  rbind (quadrature_mask nX) (fun mask =>
  let q := zipw (zipw (fun i m => i * IZR m)) imagX mask in
  OK (zipw (zipw (fun x y => Cadd (of_real x) (Cmul imag_unit (of_real y)))) nX q)).

(** Arrays whose rows all have [w] entries (numpy arrays are rectangular). *)
Definition rect (w : nat) (a : array) : Prop := Forall (fun r => length r = w) a.

(** The mask without its repeated last row, with the integer arithmetic of
    [quadrature_mask] carried out: -1 where the step to the next sample is
    positive, +1 elsewhere. *)
Definition inner_mask (nX : array) : list (list Z) :=
  map (map (fun d => if Rlt_dec 0 d then (-1)%Z else 1%Z)) (diff0 nX).

(** One sample of the transform: the normalised value and its signed
    quadrature companion. *)
Definition quadrature_sample (x : R) (m : Z) : complex :=
  (x, scimath_sqrt_real (1 - x ^ 2) * IZR m).

(** Modelled from the spec: [utils.amplitude_normalise] is not among the
    sources; its contract is to rescale each column into about [-1, 1] and,
    with [clip=True], to clip any overshoot into exactly [-1, 1].  The
    estimators below take the normaliser as a parameter.  This instance
    performs the hard clip alone (it leaves a signal that already lies in
    [-1, 1] unchanged) and serves to run them on concrete signals. *)
Definition clip_unit (x : R) : R :=
  if Rlt_dec x (-1) then -1 else if Rlt_dec 1 x then 1 else x.

Definition clip_normalise (X : array) (clip : bool) : array :=
  if clip then map (map clip_unit) X else X.

(** *** Binary64 rounding

    The rounding of a real number to binary64: to the nearest number with a
    53-bit significand and an exponent of at least -1074 (subnormal
    numbers), ties to the even significand.  Overflow to infinity is not
    represented; the arguments rounded below lie in [-1, 1]. *)

(** The integer nearest to [y], ties to the even one. *)
Definition round_half_even (y : R) : Z :=
  let f := Zfloor y in
  if Rlt_dec (y - IZR f) (/ 2) then f
  else if Rlt_dec (/ 2) (y - IZR f) then (f + 1)%Z
  else if Z.even f then f else (f + 1)%Z.

(** [floor(log2 |x|)], for [x <> 0]. *)
Definition binade (x : R) : Z := Zfloor (ln (Rabs x) / ln 2).

(** [round64 x]: the significand [x / 2^e] rounded to an integer, where
    [e] leaves 53 bits before the point and is at least -1074. *)
Definition round64 (x : R) : R :=
  if Req_dec_T x 0 then 0
  else
    let e := Z.max (binade x - 52) (-1074) in
    IZR (round_half_even (x * powerRZ 2 (- e))) * powerRZ 2 e.

(** Half the spacing of the binary64 numbers in [[1, 2)], and half the
    spacing of the subnormal numbers. *)
Definition unit_roundoff : R := / 2 ^ 53.
Definition underflow_unit : R := powerRZ 2 (-1075).

(** *** The quadrature transform with its roundings

    [rnd] is applied to the exact result of each floating-point operation of
    [quadrature_transform] that can round: the difference of neighbouring
    samples, the square, the subtraction from 1 and the square root.
    Multiplying by the sign [-1] or [1] and assembling the complex number
    round nothing. *)

Section Rounded.

Variable rnd : R -> R.

(** [np.diff(a, axis=0)]. *)
Definition diff0_with (a : array) : array :=
  zipw (zipw (fun x y => rnd (x - y))) (tl a) (firstn (length a - 1) a).

(** [np.lib.scimath.sqrt(x).real]. *)
Definition scimath_sqrt_real_with (x : R) : R :=
  if Rlt_dec x 0 then 0 else rnd (sqrt x).

(** The sign mask, as in [quadrature_mask]. *)
Definition quadrature_mask_with (nX : array) : result (list (list Z)) :=
  let mask := map (map (fun d => (bool_to_Z (if Rlt_dec 0 d then true else false) * -2 + 1)%Z))
                  (diff0_with nX) in
  let mask := map (map (fun m => if (m =? 0)%Z then (-1)%Z else m)) mask in
  rbind (last_item mask) (fun final => OK (mask ++ [final])).

(** The part of [quadrature_transform] after the normalisation. *)
Definition quadrature_of_normalised_with (nX : array) : result carray :=
  let imagX :=
    map (map (fun x => scimath_sqrt_real_with (rnd (1 - rnd (x ^ 2))))) nX in
  rbind (quadrature_mask_with nX) (fun mask =>
  let q := zipw (zipw (fun i m => i * IZR m)) imagX mask in
  OK (zipw (zipw (fun x y => Cadd (of_real x) (Cmul imag_unit (of_real y)))) nX q)).

(** One sample of the transform. *)
Definition quadrature_sample_with (x : R) (m : Z) : complex :=
  (x, scimath_sqrt_real_with (rnd (1 - rnd (x ^ 2))) * IZR m).

End Rounded.

(** [quadrature_transform] with rounding [rnd]; the normaliser is a
    parameter, as for the exact form below. *)
Definition quadrature_transform_with (rnd : R -> R)
    (amplitude_normalise : array -> bool -> array) (X : array) : result carray :=
  quadrature_of_normalised_with rnd (amplitude_normalise X true).

(** [a.mean(axis=0)] of a complex array: the column sums divided by the
    number of rows.  (An array without rows is represented without columns,
    so the NaN that numpy returns for an empty axis has no cell to sit in.) *)
Definition Csum (l : list complex) : complex := fold_left Cadd l (0, 0).

Definition cmean0 (a : carray) : list complex :=
  map (fun j =>
         let s := Csum (map (fun r => nth j r (0, 0)) a) in
         (fst s / INR (length a), snd s / INR (length a)))
      (seq 0 (length (nth 0 a []))).

(** [mean_vector]: [IP] is one phase series, [IA] a [time][component] array;
    [phi[:,None] * IA] broadcasts along the time axis when one of the two has
    a single time sample.  The [mask] argument is accepted and not read. *)
Definition mean_vector (IP : list R) (IA : array) (mask : option (list bool))
  : result (list complex) :=
  let phi := map (fun p => Cadd (of_real (sin p)) (Cmul imag_unit (of_real (cos p)))) IP in
  let scale := fun z r => map (fun a => Cmul z (of_real a)) r in
  rbind
    (if (length phi =? length IA)%nat then OK (zipw scale phi IA)
     else if (length phi =? 1)%nat then OK (map (scale (nth 0 phi (0, 0))) IA)
     else if (length IA =? 1)%nat then OK (map (fun z => scale z (nth 0 IA [])) phi)
     else Raise (ValueError "operands could not be broadcast together"))
    (fun mv => OK (cmean0 mv)).

(** The sum of a list of reals, to state what the averages above add up. *)
Definition Rsum (l : list R) : R := fold_right Rplus 0 l.

(** The product [phi[:,None] * IA] on arrays with one phase per row. *)
Definition products (IP : list R) (IA : array) : carray :=
  zipw (fun p r => map (fun a => (sin p * a, cos p * a)) r) IP IA.

Section Estimators.

(** Collaborators that live outside [spectra.py]. *)

(** [utils.amplitude_normalise(x, clip)]. *)
Variable amplitude_normalise : array -> bool -> array.
(** [utils.interp_envelope(x, mode)] on one time series. *)
Variable interp_envelope : list R -> string -> list R.
(** [utils.wrap_phase]. *)
Variable wrap_phase : array -> array.
(** [scipy.signal.hilbert(x, axis=0)]. *)
Variable hilbert : array -> carray.
(** [np.angle] and [np.unwrap(., axis=0)]. *)
Variable np_angle : carray -> array.
Variable np_unwrap : array -> array.
(** [scipy.signal.savgol_filter(x, window_length, polyorder, axis=0)],
    which rejects an even or too long window. *)
Variable savgol_filter : array -> Z -> Z -> result array.

(** [quadrature_transform]. *)
Definition quadrature_transform (X : array) : result carray :=
  let nX := amplitude_normalise X true in
  quadrature_of_normalised nX.

(** [phase_from_analytic_signal]; the Python function returns [None] when
    [ret_phase] is neither ['wrapped'] nor ['unwrapped']. *)
Definition phase_from_analytic_signal (analytic_signal : carray)
    (smoothing : option Z) (ret_phase phase_jump : string)
  : result (option array) :=
  let iphase := np_unwrap (np_angle analytic_signal) in
  rbind (match smoothing with
         | Some w => savgol_filter iphase w 1
         | None => OK iphase
         end) (fun iphase =>
  let iphase :=
    if String.eqb phase_jump "ascending" then map (map (fun p => p + PI / 2)) iphase
    else if String.eqb phase_jump "peak" then iphase
    else if String.eqb phase_jump "descending" then map (map (fun p => p - PI / 2)) iphase
    else if String.eqb phase_jump "trough" then map (map (fun p => p + PI)) iphase
    else iphase in
  if String.eqb ret_phase "wrapped" then OK (Some (wrap_phase iphase))
  else if String.eqb ret_phase "unwrapped" then OK (Some iphase)
  else OK None).

(** Column [c] of an array, and the assignment [a[:, c] = v]. *)
Definition column (c : nat) (a : array) : list R := map (fun r => nth c r 0) a.

Fixpoint set_nth (c : nat) (x : R) (r : row) : row :=
  match c, r with
  | _, [] => []
  | O, _ :: t => x :: t
  | S c', y :: t => y :: set_nth c' x t
  end.

Definition assign_column (c : nat) (v : list R) (a : array) : result array :=
  if (length v =? length a)%nat then OK (zipw (fun r x => set_nth c x r) a v)
  else if (length v =? 1)%nat then OK (map (set_nth c (nth 0 v 0)) a)
  else Raise (ValueError "could not broadcast input array").

Definition ncols (a : array) : nat := length (nth 0 a []).

(** The names that the branches of [frequency_stats] may or may not bind. *)
Record frame : Type := {
  analytic_signal : option carray;
  iamp : option array
}.

(** A module or a function handed to numpy where a real array is expected. *)
Definition as_real_array (o : pyobj) : result array :=
  Raise (TypeError "object is not a real array").

(** [frequency_stats]. *)
Definition frequency_stats (imf : array) (sample_rate : R) (method : string)
    (smooth_phase : Z) : io (array * array * array) :=
  (fr <-
    (if String.eqb method "hilbert" then
       (* analytic_signal = signal.hilbert( X, axis=0 ) *)
       X <- lift (rbind (load_global "X") as_real_array) ;;
       let analytic_signal := hilbert X in
       let iamp := map (map Cabs) analytic_signal in
       ret {| analytic_signal := Some analytic_signal; iamp := Some iamp |}
     else if String.eqb method "quad" then
       analytic_signal <- lift (quadrature_transform imf) ;;
       let zeros := map (map (fun _ => 0)) imf in
       iamp <- lift (fold_left
                       (fun acc ii => rbind acc
                          (assign_column ii (interp_envelope (column ii imf) "upper")))
                       (seq 0 (ncols imf)) (OK zeros)) ;;
       ret {| analytic_signal := Some analytic_signal; iamp := Some iamp |}
     else if String.eqb method "direct_quad" then
       raise (ValueError "direct_quad method is broken!")
     else
       print "Method not recognised" ;;;
       ret {| analytic_signal := None; iamp := None |}) ;;
   (* Compute unwrapped phase for frequency estimation *)
   a <- lift (load_local "analytic_signal" (analytic_signal fr)) ;;
   iphase <- lift (phase_from_analytic_signal a (Some smooth_phase)
                     "unwrapped" "ascending") ;;
   iphase <- lift (match iphase with
                   | Some p => OK p
                   | None => Raise (ValueError "axis 0 is out of bounds for array of dimension 0")
                   end) ;;
   ifreq <- lift (freq_from_phase iphase sample_rate) ;;
   (* Return wrapped phase *)
   let iphase := wrap_phase iphase in
   iamp <- lift (load_local "iamp" (iamp fr)) ;;
   ret (iphase, ifreq, iamp))%py.

End Estimators.

End Spectra.

(* ------------------------------------------------------------------------- *)
(** ** Histogram bin edges *)

Module HistBins.
Import Py.
Local Open Scope R_scope.

(** [np.log] of a non-positive number is not an exception: numpy returns
    [-inf] or [nan] (and emits a warning).  The values of this function are
    therefore reals extended with the IEEE special values. *)
Inductive xfloat : Type :=
| Fin (r : R)
| PInf
| NInf
| NaN.

Definition xneg (a : xfloat) : xfloat :=
  match a with Fin r => Fin (- r) | PInf => NInf | NInf => PInf | NaN => NaN end.

Definition xadd (a b : xfloat) : xfloat :=
  match a, b with
  | NaN, _ | _, NaN => NaN
  | Fin x, Fin y => Fin (x + y)
  | PInf, NInf | NInf, PInf => NaN
  | PInf, _ | _, PInf => PInf
  | NInf, _ | _, NInf => NInf
  end.

Definition xsub (a b : xfloat) : xfloat := xadd a (xneg b).

Definition xmul (a b : xfloat) : xfloat :=
  match a, b with
  | NaN, _ | _, NaN => NaN
  | Fin x, Fin y => Fin (x * y)
  | Fin x, PInf | PInf, Fin x =>
      if Rlt_dec 0 x then PInf else if Rlt_dec x 0 then NInf else NaN
  | Fin x, NInf | NInf, Fin x =>
      if Rlt_dec 0 x then NInf else if Rlt_dec x 0 then PInf else NaN
  | PInf, PInf | NInf, NInf => PInf
  | PInf, NInf | NInf, PInf => NInf
  end.

Definition xdiv (a b : xfloat) : xfloat :=
  match a, b with
  | NaN, _ | _, NaN => NaN
  | Fin x, Fin y =>
      if Req_dec_T y 0
      then (if Rlt_dec 0 x then PInf else if Rlt_dec x 0 then NInf else NaN)
      else Fin (x / y)
  | Fin _, PInf | Fin _, NInf => Fin 0
  | PInf, Fin y => if Rlt_dec y 0 then NInf else PInf
  | NInf, Fin y => if Rlt_dec y 0 then PInf else NInf
  | PInf, PInf | PInf, NInf | NInf, PInf | NInf, NInf => NaN
  end.

(** [x == 0]. *)
Definition xeq0 (a : xfloat) : bool :=
  match a with
  | Fin r => if Req_dec_T r 0 then true else false
  | _ => false
  end.

Definition np_log (a : xfloat) : xfloat :=
  match a with
  | Fin r => if Rlt_dec 0 r then Fin (ln r) else if Rlt_dec r 0 then NaN else NInf
  | PInf => PInf
  | NInf => NaN
  | NaN => NaN
  end.

Definition np_exp (a : xfloat) : xfloat :=
  match a with
  | Fin r => Fin (exp r)
  | PInf => PInf
  | NInf => Fin 0
  | NaN => NaN
  end.

(** [np.linspace(start, stop, num)] with the default [endpoint=True]:
    [arange(num) * step + start], the last sample overwritten by [stop]. *)
Definition linspace (start stop : xfloat) (num : Z) : result (list xfloat) :=
  if (num <? 0)%Z then
    Raise (ValueError "Number of samples must be non-negative.")
  else
    let div := (num - 1)%Z in
    let delta := xsub stop start in
    let y := map (fun k => Fin (INR k)) (seq 0 (Z.to_nat num)) in
    let y :=
      if (0 <? div)%Z then
        let step := xdiv delta (Fin (IZR div)) in
        if xeq0 step
        then map (fun v => xmul (xdiv v (Fin (IZR div))) delta) y
        else map (fun v => xmul v step) y
      else map (fun v => xmul v delta) y in
    let y := map (fun v => xadd v start) y in
    OK (if (1 <? num)%Z then removelast y ++ [stop] else y).

(** [define_hist_bins]. *)
Definition define_hist_bins (data_min data_max : xfloat) (nbins : Z)
    (scale : string) : result (list xfloat * list xfloat) :=
  rbind
    (if String.eqb scale "log" then
       let p := map np_log [data_min; data_max] in
       rbind (linspace (nth 0 p NaN) (nth 1 p NaN) (nbins + 1)) (fun edges =>
       OK (map np_exp edges))
     else if String.eqb scale "linear" then
       linspace data_min data_max (nbins + 1)
     else
       Raise (ValueError "scale '{0}' not recognised. please use 'log' or 'linear'."))
    (fun edges =>
  (* Get centre frequecy for the bins *)
  let centres :=
    map (fun ii => xdiv (xadd (nth ii edges NaN) (nth (ii + 1) edges NaN)) (Fin 2))
        (seq 0 (length edges - 1)) in
  OK (edges, centres)).

(** [X.min()] and [X.max()] over all the elements; numpy raises on an array
    without elements. *)
Definition array_min (X : list (list R)) : result R :=
  match concat X with
  | [] => Raise (ValueError "zero-size array to reduction operation minimum which has no identity")
  | x :: l => OK (fold_left Rmin l x)
  end.

Definition array_max (X : list (list R)) : result R :=
  match concat X with
  | [] => Raise (ValueError "zero-size array to reduction operation maximum which has no identity")
  | x :: l => OK (fold_left Rmax l x)
  end.

(** [define_hist_bins_from_data]; [X.shape[0]] is the number of rows (the
    number of samples of a one-column array), and
    [np.sqrt(n).astype(int)] is the integer square root. *)
Definition define_hist_bins_from_data (X : list (list R)) (nbins : option Z)
    (mode scale : string) : result (list xfloat * list xfloat) :=
  rbind (array_min X) (fun data_min =>
  rbind (array_max X) (fun data_max =>
  rbind (match nbins with
         | Some n => OK n
         | None =>
             if String.eqb mode "sqrt" then OK (Z.sqrt (Z.of_nat (length X)))
             else Raise (ValueError "mode {0} not recognised, please use 'sqrt'")
         end) (fun nbins =>
  define_hist_bins (Fin data_min) (Fin data_max) nbins scale))).

End HistBins.

(* ------------------------------------------------------------------------- *)
(** ** Spectral aggregators *)

Module Binning.
Import Py.
Local Open Scope nat_scope.

(** A sample: an exact finite value or NaN.  (Every finite float is a
    rational; infinities do not occur in the aggregators.) *)
Inductive fnum : Type :=
| Fin (q : Q)
| NaN.

(** Arrays indexed [time][imf] and [time][imf][imf2]. *)
Definition array2 : Type := list (list fnum).
Definition array3 : Type := list (list (list fnum)).

Definition fzero : fnum := Fin 0.

Definition fadd (a b : fnum) : fnum :=
  match a, b with
  | Fin x, Fin y => Fin (x + y)
  | _, _ => NaN
  end.

(** [x ** 2] and [np.power(x, 2)]. *)
Definition fsq (a : fnum) : fnum :=
  match a with
  | Fin x => Fin (x * x)
  | NaN => NaN
  end.

(** Comparisons with a NaN operand are false. *)
Definition flt (a b : fnum) : bool :=
  match a, b with
  | Fin x, Fin y => negb (Qle_bool y x)
  | _, _ => false
  end.

Definition fgt (a b : fnum) : bool := flt b a.

(** Accumulation into a cell that starts at zero ([+=] in entry order). *)
Definition fsum (l : list fnum) : fnum := fold_left fadd l fzero.

(** [np.nansum]: NaN entries count as zero. *)
Definition nansum (l : list fnum) : fnum :=
  fsum (filter (fun x => match x with NaN => false | Fin _ => true end) l).

(** *** [np.digitize] *)

Fixpoint nondecreasing (l : list Q) : bool :=
  match l with
  | a :: (b :: _) as r => Qle_bool a b && nondecreasing r
  | _ => true
  end.

Fixpoint nonincreasing (l : list Q) : bool :=
  match l with
  | a :: (b :: _) as r => Qle_bool b a && nonincreasing r
  | _ => true
  end.

(** numpy's monotonicity test of the bins: 1, -1, or 0 when they are not
    monotonic. *)
Definition monotonicity (bins : list Q) : Z :=
  if nondecreasing bins then 1%Z
  else if nonincreasing bins then (-1)%Z
  else 0%Z.

(** [np.searchsorted(bins, x, side='right')] on non-decreasing bins: the
    insertion point after every edge that is [<= x], which is unique however
    the bisection proceeds.  NaN sorts after every number. *)
Fixpoint searchsorted_right (bins : list Q) (x : fnum) : nat :=
  match bins with
  | [] => 0
  | b :: r =>
      if match x with Fin q => Qle_bool b q | NaN => true end
      then S (searchsorted_right r x)
      else 0
  end.

Definition digitize_elem (bins : list Q) (mono : Z) (x : fnum) : nat :=
  if (mono =? -1)%Z
  then length bins - searchsorted_right (rev bins) x
  else searchsorted_right bins x.

Definition check_bins (bins : list Q) : result Z :=
  let mono := monotonicity bins in
  if (mono =? 0)%Z
  then Raise (ValueError "bins must be monotonically increasing or decreasing")
  else OK mono.

Definition digitize2 (x : array2) (bins : list Q) : result (list (list nat)) :=
  rbind (check_bins bins) (fun mono =>
  OK (map (map (digitize_elem bins mono)) x)).

Definition digitize3 (x : array3) (bins : list Q)
  : result (list (list (list nat))) :=
  rbind (check_bins bins) (fun mono =>
  OK (map (map (map (digitize_elem bins mono))) x)).

(** *** [scipy.sparse.coo_matrix] *)

Record coo : Type := {
  coo_rows : nat;
  coo_cols : nat;
  coo_data : list fnum;
  coo_row : list nat;
  coo_col : list nat
}.

(** The constructor [coo_matrix((data, (row, col)), shape=(M, N))] with the
    checks scipy performs on its arguments. *)
Definition coo_matrix (data : list fnum) (row col : list nat) (M N : Z)
  : result coo :=
  if ((M <? 0) || (N <? 0))%Z then
    Raise (ValueError "'shape' elements cannot be negative")
  else if negb ((length row =? length data) && (length col =? length data)) then
    Raise (ValueError "row, column, and data array must all be the same length")
  else if negb (forallb (fun r => (Z.of_nat r <? M)%Z) row) then
    Raise (ValueError "row index exceeds matrix dimensions")
  else if negb (forallb (fun c => (Z.of_nat c <? N)%Z) col) then
    Raise (ValueError "column index exceeds matrix dimensions")
  else
    OK {| coo_rows := Z.to_nat M; coo_cols := Z.to_nat N;
          coo_data := data; coo_row := row; coo_col := col |}.

Definition coo_entries (m : coo) : list (fnum * (nat * nat)) :=
  combine (coo_data m) (combine (coo_row m) (coo_col m)).

(** The values stored at cell [(r, c)], in entry order; duplicates are
    summed when the matrix is densified. *)
Definition cell_values (m : coo) (r c : nat) : list fnum :=
  map fst (filter (fun e => (fst (snd e) =? r) && (snd (snd e) =? c))
                  (coo_entries m)).

Definition column_values (m : coo) (c : nat) : list fnum :=
  map fst (filter (fun e => snd (snd e) =? c) (coo_entries m)).

(** [m.toarray()]. *)
Definition toarray (m : coo) : list (list fnum) :=
  map (fun r => map (fun c => fsum (cell_values m r c)) (seq 0 (coo_cols m)))
      (seq 0 (coo_rows m)).

(** [m.sum(axis=0)]: one row holding the total of each column. *)
Definition coo_sum_axis0 (m : coo) : list fnum :=
  map (fun c => fsum (column_values m c)) (seq 0 (coo_cols m)).

(** [row.reshape(d2, d1)] of a row of [d2 * d1] values (C order). *)
Definition reshape2 (d2 d1 : nat) (row : list fnum) : list (list fnum) :=
  map (fun j => firstn d1 (skipn (j * d1) row)) (seq 0 d2).

(** *** Indexing helpers *)

Definition ncols {A} (a : list (list A)) : nat := length (nth 0 a []).

Definition column {A} (d : A) (j : nat) (a : list (list A)) : list A :=
  map (fun r => nth j r d) a.

(** Boolean-mask selection [a[mask]]. *)
Definition mask_select {A} (mask : list bool) (a : list A) : list A :=
  map snd (filter fst (combine mask a)).

(** *** [hilberthuang_1d] *)

Definition hilberthuang_1d (infr inam : array2) (fbins : list Q)
    (mode : string) : result (list (list fnum)) :=
  (* specs = np.zeros( (len(fbins)-1,infr.shape[1]) ) *)
  if length fbins =? 0 then
    Raise (ValueError "negative dimensions are not allowed")
  else
    (* Remove values outside the bin range *)
    let lo := Fin (nth 0 fbins 0%Q) in
    let hi := Fin (last fbins 0%Q) in
    let infr := map (map (fun x => if flt x lo then NaN else x)) infr in
    let infr := map (map (fun x => if fgt x hi then NaN else x)) infr in
    rbind (digitize2 infr fbins) (fun finds =>
    OK (map (fun ii =>
          map (fun jj =>
            let mask := map (fun f => f =? ii) (column 0 jj finds) in
            let picked := mask_select mask (column NaN jj inam) in
            if String.eqb mode "power" then nansum picked
            else if String.eqb mode "energy" then nansum (map fsq picked)
            else fzero)
            (seq 0 (ncols infr)))
          (seq 0 (length fbins - 1)))).

(** *** [hilberthuang] *)

Inductive hht_result : Type :=
| Sparse (m : coo)
| Dense (a : list (list fnum)).

Definition hilberthuang (infr inam : array2) (freq_edges : list Q)
    (mode : string) (return_sparse : bool) : result hht_result :=
  let inam := if String.eqb mode "energy" then map (map fsq) inam else inam in
  (* Create sparse co-ordinates *)
  rbind (digitize2 infr freq_edges) (fun yinds =>
  let xinds := map (fun t => repeat t (ncols yinds)) (seq 0 (length yinds)) in
  let data := concat inam in
  let ys := concat yinds in
  let xs := concat xinds in
  (* Remove values outside our bins *)
  let goods :=
    map (fun y => (Z.of_nat y <? Z.of_nat (length freq_edges) - 1)%Z || (y =? 0)) ys in
  let data := mask_select goods data in
  let ys := mask_select goods ys in
  let xs := mask_select goods xs in
  (* Create sparse matrix *)
  rbind (coo_matrix data ys xs
           (Z.of_nat (length freq_edges) - 1) (Z.of_nat (length xinds)))
        (fun hht =>
  if return_sparse then OK (Sparse hht) else OK (Dense (toarray hht)))).

(** *** [holospectrum] *)

Inductive holo_result : Type :=
| TimeResolved (a : list (list (list fnum)))
| TimeCollapsed (a : list (list fnum)).

Definition holospectrum (infr : array2) (infr2 inam2 : array3)
    (freq_edges freq_edges2 : list Q) (mode : string) (return_time : bool)
  : result holo_result :=
  let inam2 :=
    if String.eqb mode "energy" then map (map (map fsq)) inam2 else inam2 in
  rbind (digitize3 infr2 freq_edges2) (fun IA_inds =>
  rbind (digitize2 infr freq_edges) (fun infr_inds =>
  let n0 := length infr_inds in
  let n1 := ncols infr_inds in
  let n2 := length (nth 0 (nth 0 infr2 []) []) in
  let infr_inds := map (map (fun i => repeat i n2)) infr_inds in
  let fold_dim1 := length freq_edges + 1 in
  let fold_dim2 := length freq_edges2 + 1 in
  let infr_inds :=
    zipw (zipw (zipw (fun a b => a + b * fold_dim1))) infr_inds IA_inds in
  let T_inds := map (fun t => repeat (repeat t n2) n1) (seq 0 (length infr)) in
  let coords := (concat (concat T_inds), concat (concat infr_inds)) in
  rbind (coo_matrix (concat (concat inam2)) (fst coords) (snd coords)
           (Z.of_nat (length infr)) (Z.of_nat (fold_dim1 * fold_dim2)))
        (fun holo =>
  (* Always returns full matrix until someone implements ND sparse in scipy *)
  if return_time then
    (* Return the full matrix *)
    let holo := map (reshape2 fold_dim2 fold_dim1) (toarray holo) in
    OK (TimeResolved (map (fun m => slice_inner (map slice_inner m)) holo))
  else
    (* Collapse time dimension while we're still sparse *)
    let holo := coo_sum_axis0 holo in
    let holo := reshape2 fold_dim2 fold_dim1 holo in
    OK (TimeCollapsed (slice_inner (map slice_inner holo)))))).

(** [np.sum(a, axis=0)] of a time-resolved holospectrum whose slices have
    [d2] rows and [d1] columns. *)
Definition sum_axis0 (d2 d1 : nat) (a : list (list (list fnum)))
  : list (list fnum) :=
  map (fun j =>
         map (fun k => fsum (map (fun m => nth k (nth j m []) fzero) a))
             (seq 0 d1))
      (seq 0 d2).

(** Shapes: an array of [n0] rows of [n1] entries, and an array of [n0]
    slices that are each [n1] by [n2]. *)
Definition shape2 {A} (n0 n1 : nat) (a : list (list A)) : Prop :=
  length a = n0 /\ Forall (fun r => length r = n1) a.

Definition shape3 {A} (n0 n1 n2 : nat) (a : list (list (list A))) : Prop :=
  length a = n0 /\ Forall (shape2 n1 n2) a.

(** *** What the binning is meant to compute

    Bin [i] of the edge vector is the interval from [edges[i]] to
    [edges[i+1]]; a sample is in range when it lies between the first and
    the last edge. *)
Definition in_range (edges : list Q) (x : fnum) : bool :=
  match x with
  | Fin q => Qle_bool (nth 0 edges 0%Q) q && Qle_bool q (last edges 0%Q)
  | NaN => false
  end.

Definition in_bin (edges : list Q) (i : nat) (x : fnum) : bool :=
  match x with
  | Fin q => Qle_bool (nth i edges 0%Q) q && negb (Qle_bool (nth (S i) edges 0%Q) q)
  | NaN => false
  end.

(** Sum of squared amplitudes of the in-range samples of column [jj]. *)
Definition in_range_energy (infr inam : array2) (fbins : list Q) (jj : nat)
  : fnum :=
  fsum (map fsq (mask_select (map (in_range fbins) (column NaN jj infr))
                             (column NaN jj inam))).

(** Total of column [jj] of a spectrum over all its bins. *)
Definition column_total (spec : list (list fnum)) (jj : nat) : fnum :=
  fsum (column fzero jj spec).

(** The two assignments of [hilberthuang_1d] that blank the out-of-range
    frequencies, on one sample. *)
Definition blanked (fbins : list Q) (x : fnum) : fnum :=
  let x1 := if flt x (Fin (nth 0 fbins 0%Q)) then NaN else x in
  if fgt x1 (Fin (last fbins 0%Q)) then NaN else x1.

(** *** Binary64 evaluation of the sums

    The sparse-matrix operations of [holospectrum] add their entries one by
    one, so their results depend on how each addition rounds. *)

(** [floor_log2 q], for positive [q]: the exponent [l] with
    [2^l <= q < 2^(l+1)]. *)
Definition floor_log2 (q : Q) : Z :=
  let n := Qnum q in
  let d := Zpos (Qden q) in
  let l := (Z.log2 n - Z.log2 d)%Z in
  if (if (0 <=? l)%Z then (d * 2 ^ l <=? n)%Z else (d <=? n * 2 ^ (- l))%Z)
  then l else (l - 1)%Z.

(** The integer nearest to [n / d] (for [d > 0]), ties to the even one. *)
Definition nearest_even (n d : Z) : Z :=
  let q := (n / d)%Z in
  match (2 * (n mod d) ?= d)%Z with
  | Lt => q
  | Gt => (q + 1)%Z
  | Eq => if Z.even q then q else (q + 1)%Z
  end.

(** Rounding of a rational to binary64: to the nearest number with a
    53-bit significand and an exponent of at least -1074 (subnormal
    numbers), ties to even.  Overflow to infinity is not represented. *)
Definition qround64 (q : Q) : Q :=
  match Qnum q with
  | Z0 => 0%Q
  | _ =>
      let a := Qmake (Z.abs (Qnum q)) (Qden q) in
      let e := Z.max (floor_log2 a - 52) (-1074) in
      let m := if (0 <=? e)%Z
               then nearest_even (Qnum a) (Zpos (Qden a) * 2 ^ e)
               else nearest_even (Qnum a * 2 ^ (- e)) (Zpos (Qden a)) in
      let v := if (0 <=? e)%Z then inject_Z (m * 2 ^ e)
               else Qmake m (Z.to_pos (2 ^ (- e))) in
      Qred (if (Qnum q <? 0)%Z then Qopp v else v)
  end.

Section Rounding.

(** The rounding applied to the exact result of every floating-point
    operation: [qround64] for the program as it runs, the identity for
    exact arithmetic. *)
Variable rnd : Q -> Q.

Definition fadd_with (a b : fnum) : fnum :=
  match a, b with
  | Fin x, Fin y => Fin (rnd (x + y))
  | _, _ => NaN
  end.

Definition fsq_with (a : fnum) : fnum :=
  match a with
  | Fin x => Fin (rnd (x * x))
  | NaN => NaN
  end.

Definition fsum_with (l : list fnum) : fnum := fold_left fadd_with l fzero.

(** [m.toarray()]: every entry is added to its cell, in entry order. *)
Definition toarray_with (m : coo) : list (list fnum) :=
  map (fun r => map (fun c => fsum_with (cell_values m r c)) (seq 0 (coo_cols m)))
      (seq 0 (coo_rows m)).

(** [m.sum(axis=0)]: every entry is added to the total of its column, in
    entry order. *)
Definition coo_sum_axis0_with (m : coo) : list fnum :=
  map (fun c => fsum_with (column_values m c)) (seq 0 (coo_cols m)).

(** [holospectrum], with the rounding of its squares and sums explicit. *)
Definition holospectrum_with (infr : array2) (infr2 inam2 : array3)
    (freq_edges freq_edges2 : list Q) (mode : string) (return_time : bool)
  : result holo_result :=
  let inam2 :=
    if String.eqb mode "energy" then map (map (map fsq_with)) inam2 else inam2 in
  rbind (digitize3 infr2 freq_edges2) (fun IA_inds =>
  rbind (digitize2 infr freq_edges) (fun infr_inds =>
  let n0 := length infr_inds in
  let n1 := ncols infr_inds in
  let n2 := length (nth 0 (nth 0 infr2 []) []) in
  let infr_inds := map (map (fun i => repeat i n2)) infr_inds in
  let fold_dim1 := length freq_edges + 1 in
  let fold_dim2 := length freq_edges2 + 1 in
  let infr_inds :=
    zipw (zipw (zipw (fun a b => a + b * fold_dim1))) infr_inds IA_inds in
  let T_inds := map (fun t => repeat (repeat t n2) n1) (seq 0 (length infr)) in
  let coords := (concat (concat T_inds), concat (concat infr_inds)) in
  rbind (coo_matrix (concat (concat inam2)) (fst coords) (snd coords)
           (Z.of_nat (length infr)) (Z.of_nat (fold_dim1 * fold_dim2)))
        (fun holo =>
  (* Always returns full matrix until someone implements ND sparse in scipy *)
  if return_time then
    (* Return the full matrix *)
    let holo := map (reshape2 fold_dim2 fold_dim1) (toarray_with holo) in
    OK (TimeResolved (map (fun m => slice_inner (map slice_inner m)) holo))
  else
    (* Collapse time dimension while we're still sparse *)
    let holo := coo_sum_axis0_with holo in
    let holo := reshape2 fold_dim2 fold_dim1 holo in
    OK (TimeCollapsed (slice_inner (map slice_inner holo)))))).


End Rounding.

End Binning.

(* ========================================================================= *)
(** * Properties *)

(** ** List lemmas shared by the developments below *)

Module ListFacts.
Import Py.

Lemma length_zipw {A B C} (f : A -> B -> C) (u : list A) (v : list B) :
  length (zipw f u v) = Nat.min (length u) (length v).
Proof.
  revert v; induction u as [|a u IH]; intros [|b v]; simpl; auto.
Qed.

Lemma nth_zipw {A B C} (f : A -> B -> C) (u : list A) (v : list B)
    (k : nat) (dc : C) (da : A) (db : B) :
  (k < length u)%nat -> (k < length v)%nat ->
  nth k (zipw f u v) dc = f (nth k u da) (nth k v db).
Proof.
  revert v k; induction u as [|a u IH]; intros [|b v] [|k]; simpl; intros; try lia; auto.
  apply IH; lia.
Qed.

Lemma zipw_map_l {A A' B C} (f : A' -> B -> C) (h : A -> A') (u : list A) (v : list B) :
  zipw f (map h u) v = zipw (fun a b => f (h a) b) u v.
Proof.
  revert v; induction u as [|a u IH]; intros [|b v]; simpl; auto.
  now rewrite IH.
Qed.

Lemma zipw_nested_r {A B C D} (f : A -> C -> D) (g : A -> B -> C)
    (u : list A) (v : list B) :
  zipw f u (zipw g u v) = zipw (fun a b => f a (g a b)) u v.
Proof.
  revert v; induction u as [|a u IH]; intros [|b v]; simpl; auto.
  now rewrite IH.
Qed.

Lemma Forall_zipw {A B C} (P : A -> Prop) (Q : B -> Prop) (R : C -> Prop)
    (f : A -> B -> C) (u : list A) (v : list B) :
  (forall a b, P a -> Q b -> R (f a b)) ->
  Forall P u -> Forall Q v -> Forall R (zipw f u v).
Proof.
  intros Hf Hu; revert v; induction Hu as [|a u Ha Hu IH]; intros v Hv.
  - destruct v; constructor.
  - destruct Hv as [|b v Hb Hv]; simpl; constructor; auto.
Qed.

Lemma last_item_nth {A} (l : list A) (d : A) :
  (0 < length l)%nat -> last_item l = OK (nth (length l - 1) l d).
Proof.
  intros H. unfold last_item.
  destruct (nth_error l (length l - 1)) eqn:E.
  - now rewrite (nth_error_nth _ _ d E).
  - apply nth_error_None in E. lia.
Qed.


Lemma nth_map_seq {A} (f : nat -> A) (a n k : nat) (d : A) :
  (k < n)%nat -> nth k (map f (seq a n)) d = f (a + k)%nat.
Proof.
  intros H. rewrite (nth_indep _ d (f 0%nat)) by now rewrite length_map, length_seq.
  rewrite (map_nth f (seq a n) 0%nat k). now rewrite seq_nth.
Qed.

Lemma rmapM_all_ok {A B} (f : A -> result B) (g : A -> B) (l : list A) :
  (forall x, In x l -> f x = OK (g x)) -> rmapM f l = OK (map g l).
Proof.
  induction l as [|x l IH]; simpl; intros H; auto.
  rewrite (H x) by auto. simpl. rewrite IH by auto. reflexivity.
Qed.

End ListFacts.

(* ------------------------------------------------------------------------- *)
(** ** The dispatcher [frequency_stats] *)

Module FrequencyStatsFacts.
Import Py Spectra.

Section Dispatch.

Variable amplitude_normalise : array -> bool -> array.
Variable interp_envelope : list R -> string -> list R.
Variable wrap_phase : array -> array.
Variable hilbert : array -> carray.
Variable np_angle : carray -> array.
Variable np_unwrap : array -> array.
Variable savgol_filter : array -> Z -> Z -> result array.

Local Abbreviation frequency_stats :=
  (frequency_stats amplitude_normalise interp_envelope wrap_phase hilbert
                   np_angle np_unwrap savgol_filter).

(** C1: with [method='hilbert'] the function does not reach the Hilbert
    transform.  Its argument is read from the name [X], which is bound
    neither in the function nor in the module (the parameter is called
    [imf]), so the call raises [NameError] for every input and no phase,
    frequency or amplitude is returned. *)
Theorem frequency_stats_hilbert_raises_name_error :
  forall (imf : array) (sample_rate : R) (smooth_phase : Z),
    frequency_stats imf sample_rate "hilbert" smooth_phase
    = ([], Raise (NameError "X")).
Proof.
  intros. reflexivity.
Qed.

(** C2: a method string other than ['hilbert'], ['quad'], ['direct_quad']
    prints ['Method not recognised'] and falls through to the read of the
    never-assigned local [analytic_signal]: the call ends in
    [UnboundLocalError], which is not a configuration error, although no
    result is returned. *)
Theorem frequency_stats_unrecognised_method :
  forall (imf : array) (sample_rate : R) (method : string) (smooth_phase : Z),
    method <> "hilbert"%string ->
    method <> "quad"%string ->
    method <> "direct_quad"%string ->
    frequency_stats imf sample_rate method smooth_phase
    = (["Method not recognised"%string],
       Raise (UnboundLocalError "analytic_signal"))
    /\ is_configuration_error (UnboundLocalError "analytic_signal") = false.
Proof.
  intros imf sr method sp H1 H2 H3.
  apply String.eqb_neq in H1, H2, H3.
  unfold Spectra.frequency_stats. rewrite H1, H2, H3.
  split; reflexivity.
Qed.

(** C8: with [method='direct_quad'] the function raises the configuration
    error [ValueError('direct_quad method is broken!')] at once: nothing is
    printed and no estimator is consulted, whatever the collaborators do. *)
Theorem frequency_stats_direct_quad_disabled :
  forall (imf : array) (sample_rate : R) (smooth_phase : Z),
    frequency_stats imf sample_rate "direct_quad" smooth_phase
    = ([], Raise (ValueError "direct_quad method is broken!"))
    /\ is_configuration_error (ValueError "direct_quad method is broken!") = true.
Proof.
  intros. split; reflexivity.
Qed.

End Dispatch.

Lemma frequency_stats_unrecognised_method_witness :
  Spectra.frequency_stats clip_normalise (fun x _ => x) (fun a => a)
      (map (map of_real)) (map (map fst)) (fun a => a) (fun a _ _ => OK a)
      [[0%R]; [1%R]] 1%R "fourier" 31%Z
  = (["Method not recognised"%string],
     Raise (UnboundLocalError "analytic_signal"))
  /\ is_configuration_error (UnboundLocalError "analytic_signal") = false.
Proof.
  apply frequency_stats_unrecognised_method; discriminate.
Defined.

End FrequencyStatsFacts.

(* ------------------------------------------------------------------------- *)
(** ** The quadrature transform *)

Module QuadratureFacts.
Import Py Spectra ListFacts.
Local Open Scope R_scope.

(** The sign given to a sample from the step [d] to its successor. *)
Lemma mask_entry (d : R) :
  (let m := (bool_to_Z (if Rlt_dec 0 d then true else false) * -2 + 1)%Z in
   if (m =? 0)%Z then (-1)%Z else m)
  = if Rlt_dec 0 d then (-1)%Z else 1%Z.
Proof.
  destruct (Rlt_dec 0 d); reflexivity.
Qed.

Lemma zipw_ext {A B C} (f g : A -> B -> C) (u : list A) (v : list B) :
  (forall a b, f a b = g a b) -> zipw f u v = zipw g u v.
Proof.
  intros H; revert v; induction u as [|a u IH]; intros [|b v]; simpl; auto.
  now rewrite H, IH.
Qed.

Lemma nth_tl {A} (l : list A) (k : nat) (d : A) : nth k (tl l) d = nth (S k) l d.
Proof.
  destruct l; simpl; auto. now destruct k.
Qed.

Lemma length_diff0 (a : array) : length (diff0 a) = (length a - 1)%nat.
Proof.
  unfold diff0. rewrite length_zipw, length_firstn.
  destruct a; simpl; lia.
Qed.

Lemma nth_diff0 (a : array) (t : nat) :
  (S t < length a)%nat ->
  nth t (diff0 a) [] = vsub (nth (S t) a []) (nth t a []).
Proof.
  intros H. unfold diff0.
  rewrite (nth_zipw vsub _ _ t [] [] []).
  - rewrite nth_tl, nth_firstn.
    destruct (Nat.ltb_spec t (length a - 1)); [reflexivity | lia].
  - destruct a; simpl in *; lia.
  - rewrite length_firstn. lia.
Qed.

Lemma nth_vsub (u v : row) (j : nat) :
  length u = length v -> nth j (vsub u v) 0 = nth j u 0 - nth j v 0.
Proof.
  revert v j; induction u as [|a u IH]; intros [|b v] [|j]; simpl; intros H;
    try discriminate; try lra.
  apply IH. now injection H.
Qed.

Lemma length_vsub (u v : row) : length (vsub u v) = Nat.min (length u) (length v).
Proof. apply length_zipw. Qed.

Lemma length_inner_mask (nX : array) : length (inner_mask nX) = (length nX - 1)%nat.
Proof. unfold inner_mask. now rewrite length_map, length_diff0. Qed.

Lemma quadrature_mask_eq (nX : array) :
  (2 <= length nX)%nat ->
  quadrature_mask nX
  = OK (inner_mask nX ++ [nth (length nX - 2) (inner_mask nX) []]).
Proof.
  intros H. unfold quadrature_mask.
  rewrite map_map.
  rewrite (map_ext _ (map (fun d => if Rlt_dec 0 d then (-1)%Z else 1%Z)))
    by (intros r; rewrite map_map; apply map_ext; intros d; apply mask_entry).
  fold (inner_mask nX).
  rewrite (last_item_nth _ []) by (rewrite length_inner_mask; lia).
  rewrite length_inner_mask.
  replace (length nX - 1 - 1)%nat with (length nX - 2)%nat by lia.
  reflexivity.
Qed.

Lemma inner_mask_signs (nX : array) :
  Forall (Forall (fun m => m = (-1)%Z \/ m = 1%Z)) (inner_mask nX).
Proof.
  unfold inner_mask. apply Forall_map, Forall_forall. intros r _.
  apply Forall_map, Forall_forall. intros d _.
  destruct (Rlt_dec 0 d); auto.
Qed.

Lemma nth_inner_mask_row (nX : array) (t : nat) :
  (S t < length nX)%nat ->
  nth t (inner_mask nX) []
  = map (fun d => if Rlt_dec 0 d then (-1)%Z else 1%Z)
        (vsub (nth (S t) nX []) (nth t nX [])).
Proof.
  intros Ht. unfold inner_mask.
  set (sgn := fun d : R => if Rlt_dec 0 d then (-1)%Z else 1%Z).
  rewrite <- (nth_diff0 nX t Ht).
  exact (map_nth (map sgn) (diff0 nX) [] t).
Qed.

Lemma nth_inner_mask (nX : array) (w t j : nat) :
  Forall (fun r => length r = w) nX ->
  (S t < length nX)%nat -> (j < w)%nat ->
  nth j (nth t (inner_mask nX) []) 0%Z
  = if Rlt_dec (nth j (nth t nX []) 0) (nth j (nth (S t) nX []) 0)
    then (-1)%Z else 1%Z.
Proof.
  intros Hw Ht Hj.
  assert (Hrow : forall k, (k < length nX)%nat -> length (nth k nX []) = w).
  { intros k Hk. rewrite Forall_forall in Hw. apply Hw, nth_In, Hk. }
  rewrite (nth_inner_mask_row nX t Ht).
  set (sgn := fun d : R => if Rlt_dec 0 d then (-1)%Z else 1%Z).
  rewrite (nth_indep _ 0%Z (sgn 0)).
  2:{ rewrite length_map, length_vsub, !Hrow by lia. lia. }
  rewrite (map_nth sgn), nth_vsub by (rewrite !Hrow by lia; reflexivity).
  unfold sgn.
  destruct (Rlt_dec 0 _), (Rlt_dec _ _); try reflexivity; lra.
Qed.

Lemma length_nth_inner_mask (nX : array) (w t : nat) :
  Forall (fun r => length r = w) nX ->
  (S t < length nX)%nat ->
  length (nth t (inner_mask nX) []) = w.
Proof.
  intros Hw Ht.
  assert (Hrow : forall k, (k < length nX)%nat -> length (nth k nX []) = w).
  { intros k Hk. rewrite Forall_forall in Hw. apply Hw, nth_In, Hk. }
  rewrite (nth_inner_mask_row nX t Ht), length_map, length_vsub, !Hrow by lia. lia.
Qed.

Lemma quadrature_of_normalised_eq (nX : array) :
  quadrature_of_normalised nX
  = rbind (quadrature_mask nX) (fun mask =>
      OK (zipw (zipw quadrature_sample) nX mask)).
Proof.
  unfold quadrature_of_normalised.
  destruct (quadrature_mask nX) as [mask|e]; simpl; [|reflexivity].
  f_equal.
  rewrite zipw_map_l.
  rewrite (zipw_ext _ (fun r mr =>
             zipw (fun x m => scimath_sqrt_real (1 - x ^ 2) * IZR m) r mr))
    by (intros; apply zipw_map_l).
  rewrite zipw_nested_r.
  apply zipw_ext. intros r mr.
  rewrite zipw_nested_r.
  apply zipw_ext. intros x m.
  unfold quadrature_sample, Cadd, Cmul, of_real, imag_unit; simpl.
  f_equal; ring.
Qed.

Lemma clip_unit_range (x : R) : -1 <= clip_unit x <= 1.
Proof.
  unfold clip_unit. destruct (Rlt_dec x (-1)); [lra|].
  destruct (Rlt_dec 1 x); lra.
Qed.

Lemma clip_unit_inside (x : R) : -1 <= x <= 1 -> clip_unit x = x.
Proof.
  intros H. unfold clip_unit. destruct (Rlt_dec x (-1)); [lra|].
  destruct (Rlt_dec 1 x); [lra | reflexivity].
Qed.

Lemma clip_normalise_clipped (X : array) :
  Forall (Forall (fun x => -1 <= x <= 1)) (clip_normalise X true).
Proof.
  unfold clip_normalise. apply Forall_map, Forall_forall. intros r _.
  apply Forall_map, Forall_forall. intros x _. apply clip_unit_range.
Qed.

Lemma clip_normalise_length (X : array) (c : bool) :
  length (clip_normalise X c) = length X.
Proof.
  unfold clip_normalise. destruct c; [apply length_map | reflexivity].
Qed.

Lemma clip_normalise_ramp : clip_normalise [[0]; [1]] true = [[0]; [1]].
Proof.
  unfold clip_normalise. simpl. rewrite !clip_unit_inside by lra. reflexivity.
Qed.

Lemma inner_mask_ramp : inner_mask [[0]; [1]] = [[(-1)%Z]].
Proof.
  unfold inner_mask, diff0, vsub. simpl.
  destruct (Rlt_dec 0 (1 - 0)); [reflexivity | lra].
Qed.

Lemma quadrature_sample_0_descending_sign : quadrature_sample 0 (-1) = (0, -1).
Proof.
  unfold quadrature_sample. replace (1 - 0 ^ 2) with 1 by ring.
  unfold scimath_sqrt_real. destruct (Rlt_dec 1 0); [lra|].
  rewrite sqrt_1. f_equal. ring.
Qed.

Lemma quadrature_sample_1 (m : Z) : quadrature_sample 1 m = (1, 0).
Proof.
  unfold quadrature_sample. replace (1 - 1 ^ 2) with 0 by ring.
  unfold scimath_sqrt_real. destruct (Rlt_dec 0 0); [lra|].
  rewrite sqrt_0. f_equal. ring.
Qed.

(** An array with fewer than two time samples has no last difference row:
    the transform raises [IndexError]. *)
Remark quadrature_short_input_raises (nX : array) :
  (length nX <= 1)%nat ->
  exists msg, quadrature_of_normalised nX = Raise (IndexError msg).
Proof.
  intros H. unfold quadrature_of_normalised, quadrature_mask.
  assert (E : diff0 nX = []).
  { apply length_zero_iff_nil. rewrite length_diff0. lia. }
  rewrite E. simpl. eexists. reflexivity.
Qed.

Section Normalised.

Variable amplitude_normalise : array -> bool -> array.

(** The contract of [utils.amplitude_normalise]: the shape is kept, and with
    [clip=True] every value lies in [-1, 1]. *)
Hypothesis normalise_length :
  forall X c, length (amplitude_normalise X c) = length X.
Hypothesis normalise_clipped :
  forall X, Forall (Forall (fun x => -1 <= x <= 1)) (amplitude_normalise X true).

Local Abbreviation quadrature_transform := (quadrature_transform amplitude_normalise).

(** C7 (as the code has it): writing [x t j] for the normalised sample of
    column [j] at time [t], the quadrature component at every time but the
    last is [sqrt(1 - x^2)] times [-1] when the signal ascends to its
    successor ([x t j < x (t+1) j]) and times [+1] otherwise; at the final
    time the sign is the one used for the sample before it. *)
Theorem quadrature_sign_rule :
  forall (X : array) (w : nat),
    let nX := amplitude_normalise X true in
    let x := fun t j => nth j (nth t nX []) 0 in
    let T := length nX in
    (2 <= T)%nat ->
    Forall (fun r => length r = w) nX ->
    exists Zs : carray,
      quadrature_transform X = OK Zs
      /\ length Zs = T
      /\ (forall t j, (S t < T)%nat -> (j < w)%nat ->
            nth j (nth t Zs []) (0, 0)
            = (x t j,
               scimath_sqrt_real (1 - x t j ^ 2)
               * (if Rlt_dec (x t j) (x (S t) j) then -1 else 1)))
      /\ (forall j, (j < w)%nat ->
            nth j (nth (T - 1) Zs []) (0, 0)
            = (x (T - 1)%nat j,
               scimath_sqrt_real (1 - x (T - 1)%nat j ^ 2)
               * (if Rlt_dec (x (T - 2)%nat j) (x (T - 1)%nat j) then -1 else 1))).
Proof.
  intros X w nX x T HT Hw.
  assert (Hrow : forall k, (k < T)%nat -> length (nth k nX []) = w).
  { intros k Hk. rewrite Forall_forall in Hw. apply Hw, nth_In, Hk. }
  set (mask := inner_mask nX ++ [nth (T - 2) (inner_mask nX) []]).
  assert (Hlen : length mask = T).
  { unfold mask. rewrite length_app, length_inner_mask. simpl. fold T. lia. }
  assert (Hentry : forall t t' j, (t < T)%nat -> (S t' < T)%nat -> (j < w)%nat ->
            nth t mask [] = nth t' (inner_mask nX) [] ->
            nth j (nth t (zipw (zipw quadrature_sample) nX mask) []) (0, 0)
            = (x t j,
               scimath_sqrt_real (1 - x t j ^ 2)
               * (if Rlt_dec (x t' j) (x (S t') j) then -1 else 1))).
  { intros t t' j Ht Ht' Hj Hm.
    rewrite (nth_zipw _ _ _ t [] [] []) by (fold T; lia).
    rewrite Hm.
    rewrite (nth_zipw _ _ _ j (0, 0) 0 0%Z).
    - rewrite (nth_inner_mask nX w t' j Hw Ht' Hj). fold (x t j).
      unfold quadrature_sample. fold (x t' j) (x (S t') j).
      destruct (Rlt_dec (x t' j) (x (S t') j)); reflexivity.
    - rewrite Hrow; lia.
    - rewrite (length_nth_inner_mask nX w t' Hw Ht'). lia. }
  exists (zipw (zipw quadrature_sample) nX mask).
  split; [|split; [|split]].
  - unfold Spectra.quadrature_transform. fold nX.
    rewrite quadrature_of_normalised_eq, (quadrature_mask_eq nX HT). reflexivity.
  - rewrite length_zipw, Hlen. fold T. lia.
  - intros t j Ht Hj. apply Hentry; try lia.
    unfold mask. apply app_nth1. rewrite length_inner_mask. fold T. lia.
  - intros j Hj.
    assert (Hm : nth (T - 1) mask [] = nth (T - 2) (inner_mask nX) []).
    { unfold mask. rewrite app_nth2 by (rewrite length_inner_mask; fold T; lia).
      rewrite length_inner_mask. fold T.
      replace (T - 1 - (T - 1))%nat with 0%nat by lia. reflexivity. }
    assert (H1 : (T - 1 < T)%nat) by lia.
    assert (H2 : (S (T - 2) < T)%nat) by lia.
    pose proof (Hentry (T - 1)%nat (T - 2)%nat j H1 H2 Hj Hm) as H.
    replace (S (T - 2)) with (T - 1)%nat in H by lia.
    exact H.
Qed.

End Normalised.

Lemma quadrature_sign_rule_witness :
  let nX := clip_normalise [[0]; [1]] true in
  let x := fun t j => nth j (nth t nX []) 0 in
  let T := length nX in
  exists Zs : carray,
    Spectra.quadrature_transform clip_normalise [[0]; [1]] = OK Zs
    /\ length Zs = T
    /\ (forall t j, (S t < T)%nat -> (j < 1)%nat ->
          nth j (nth t Zs []) (0, 0)
          = (x t j,
             scimath_sqrt_real (1 - x t j ^ 2)
             * (if Rlt_dec (x t j) (x (S t) j) then -1 else 1)))
    /\ (forall j, (j < 1)%nat ->
          nth j (nth (T - 1) Zs []) (0, 0)
          = (x (T - 1)%nat j,
             scimath_sqrt_real (1 - x (T - 1)%nat j ^ 2)
             * (if Rlt_dec (x (T - 2)%nat j) (x (T - 1)%nat j) then -1 else 1))).
Proof.
  apply (quadrature_sign_rule clip_normalise [[0]; [1]] 1%nat).
  - simpl. lia.
  - simpl. repeat constructor.
Defined.

(** C7, as stated, fails: the one-column signal 0, 1 ascends from its first
    to its second sample, and its first sample receives the sign -1 (the
    quadrature component is -1, not +1). *)
Lemma quadrature_ascending_sign_counterexample :
  let X := [[0]; [1]] in
  let nX := clip_normalise X true in
  nth 0 (nth 0 nX []) 0 < nth 0 (nth 1 nX []) 0
  /\ quadrature_mask nX = OK [[(-1)%Z]; [(-1)%Z]]
  /\ Spectra.quadrature_transform clip_normalise X = OK [[(0, -1)]; [(1, 0)]].
Proof.
  cbv zeta. unfold Spectra.quadrature_transform.
  rewrite clip_normalise_ramp.
  split; [simpl; lra|].
  assert (Hm : quadrature_mask [[0]; [1]] = OK [[(-1)%Z]; [(-1)%Z]]).
  { rewrite quadrature_mask_eq by (simpl; lia). rewrite inner_mask_ramp. reflexivity. }
  split; [exact Hm|].
  rewrite quadrature_of_normalised_eq, Hm. simpl.
  rewrite quadrature_sample_0_descending_sign, quadrature_sample_1. reflexivity.
Qed.

End QuadratureFacts.

(* ------------------------------------------------------------------------- *)
(** ** The quadrature transform in binary64 arithmetic *)

Module RoundedQuadratureFacts.
Import Py Spectra ListFacts QuadratureFacts.
Local Open Scope R_scope.

(** *** The rounding function *)

Lemma round_half_even_error (y : R) : Rabs (IZR (round_half_even y) - y) <= / 2.
Proof.
  unfold round_half_even. pose proof (Zfloor_bound y) as [H1 H2].
  destruct (Rlt_dec (y - IZR (Zfloor y)) (/ 2)) as [Hlt|Hge].
  - apply Rabs_le. lra.
  - destruct (Rlt_dec (/ 2) (y - IZR (Zfloor y))) as [Hgt|Hle].
    + rewrite plus_IZR. apply Rabs_le. lra.
    + destruct (Z.even (Zfloor y)); [|rewrite plus_IZR]; apply Rabs_le; lra.
Qed.

Lemma round_half_even_bounds (y : R) :
  (Zfloor y <= round_half_even y <= Zfloor y + 1)%Z.
Proof.
  unfold round_half_even.
  destruct (Rlt_dec _ _); [lia|]. destruct (Rlt_dec _ _); [lia|].
  destruct (Z.even _); lia.
Qed.

Lemma round_half_even_nonneg (y : R) : 0 <= y -> (0 <= round_half_even y)%Z.
Proof.
  intros H. pose proof (round_half_even_bounds y).
  assert (0 <= Zfloor y)%Z by (apply Zfloor_lub; exact H). lia.
Qed.

Lemma round_half_even_le (y : R) (N : Z) : y <= IZR N -> (round_half_even y <= N)%Z.
Proof.
  intros H. pose proof (Zfloor_bound y) as [H1 H2].
  assert (Hf : (Zfloor y <= N)%Z) by (apply le_IZR; lra).
  destruct (Z.eq_dec (Zfloor y) N) as [E|NE].
  - unfold round_half_even. rewrite E in *.
    destruct (Rlt_dec (y - IZR N) (/ 2)); [lia | lra].
  - pose proof (round_half_even_bounds y). lia.
Qed.

Lemma two_power_binade (x : R) : 0 < x -> powerRZ 2 (binade x) <= x.
Proof.
  intros Hx. unfold binade. rewrite Rabs_pos_eq by lra.
  rewrite powerRZ_Rpower by lra. unfold Rpower.
  pose proof (Zfloor_bound (ln x / ln 2)) as [H1 _].
  assert (Hl2 : 0 < ln 2) by (pose proof ln_lt_2; lra).
  assert (H : IZR (Zfloor (ln x / ln 2)) * ln 2 <= ln x).
  { apply (Rmult_le_compat_r (ln 2)) in H1; [|lra].
    replace (ln x / ln 2 * ln 2) with (ln x) in H1 by (field; lra). exact H1. }
  rewrite <- (exp_ln x Hx) at 2.
  destruct H as [H|H]; [left; now apply exp_increasing | right; now rewrite H].
Qed.

Lemma binade_nonpos (x : R) : 0 < x <= 1 -> (binade x <= 0)%Z.
Proof.
  intros [H0 H1]. unfold binade. rewrite Rabs_pos_eq by lra.
  pose proof (Zfloor_bound (ln x / ln 2)) as [Hf _].
  assert (Hl2 : 0 < ln 2) by (pose proof ln_lt_2; lra).
  assert (Hln : ln x <= 0).
  { destruct H1 as [H1|H1]; [|rewrite H1, ln_1; lra].
    left. rewrite <- ln_1. now apply ln_increasing. }
  assert (ln x / ln 2 <= 0).
  { assert (0 < / ln 2) by now apply Rinv_0_lt_compat. unfold Rdiv. nra. }
  apply le_IZR. lra.
Qed.

Lemma powerRZ_2_pos (e : Z) : 0 < powerRZ 2 e.
Proof. apply powerRZ_lt. lra. Qed.

Lemma powerRZ_2_cancel (e : Z) : powerRZ 2 (- e) * powerRZ 2 e = 1.
Proof.
  rewrite <- powerRZ_add by lra. replace (- e + e)%Z with 0%Z by lia. reflexivity.
Qed.

Lemma powerRZ_2_nonneg_exponent (e : Z) :
  (0 <= e)%Z -> powerRZ 2 e = IZR (2 ^ e).
Proof.
  intros He. destruct e as [|p|p]; try lia.
  - reflexivity.
  - cbn [powerRZ]. rewrite pow_IZR. now rewrite positive_nat_Z.
Qed.

Lemma round64_scaled (x : R) :
  x <> 0 ->
  round64 x
  = IZR (round_half_even (x * powerRZ 2 (- Z.max (binade x - 52) (-1074))))
    * powerRZ 2 (Z.max (binade x - 52) (-1074)).
Proof.
  intros Hx. unfold round64. destruct (Req_dec_T x 0); [contradiction | reflexivity].
Qed.

Lemma round64_0 : round64 0 = 0.
Proof. unfold round64. destruct (Req_dec_T 0 0); [reflexivity | contradiction]. Qed.

(** Every value of the rounding is an integer times a power of two. *)
Lemma round64_dyadic (x : R) : exists (m e : Z), round64 x = IZR m * powerRZ 2 e.
Proof.
  destruct (Req_dec_T x 0) as [->|Hx].
  - exists 0%Z, 0%Z. rewrite round64_0. simpl. lra.
  - rewrite (round64_scaled x Hx). eexists _, _. reflexivity.
Qed.

(** On [0, 1] the rounding error is at most the relative error [2^-53] of a
    53-bit significand plus half the spacing [2^-1074] of the subnormal
    numbers. *)
Lemma round64_error (x : R) :
  0 <= x <= 1 -> Rabs (round64 x - x) <= unit_roundoff * x + underflow_unit.
Proof.
  intros [H0 H1]. unfold unit_roundoff, underflow_unit.
  assert (Hu : 0 < / 2 ^ 53) by (apply Rinv_0_lt_compat, pow_lt; lra).
  pose proof (powerRZ_2_pos (-1075)) as Heta.
  destruct (Req_dec_T x 0) as [->|Hx].
  - rewrite round64_0, Rminus_0_r, Rabs_R0. lra.
  - assert (Hpos : 0 < x) by lra.
    rewrite (round64_scaled x Hx).
    set (e := Z.max (binade x - 52) (-1074)).
    pose proof (powerRZ_2_pos e) as He.
    pose proof (round_half_even_error (x * powerRZ 2 (- e))) as Herr.
    replace (IZR (round_half_even (x * powerRZ 2 (- e))) * powerRZ 2 e - x)
      with ((IZR (round_half_even (x * powerRZ 2 (- e))) - x * powerRZ 2 (- e))
            * powerRZ 2 e)
      by (rewrite Rmult_minus_distr_r, Rmult_assoc, powerRZ_2_cancel; ring).
    rewrite Rabs_mult, (Rabs_pos_eq (powerRZ 2 e)) by lra.
    assert (Hhalf : Rabs (IZR (round_half_even (x * powerRZ 2 (- e)))
                          - x * powerRZ 2 (- e)) * powerRZ 2 e
                    <= / 2 * powerRZ 2 e)
      by (apply Rmult_le_compat_r; lra).
    eapply Rle_trans; [exact Hhalf|].
    destruct (Z.max_spec (binade x - 52) (-1074)) as [[_ E]|[_ E]]; fold e in E; rewrite E.
    + replace (-1074)%Z with (1 + -1075)%Z by lia.
      rewrite powerRZ_add by lra. change (powerRZ 2 1) with (2 * 1).
      assert (0 <= / 2 ^ 53 * x) by nra. lra.
    + replace (binade x - 52)%Z with (binade x + -52)%Z by lia.
      rewrite powerRZ_add by lra.
      pose proof (two_power_binade x Hpos) as Hb.
      assert (H52 : powerRZ 2 (-52) = 2 * / 2 ^ 53).
      { cbn [powerRZ]. change (Pos.to_nat 52) with 52%nat.
        change (2 ^ 53) with (2 * 2 ^ 52). field. }
      rewrite H52.
      pose proof (powerRZ_2_pos (binade x)).
      assert (powerRZ 2 (binade x) * / 2 ^ 53 <= x * / 2 ^ 53)
        by (apply Rmult_le_compat_r; lra).
      lra.
Qed.

Lemma round64_range (x : R) : 0 <= x <= 1 -> 0 <= round64 x <= 1.
Proof.
  intros [H0 H1].
  destruct (Req_dec_T x 0) as [->|Hx]; [rewrite round64_0; lra|].
  assert (Hpos : 0 < x) by lra.
  rewrite (round64_scaled x Hx).
  set (e := Z.max (binade x - 52) (-1074)).
  pose proof (powerRZ_2_pos e) as He.
  pose proof (powerRZ_2_pos (- e)) as Hme.
  assert (Hle : (e <= 0)%Z).
  { pose proof (binade_nonpos x (conj Hpos H1)). unfold e. lia. }
  split.
  - apply Rmult_le_pos; [|lra]. apply IZR_le.
    apply round_half_even_nonneg. apply Rmult_le_pos; lra.
  - assert (Hint : powerRZ 2 (- e) = IZR (2 ^ (- e)))
      by (apply powerRZ_2_nonneg_exponent; lia).
    assert (Hm : (round_half_even (x * powerRZ 2 (- e)) <= 2 ^ (- e))%Z).
    { apply round_half_even_le. rewrite <- Hint.
      rewrite <- (Rmult_1_l (powerRZ 2 (- e))) at 2.
      apply Rmult_le_compat_r; lra. }
    apply IZR_le in Hm. rewrite <- Hint in Hm.
    apply (Rmult_le_compat_r (powerRZ 2 e)) in Hm; [|lra].
    rewrite powerRZ_2_cancel in Hm. exact Hm.
Qed.

Lemma underflow_below_roundoff : 0 < underflow_unit <= unit_roundoff.
Proof.
  unfold underflow_unit, unit_roundoff. split; [apply powerRZ_2_pos|].
  change (powerRZ 2 (-1075)) with (/ 2 ^ Pos.to_nat 1075).
  apply Rinv_le_contravar; [apply pow_lt; lra|].
  apply Rle_pow; [lra|]. apply Nat.lt_le_incl, Nat.ltb_lt. vm_compute. reflexivity.
Qed.

(** With the identity for rounding, the explicit form is the exact one. *)
Lemma quadrature_of_normalised_with_exact (nX : array) :
  quadrature_of_normalised_with (fun x => x) nX = quadrature_of_normalised nX.
Proof. reflexivity. Qed.

(** *** The mask and the samples, for any rounding *)

Section AnyRounding.

Variable rnd : R -> R.

Lemma length_diff0_with (a : array) :
  length (diff0_with rnd a) = (length a - 1)%nat.
Proof.
  unfold diff0_with. rewrite length_zipw, length_firstn.
  destruct a; simpl; lia.
Qed.

Lemma quadrature_mask_with_spec (nX : array) :
  match quadrature_mask_with rnd nX with
  | OK mask =>
      (2 <= length nX)%nat /\ length mask = length nX
      /\ Forall (Forall (fun m => m = (-1)%Z \/ m = 1%Z)) mask
  | Raise e => (length nX <= 1)%nat /\ exists msg, e = IndexError msg
  end.
Proof.
  unfold quadrature_mask_with. rewrite map_map.
  set (inner := map _ (diff0_with rnd nX)).
  assert (Hlen : length inner = (length nX - 1)%nat)
    by (unfold inner; now rewrite length_map, length_diff0_with).
  assert (Hsigns : Forall (Forall (fun m => m = (-1)%Z \/ m = 1%Z)) inner).
  { unfold inner. apply Forall_map, Forall_forall. intros r _.
    rewrite map_map. apply Forall_map, Forall_forall. intros d _.
    destruct (Rlt_dec 0 d); cbn; auto. }
  destruct (le_lt_dec 2 (length nX)) as [H|H].
  - rewrite (last_item_nth inner []) by lia. cbn [rbind].
    split; [exact H|]. split; [rewrite length_app, Hlen; simpl; lia|].
    apply Forall_app. split; [exact Hsigns|]. constructor; [|constructor].
    rewrite Forall_forall in Hsigns. apply Hsigns, nth_In. lia.
  - assert (E : inner = []) by (apply length_zero_iff_nil; lia).
    rewrite E. cbn. split; [lia|]. eexists. reflexivity.
Qed.

Lemma quadrature_of_normalised_with_eq (nX : array) :
  quadrature_of_normalised_with rnd nX
  = rbind (quadrature_mask_with rnd nX) (fun mask =>
      OK (zipw (zipw (quadrature_sample_with rnd)) nX mask)).
Proof.
  unfold quadrature_of_normalised_with.
  destruct (quadrature_mask_with rnd nX) as [mask|e]; simpl; [|reflexivity].
  f_equal.
  rewrite zipw_map_l.
  rewrite (zipw_ext _ (fun r mr =>
             zipw (fun x m => scimath_sqrt_real_with rnd (rnd (1 - rnd (x ^ 2))) * IZR m)
                  r mr))
    by (intros; apply zipw_map_l).
  rewrite zipw_nested_r.
  apply zipw_ext. intros r mr.
  rewrite zipw_nested_r.
  apply zipw_ext. intros x m.
  unfold quadrature_sample_with, Cadd, Cmul, of_real, imag_unit; simpl.
  f_equal; ring.
Qed.

(** *** The modulus under the standard model of rounding *)

Variables u eta : R.
Hypothesis u_nonneg : 0 <= u.
Hypothesis eta_nonneg : 0 <= eta.
Hypothesis rnd_range : forall x, 0 <= x <= 1 -> 0 <= rnd x <= 1.
Hypothesis rnd_error : forall x, 0 <= x <= 1 -> Rabs (rnd x - x) <= u * x + eta.

Lemma Rabs_le_both (a b : R) : Rabs a <= b -> - b <= a <= b.
Proof.
  intros H. unfold Rabs in H. destruct (Rcase_abs a); lra.
Qed.

Lemma rnd_close (x : R) : 0 <= x <= 1 -> - (u + eta) <= rnd x - x <= u + eta.
Proof.
  intros Hx. pose proof (Rabs_le_both _ _ (rnd_error x Hx)). nra.
Qed.

Lemma rounded_modulus (x : R) (m : Z) :
  -1 <= x <= 1 -> (m = (-1)%Z \/ m = 1%Z) ->
  let z := quadrature_sample_with rnd x m in
  Rabs (fst z * fst z + snd z * snd z - 1) <= 4 * (u + eta)
  /\ Rabs (Cabs z - 1) <= 4 * (u + eta).
Proof.
  intros Hx Hm z.
  assert (Ha : 0 <= x ^ 2 <= 1) by nra.
  pose proof (rnd_range _ Ha) as Hs. pose proof (rnd_close _ Ha) as Hse.
  set (s := rnd (x ^ 2)) in *.
  assert (Hb : 0 <= 1 - s <= 1) by lra.
  pose proof (rnd_range _ Hb) as Hd. pose proof (rnd_close _ Hb) as Hde.
  set (d := rnd (1 - s)) in *.
  assert (Hc : 0 <= sqrt d <= 1).
  { split; [apply sqrt_pos|]. rewrite <- sqrt_1. apply sqrt_le_1_alt. lra. }
  pose proof (rnd_range _ Hc) as Hq. pose proof (rnd_close _ Hc) as Hqe.
  assert (Hcc : sqrt d * sqrt d = d) by (apply sqrt_sqrt; lra).
  set (c := sqrt d) in *. set (q := rnd c) in *.
  assert (Him : snd z = q * IZR m).
  { unfold z, quadrature_sample_with. cbn [snd]. fold s d.
    unfold scimath_sqrt_real_with. destruct (Rlt_dec d 0); [lra | reflexivity]. }
  assert (Hre : fst z = x) by reflexivity.
  assert (Hsq : snd z * snd z = q * q)
    by (rewrite Him; destruct Hm as [-> | ->]; ring).
  assert (Hmain : - (4 * (u + eta)) <= fst z * fst z + snd z * snd z - 1 <= 4 * (u + eta)).
  { rewrite Hre, Hsq.
    assert (Hsplit : x * x + q * q - 1
                     = (x ^ 2 - s) + (q - c) * (q + c) + (d - (1 - s)))
      by (rewrite <- Hcc; ring).
    rewrite Hsplit.
    assert (Hprod : - (2 * (u + eta)) <= (q - c) * (q + c) <= 2 * (u + eta)) by nra.
    lra. }
  split; [apply Rabs_le; exact Hmain|].
  unfold Cabs.
  set (T := fst z * fst z + snd z * snd z) in *.
  assert (HT : 0 <= T) by (unfold T; nra).
  pose proof (sqrt_pos T) as Hr. pose proof (sqrt_sqrt T HT) as Hrr.
  apply Rabs_le.
  assert ((sqrt T - 1) * (sqrt T + 1) = T - 1)
    by (transitivity (sqrt T * sqrt T - 1); [ring | now rewrite Hrr]).
  assert (0 <= 4 * (u + eta)) by lra.
  split; nra.
Qed.

End AnyRounding.

(** A dyadic rational does not square to 3/4. *)
Lemma square_not_three_powers_of_four (n : nat) (m : Z) :
  (m * m <> 3 * 4 ^ Z.of_nat n)%Z.
Proof.
  revert m. induction n as [|n IH]; intros m H.
  - change (3 * 4 ^ Z.of_nat 0)%Z with 3%Z in H.
    assert (Hm : (m <= -2 \/ m = -1 \/ m = 0 \/ m = 1 \/ 2 <= m)%Z) by lia.
    destruct Hm as [Hm|[->|[->|[->|Hm]]]]; try discriminate; nia.
  - rewrite Nat2Z.inj_succ, Z.pow_succ_r in H by lia.
    destruct (Z.Even_or_Odd m) as [[k ->]|[k ->]].
    + apply (IH k). lia.
    + lia.
Qed.

Lemma dyadic_square_not_three_quarters (m e : Z) :
  (IZR m * powerRZ 2 e) * (IZR m * powerRZ 2 e) <> 3 / 4.
Proof.
  intros H.
  destruct (Z_le_gt_dec 0 e) as [He|He].
  - rewrite (powerRZ_2_nonneg_exponent e He), <- !mult_IZR in H.
    assert (H3 : IZR (4 * (m * 2 ^ e * (m * 2 ^ e))) = IZR 3)
      by (rewrite mult_IZR, H; simpl; lra).
    apply eq_IZR in H3. lia.
  - destruct e as [|p|p]; try lia.
    cbn [powerRZ] in H.
    set (n := Pos.to_nat p) in *.
    assert (Hn : (0 < n)%nat) by apply Pos2Nat.is_pos.
    assert (Hp : 0 < 2 ^ n) by (apply pow_lt; lra).
    assert (H1 : IZR m * IZR m * 4 = 3 * (2 ^ n * 2 ^ n)).
    { replace (IZR m * IZR m * 4)
        with ((IZR m * / 2 ^ n) * (IZR m * / 2 ^ n) * (4 * (2 ^ n * 2 ^ n)))
        by (field; lra).
      rewrite H. field. }
    rewrite pow_IZR, <- !mult_IZR in H1. apply eq_IZR in H1.
    destruct n as [|n']; [lia|].
    apply (square_not_three_powers_of_four n' m).
    rewrite Nat2Z.inj_succ, Z.pow_succ_r in H1 by lia.
    replace (4 ^ Z.of_nat n')%Z with (2 ^ Z.of_nat n' * 2 ^ Z.of_nat n')%Z
      by (rewrite <- Z.pow_mul_l; reflexivity).
    lia.
Qed.


Lemma tolerance_covers_roundings : 4 * (unit_roundoff + underflow_unit) <= / 2 ^ 50.
Proof.
  pose proof underflow_below_roundoff as [_ H]. unfold unit_roundoff in *.
  assert (E : / 2 ^ 50 = 8 * / 2 ^ 53).
  { change (2 ^ 53) with (2 * (2 * (2 * 2 ^ 50))). field. }
  rewrite E. lra.
Qed.

Section NormalisedRounded.

Variable amplitude_normalise : array -> bool -> array.
Hypothesis normalise_length :
  forall X c, length (amplitude_normalise X c) = length X.
Hypothesis normalise_clipped :
  forall X, Forall (Forall (fun x => -1 <= x <= 1)) (amplitude_normalise X true).

(** C10 (as the code has it): in binary64 arithmetic the transform returns
    exactly for the inputs with at least two time samples (with fewer it
    raises [IndexError]), the result has one row per time sample, and every
    element has squared real part plus squared imaginary part within
    [2^-50] of 1, and absolute value within [2^-50] of 1: the three rounded
    operations (square, difference, square root) each contribute at most one
    rounding error. *)
Theorem quadrature_modulus_within_rounding :
  forall X : array,
    match quadrature_transform_with round64 amplitude_normalise X with
    | OK Zs =>
        (2 <= length X)%nat
        /\ length Zs = length X
        /\ Forall (Forall (fun z =>
                     Rabs (fst z * fst z + snd z * snd z - 1) <= / 2 ^ 50
                     /\ Rabs (Cabs z - 1) <= / 2 ^ 50)) Zs
    | Raise e => (length X <= 1)%nat /\ exists msg, e = IndexError msg
    end.
Proof.
  intros X. unfold quadrature_transform_with.
  set (nX := amplitude_normalise X true).
  assert (HL : length nX = length X) by apply normalise_length.
  rewrite quadrature_of_normalised_with_eq.
  pose proof (quadrature_mask_with_spec round64 nX) as Hmask.
  destruct (quadrature_mask_with round64 nX) as [mask|e]; cbn [rbind].
  - destruct Hmask as (H2 & Hlen & Hsigns).
    split; [lia|]. split; [rewrite length_zipw; lia|].
    apply (Forall_zipw (Forall (fun x => -1 <= x <= 1))
                       (Forall (fun m => m = (-1)%Z \/ m = 1%Z)));
      [|apply normalise_clipped|exact Hsigns].
    intros r mr Hr Hmr.
    apply (Forall_zipw (fun x => -1 <= x <= 1) (fun m => m = (-1)%Z \/ m = 1%Z));
      [|exact Hr|exact Hmr].
    intros x m Hx Hm.
    pose proof underflow_below_roundoff as [Heta _].
    assert (Hu : 0 <= unit_roundoff)
      by (unfold unit_roundoff; left; apply Rinv_0_lt_compat, pow_lt; lra).
    destruct (rounded_modulus round64 unit_roundoff underflow_unit Hu
                (Rlt_le _ _ Heta) round64_range round64_error x m Hx Hm) as [Ha Hb].
    pose proof tolerance_covers_roundings. split; lra.
  - destruct Hmask as [H1 Hmsg]. split; [lia | exact Hmsg].
Qed.

End NormalisedRounded.

Lemma quadrature_modulus_within_rounding_witness :
  match quadrature_transform_with round64 clip_normalise [[1 / 2]; [1 / 4]] with
  | OK Zs =>
      (2 <= length [[1 / 2]; [1 / 4]])%nat
      /\ length Zs = length [[1 / 2]; [1 / 4]]
      /\ Forall (Forall (fun z =>
                   Rabs (fst z * fst z + snd z * snd z - 1) <= / 2 ^ 50
                   /\ Rabs (Cabs z - 1) <= / 2 ^ 50)) Zs
  | Raise e => (length [[1 / 2]; [1 / 4]] <= 1)%nat /\ exists msg, e = IndexError msg
  end.
Proof.
  exact (quadrature_modulus_within_rounding clip_normalise clip_normalise_length
           clip_normalise_clipped [[1 / 2]; [1 / 4]]).
Defined.

Lemma scimath_sqrt_real_with_dyadic (x : R) :
  exists (m e : Z), scimath_sqrt_real_with round64 x = IZR m * powerRZ 2 e.
Proof.
  unfold scimath_sqrt_real_with. destruct (Rlt_dec x 0).
  - exists 0%Z, 0%Z. simpl. lra.
  - apply round64_dyadic.
Qed.

(** C10, as stated, fails in binary64: for the one-column signal 1/2, 1/4
    the first element of the result has real part 1/2 and an imaginary part
    that is a binary64 number, so its square is not 3/4; the squares do not
    add up to 1 and the absolute value is not 1. *)
Lemma quadrature_unit_modulus_counterexample :
  exists Zs : carray,
    quadrature_transform_with round64 clip_normalise [[1 / 2]; [1 / 4]] = OK Zs
    /\ fst (nth 0 (nth 0 Zs []) (0, 0)) = 1 / 2
    /\ fst (nth 0 (nth 0 Zs []) (0, 0)) * fst (nth 0 (nth 0 Zs []) (0, 0))
       + snd (nth 0 (nth 0 Zs []) (0, 0)) * snd (nth 0 (nth 0 Zs []) (0, 0)) <> 1
    /\ Cabs (nth 0 (nth 0 Zs []) (0, 0)) <> 1.
Proof.
  unfold quadrature_transform_with.
  assert (Hn : clip_normalise [[1 / 2]; [1 / 4]] true = [[1 / 2]; [1 / 4]]).
  { unfold clip_normalise. cbn [map]. rewrite !clip_unit_inside by lra. reflexivity. }
  rewrite Hn, quadrature_of_normalised_with_eq.
  unfold quadrature_mask_with, diff0_with.
  cbn [tl length firstn Nat.sub zipw map last_item nth_error rbind app nth].
  set (m := if (_ =? 0)%Z then _ else _).
  assert (Hm : m = (-1)%Z \/ m = 1%Z).
  { unfold m. destruct (Rlt_dec 0 _); cbn; auto. }
  clearbody m.
  eexists. split; [reflexivity|]. cbn [nth]. unfold quadrature_sample_with, Cabs.
  cbn [fst snd].
  split; [reflexivity|].
  destruct (scimath_sqrt_real_with_dyadic (round64 (1 - round64 ((1 / 2) ^ 2))))
    as (k & e & Hq).
  rewrite Hq.
  set (T := 1 / 2 * (1 / 2) + _).
  assert (Hsum : T <> 1).
  { unfold T. intros H. apply (dyadic_square_not_three_quarters k e).
    destruct Hm as [-> | ->]; lra. }
  split; [exact Hsum|].
  intros H. apply Hsum.
  assert (HT : 0 <= T) by (unfold T; nra).
  rewrite <- (sqrt_sqrt T HT), H. ring.
Qed.

End RoundedQuadratureFacts.

(* ------------------------------------------------------------------------- *)
(** ** Differentiating the phase and integrating it back *)

Module PhaseFacts.
Import Py Spectra ListFacts QuadratureFacts.
Local Open Scope R_scope.

Lemma rect_nth (w : nat) (a : array) (k : nat) :
  rect w a -> (k < length a)%nat -> length (nth k a []) = w.
Proof.
  intros H Hk. unfold rect in H. rewrite Forall_forall in H. apply H, nth_In, Hk.
Qed.

Lemma nth_vadd (u v : row) (j : nat) :
  length u = length v -> nth j (vadd u v) 0 = nth j u 0 + nth j v 0.
Proof.
  revert v j; induction u as [|a u IH]; intros [|b v] [|j]; simpl; intros H;
    try discriminate; try lra.
  apply IH. now injection H.
Qed.

Lemma length_vadd (u v : row) : length (vadd u v) = Nat.min (length u) (length v).
Proof. apply length_zipw. Qed.

Lemma nth_map_in {A B} (f : A -> B) (l : list A) (k : nat) (da : A) (db : B) :
  (k < length l)%nat -> nth k (map f l) db = f (nth k l da).
Proof.
  intros H. rewrite (nth_indep _ db (f da)) by now rewrite length_map.
  apply map_nth.
Qed.

(** Converting a phase step to a frequency and back is the identity. *)
Lemma scale_roundtrip (fs : R) (g : array) :
  fs <> 0 ->
  map (map (fun f => f / fs * (2 * PI))) (map (map (fun d => d / (2 * PI) * fs)) g) = g.
Proof.
  intros Hfs. rewrite map_map. rewrite <- (map_id g) at 2.
  apply map_ext. intros r. rewrite map_map. rewrite <- (map_id r) at 2.
  apply map_ext. intros x. field. split; [apply PI_neq0 | exact Hfs].
Qed.

(** *** The rows of the gradient *)

Lemma gradient0_ok (a : array) :
  (2 <= length a)%nat ->
  exists g, gradient0 a = OK g /\ length g = length a
    /\ nth 0 g [] = vsub (nth 1 a []) (nth 0 a [])
    /\ (forall i, (1 <= i)%nat -> (S i < length a)%nat ->
          nth i g [] = map (fun d => d / 2) (vsub (nth (S i) a []) (nth (i - 1) a [])))
    /\ nth (length a - 1) g [] = vsub (nth (length a - 1) a []) (nth (length a - 2) a []).
Proof.
  intros H. unfold gradient0.
  destruct (Nat.ltb_spec (length a) 2) as [Hlt|_]; [lia|].
  set (mid := zipw (fun hi lo => map (fun d => d / 2) (vsub hi lo))
                   (skipn 2 a) (firstn (length a - 2) a)).
  assert (Hmid : length mid = (length a - 2)%nat).
  { unfold mid. rewrite length_zipw, length_skipn, length_firstn. lia. }
  eexists. split; [reflexivity|]. split; [|split; [|split]].
  - simpl. rewrite length_app, Hmid. simpl. lia.
  - reflexivity.
  - intros i Hi1 Hi2. destruct i as [|i]; [lia|].
    simpl. rewrite app_nth1 by (rewrite Hmid; lia).
    unfold mid. rewrite (nth_zipw _ _ _ i [] [] []).
    + rewrite nth_skipn, nth_firstn.
      destruct (Nat.ltb_spec i (length a - 2)); [|lia].
      rewrite Nat.sub_0_r. reflexivity.
    + rewrite length_skipn. lia.
    + rewrite length_firstn. lia.
  - change ([?x] ++ ?l) with (x :: l).
    destruct (length a) as [|[|n]] eqn:E; try lia.
    simpl Nat.sub. rewrite Nat.sub_0_r. simpl nth at 1.
    rewrite app_nth2 by (rewrite Hmid; simpl; lia).
    rewrite Hmid. simpl Nat.sub. rewrite Nat.sub_0_r, Nat.sub_diag. reflexivity.
Qed.

(** *** Cumulative sums, column by column *)

Lemma cumsum_from_rect (w : nat) (a : array) (acc : row) :
  length acc = w -> rect w a -> rect w (cumsum_from acc a).
Proof.
  revert acc; induction a as [|r a IH]; intros acc Hacc Ha; simpl.
  - constructor.
  - apply Forall_cons_iff in Ha; destruct Ha as [Hr Ha'].
    assert (Hl : length (vadd acc r) = w).
    { rewrite length_vadd, Hacc, Hr. apply Nat.min_id. }
    constructor; [exact Hl|]. apply IH; [exact Hl | exact Ha'].
Qed.

Lemma length_cumsum_from (a : array) (acc : row) :
  length (cumsum_from acc a) = length a.
Proof.
  revert acc; induction a as [|r a IH]; intros acc; simpl; auto.
Qed.

Lemma nth_cumsum_from (w : nat) (a : array) (acc : row) (k j : nat) :
  length acc = w -> rect w a -> (k < length a)%nat ->
  nth j (nth k (cumsum_from acc a) []) 0
  = nth j acc 0 + sum_f_R0 (fun i => nth j (nth i a []) 0) k.
Proof.
  revert acc k; induction a as [|r a IH]; intros acc k Hacc Ha Hk; simpl in Hk; [lia|].
  apply Forall_cons_iff in Ha; destruct Ha as [Hr Ha'].
  assert (Hl : length acc = length r) by now rewrite Hr.
  destruct k as [|k].
  - simpl. now rewrite nth_vadd.
  - rewrite (decomp_sum (fun i => nth j (nth i (r :: a) []) 0) (S k)) by lia.
    change (nth j (nth (S k) (cumsum_from acc (r :: a)) []) 0)
      with (nth j (nth k (cumsum_from (vadd acc r) a) []) 0).
    rewrite IH; try assumption; try lia.
    2:{ rewrite length_vadd, Hacc, Hr. apply Nat.min_id. }
    rewrite nth_vadd by assumption.
    simpl. ring.
Qed.

Lemma cumsum0_rect (w : nat) (a : array) : rect w a -> rect w (cumsum0 a).
Proof.
  destruct a as [|r a]; simpl; intros H; [constructor|].
  apply Forall_cons_iff in H; destruct H as [Hr Ha'].
  constructor; [exact Hr|]. now apply cumsum_from_rect.
Qed.

Lemma length_cumsum0 (a : array) : length (cumsum0 a) = length a.
Proof.
  destruct a; simpl; auto. now rewrite length_cumsum_from.
Qed.

Lemma nth_cumsum0 (w : nat) (a : array) (k j : nat) :
  rect w a -> (k < length a)%nat ->
  nth j (nth k (cumsum0 a) []) 0 = sum_f_R0 (fun i => nth j (nth i a []) 0) k.
Proof.
  destruct a as [|r a]; intros Ha Hk; [simpl in Hk; lia|].
  apply Forall_cons_iff in Ha; destruct Ha as [Hr Ha'].
  simpl in Hk.
  destruct k as [|k]; [reflexivity|].
  rewrite (decomp_sum (fun i => nth j (nth i (r :: a) []) 0) (S k)) by lia.
  change (nth j (nth (S k) (cumsum0 (r :: a)) []) 0)
    with (nth j (nth k (cumsum_from r a) []) 0).
  rewrite (nth_cumsum_from w a r k j Hr Ha') by lia.
  reflexivity.
Qed.

Lemma broadcast_add_row_rect (v : row) (a : array) :
  rect (length v) a -> broadcast_add (Row v) a = OK (map (vadd v) a).
Proof.
  intros H. unfold broadcast_add. apply rmapM_all_ok. intros r Hr.
  unfold rect in H. rewrite Forall_forall in H.
  unfold broadcast_add_row. rewrite (H r Hr), Nat.eqb_refl. reflexivity.
Qed.

(** C4 (as the code has it): on a phase array with at least two time samples
    and a non-zero sample rate, differentiating and integrating back from
    [phase[0]] succeeds and returns an array of the same length; its sample
    [k], for every [k] but the last, is the midpoint of [phase[k]] and
    [phase[k+1]] shifted by half the first step, and its last sample is
    [(3*phase[n-1] - phase[n-2])/2] shifted likewise. *)
Theorem phase_roundtrip_closed_form :
  forall (phase : array) (fs : R) (w : nat),
    fs <> 0 ->
    (2 <= length phase)%nat ->
    rect w phase ->
    let P := fun k j => nth j (nth k phase []) 0 in
    let n := length phase in
    exists ifreq out : array,
      freq_from_phase phase fs = OK ifreq
      /\ phase_from_freq ifreq fs (Row (nth 0 phase [])) = OK out
      /\ length out = n
      /\ (forall k j, (S k < n)%nat -> (j < w)%nat ->
            nth j (nth k out []) 0
            = (P k j + P (S k) j) / 2 + (P 1%nat j - P 0%nat j) / 2)
      /\ (forall j, (j < w)%nat ->
            nth j (nth (n - 1) out []) 0
            = (3 * P (n - 1)%nat j - P (n - 2)%nat j) / 2
              + (P 1%nat j - P 0%nat j) / 2).
Proof.
  intros phase fs w Hfs Hn Hrect P n.
  destruct (gradient0_ok phase Hn) as (g & Hg & Hlen & Hg0 & Hmid & Hlast).
  fold n in Hlen, Hmid, Hlast, Hn.
  assert (Hrow : forall k, (k < n)%nat -> length (nth k phase []) = w)
    by (intros k Hk; now apply rect_nth).
  assert (Hgrect : rect w g).
  { apply Forall_nth. intros i d Hi. rewrite (nth_indep _ d []) by exact Hi.
    destruct (Nat.eq_dec i 0) as [->|Hi0].
    - rewrite Hg0, length_vsub, !Hrow by lia. apply Nat.min_id.
    - destruct (Nat.eq_dec i (n - 1)) as [->|Hi1].
      + rewrite Hlast, length_vsub, !Hrow by lia. apply Nat.min_id.
      + rewrite Hmid, length_map, length_vsub, !Hrow by lia. apply Nat.min_id. }
  assert (HG0 : forall j, nth j (nth 0 g []) 0 = P 1%nat j - P 0%nat j).
  { intros j. rewrite Hg0, nth_vsub by (rewrite !Hrow by lia; reflexivity).
    reflexivity. }
  assert (HGmid : forall i j, (1 <= i)%nat -> (S i < n)%nat -> (j < w)%nat ->
            nth j (nth i g []) 0 = (P (S i) j - P (i - 1)%nat j) / 2).
  { intros i j Hi1 Hi2 Hj. rewrite Hmid by lia.
    rewrite (nth_map_in _ _ _ 0) by (rewrite length_vsub, !Hrow by lia; lia).
    rewrite nth_vsub by (rewrite !Hrow by lia; reflexivity). reflexivity. }
  assert (HGlast : forall j, nth j (nth (n - 1) g []) 0
                             = P (n - 1)%nat j - P (n - 2)%nat j).
  { intros j. rewrite Hlast, nth_vsub by (rewrite !Hrow by lia; reflexivity).
    reflexivity. }
  assert (Hsum : forall k j, (S k < n)%nat -> (j < w)%nat ->
            sum_f_R0 (fun i => nth j (nth i g []) 0) k
            = (P k j + P (S k) j) / 2 + (P 1%nat j - P 0%nat j) / 2 - P 0%nat j).
  { induction k as [|k IH]; intros j Hk Hj.
    - simpl sum_f_R0. rewrite HG0. field.
    - simpl sum_f_R0. rewrite IH, HGmid by lia.
      replace (S k - 1)%nat with k by lia. field. }
  assert (Hout : forall k j, (k < n)%nat ->
            nth j (nth k (map (vadd (nth 0 phase [])) (cumsum0 g)) []) 0
            = P 0%nat j + sum_f_R0 (fun i => nth j (nth i g []) 0) k).
  { intros k j Hk.
    rewrite (nth_map_in _ _ _ []) by (rewrite length_cumsum0; lia).
    rewrite nth_vadd.
    - rewrite (nth_cumsum0 w) by (assumption || lia). reflexivity.
    - rewrite Hrow by lia. symmetry. apply rect_nth.
      + now apply cumsum0_rect.
      + rewrite length_cumsum0. lia. }
  exists (map (map (fun d => d / (2 * PI) * fs)) g),
         (map (vadd (nth 0 phase [])) (cumsum0 g)).
  split; [|split; [|split; [|split]]].
  - unfold freq_from_phase. rewrite Hg. reflexivity.
  - unfold phase_from_freq. rewrite (scale_roundtrip fs g Hfs).
    apply broadcast_add_row_rect. rewrite Hrow by lia. now apply cumsum0_rect.
  - rewrite length_map, length_cumsum0. exact Hlen.
  - intros k j Hk Hj. rewrite Hout, Hsum by lia. field.
  - intros j Hj. rewrite Hout by lia.
    replace (n - 1)%nat with (S (n - 2)) at 1 by lia.
    simpl sum_f_R0. rewrite Hsum by lia.
    replace (S (n - 2)) with (n - 1)%nat by lia.
    rewrite HGlast. field.
Qed.

Lemma phase_roundtrip_closed_form_witness :
  let phase := [[0]; [1]; [2]] in
  let P := fun k j => nth j (nth k phase []) 0 in
  let n := length phase in
  exists ifreq out : array,
    freq_from_phase phase 1 = OK ifreq
    /\ phase_from_freq ifreq 1 (Row (nth 0 phase [])) = OK out
    /\ length out = n
    /\ (forall k j, (S k < n)%nat -> (j < 1)%nat ->
          nth j (nth k out []) 0
          = (P k j + P (S k) j) / 2 + (P 1%nat j - P 0%nat j) / 2)
    /\ (forall j, (j < 1)%nat ->
          nth j (nth (n - 1) out []) 0
          = (3 * P (n - 1)%nat j - P (n - 2)%nat j) / 2
            + (P 1%nat j - P 0%nat j) / 2).
Proof.
  apply (phase_roundtrip_closed_form [[0]; [1]; [2]] 1 1%nat).
  - lra.
  - simpl. lia.
  - repeat constructor.
Defined.

(** C4, as stated, fails: for the linear phase 0, 1, 2 sampled at rate 1
    the round trip returns 1, 2, 3.  Its second sample is 2 where the phase
    is 1, and its third is 3 where the phase is 2. *)
Lemma phase_roundtrip_counterexample :
  let phase := [[0]; [1]; [2]] in
  exists ifreq out : array,
    freq_from_phase phase 1 = OK ifreq
    /\ phase_from_freq ifreq 1 (Row (nth 0 phase [])) = OK out
    /\ out = [[1]; [2]; [3]]
    /\ nth 0 (nth 1 out []) 0 - nth 0 (nth 1 phase []) 0 = 1
    /\ nth 0 (nth 2 out []) 0 - nth 0 (nth 2 phase []) 0 = 1.
Proof.
  cbv zeta.
  exists (map (map (fun d => d / (2 * PI) * 1)) [[1 - 0]; [(2 - 0) / 2]; [2 - 1]]),
         [[1]; [2]; [3]].
  split; [reflexivity|]. split; [|split; [reflexivity|split; simpl; lra]].
  unfold phase_from_freq. rewrite scale_roundtrip by lra.
  simpl. unfold vadd. simpl.
  replace (0 + (1 - 0)) with 1 by lra.
  replace (0 + (1 - 0 + (2 - 0) / 2)) with 2 by lra.
  replace (0 + (1 - 0 + (2 - 0) / 2 + (2 - 1))) with 3 by lra.
  reflexivity.
Qed.

End PhaseFacts.

(* ------------------------------------------------------------------------- *)
(** ** Histogram bins on a logarithmic scale *)

Module HistBinsFacts.
Import Py HistBins ListFacts.
Local Open Scope R_scope.

(** The logarithm of a non-positive number is [-inf] or NaN. *)
Lemma np_log_nonpositive (m : R) :
  m <= 0 -> np_log (Fin m) = NInf \/ np_log (Fin m) = NaN.
Proof.
  intros H. unfold np_log.
  destruct (Rlt_dec 0 m); [lra|]. destruct (Rlt_dec m 0); auto.
Qed.

(** Zero times a step that is infinite or NaN is NaN. *)
Lemma zero_times_nonfinite (s : xfloat) :
  (forall r, s <> Fin r) -> xmul (Fin (INR 0)) s = NaN.
Proof.
  intros H. simpl INR.
  destruct s as [r| | |]; simpl; try reflexivity.
  - now destruct (H r).
  - destruct (Rlt_dec 0 0); [lra|reflexivity].
  - destruct (Rlt_dec 0 0); [lra|reflexivity].
Qed.

(** The span and the step of a [linspace] that starts at [-inf] or NaN are
    not finite. *)
Lemma span_nonfinite (start stop : xfloat) :
  start = NInf \/ start = NaN ->
  forall r, xsub stop start <> Fin r.
Proof.
  intros [-> | ->] r; destruct stop; simpl; discriminate.
Qed.

Lemma step_nonfinite (delta : xfloat) (d : R) :
  0 < d -> (forall r, delta <> Fin r) -> forall r, xdiv delta (Fin d) <> Fin r.
Proof.
  intros Hd H r. destruct delta as [x| | |]; simpl; try discriminate.
  - now destruct (H x).
  - destruct (Rlt_dec d 0); discriminate.
  - destruct (Rlt_dec d 0); discriminate.
Qed.

Lemma length_overwrite_last {A} (y : list A) (x : A) :
  y <> [] -> length (removelast y ++ [x]) = length y.
Proof.
  intros H. rewrite (app_removelast_last x H) at 2.
  now rewrite !length_app.
Qed.

Lemma length_linspace (start stop : xfloat) (num : Z) (l : list xfloat) :
  linspace start stop num = OK l -> length l = Z.to_nat num.
Proof.
  unfold linspace. destruct (num <? 0)%Z; [discriminate|].
  intros H. injection H as <-.
  set (y := map (fun v => xadd v start) _).
  assert (Hy : length y = Z.to_nat num).
  { unfold y. rewrite length_map.
    destruct (0 <? num - 1)%Z; [destruct (xeq0 _)|];
      now rewrite length_map, length_map, length_seq. }
  destruct (1 <? num)%Z eqn:E; [|exact Hy].
  rewrite <- Hy. apply length_overwrite_last.
  intros ->. simpl in Hy. lia.
Qed.

Lemma xeq0_nonfinite (s : xfloat) : (forall r, s <> Fin r) -> xeq0 s = false.
Proof.
  intros H. destruct s as [r| | |]; try reflexivity. now destruct (H r).
Qed.

(** A [linspace] that starts at [-inf] or NaN begins with NaN. *)
Lemma linspace_head_nan (start stop : xfloat) (num : Z) (d : xfloat) :
  start = NInf \/ start = NaN ->
  (1 <= num)%Z ->
  exists l, linspace start stop num = OK l /\ nth 0 l d = NaN.
Proof.
  intros Hstart Hnum. unfold linspace.
  destruct (Z.ltb_spec num 0) as [?|_]; [lia|].
  pose proof (span_nonfinite start stop Hstart) as Hdelta.
  destruct (Z.to_nat num) as [|k] eqn:Ek; [lia|].
  eexists. split; [reflexivity|].
  change (seq 0 (S k)) with (0%nat :: seq 1 k). rewrite map_cons.
  destruct (Z.ltb_spec 0 (num - 1)) as [Hdiv|Hdiv].
  - assert (Hstep : forall r, xdiv (xsub stop start) (Fin (IZR (num - 1))) <> Fin r).
    { apply step_nonfinite; [|exact Hdelta]. apply IZR_lt. exact Hdiv. }
    rewrite (xeq0_nonfinite _ Hstep). rewrite !map_cons.
    rewrite (zero_times_nonfinite _ Hstep).
    destruct (Z.ltb_spec 1 num) as [_|?]; [|lia].
    destruct k as [|k]; [lia|].
    change (seq 1 (S k)) with (1%nat :: seq 2 k). rewrite !map_cons. reflexivity.
  - rewrite !map_cons. rewrite (zero_times_nonfinite _ Hdelta).
    destruct (Z.ltb_spec 1 num) as [?|_]; [lia|].
    reflexivity.
Qed.

(** C9 (as the code has it): with [scale='log'] and [data_min <= 0] no check
    is made and nothing is raised.  For every bin count from -1 upwards the
    call returns [nbins+1] edges and [nbins] centres; from 0 upwards the
    first edge is NaN. *)
Theorem define_hist_bins_log_nonpositive_min :
  forall (data_min : R) (data_max : xfloat) (nbins : Z),
    data_min <= 0 ->
    (-1 <= nbins)%Z ->
    exists edges centres : list xfloat,
      define_hist_bins (Fin data_min) data_max nbins "log" = OK (edges, centres)
      /\ length edges = Z.to_nat (nbins + 1)
      /\ length centres = Z.to_nat nbins
      /\ ((0 <= nbins)%Z -> nth 0 edges (Fin 0) = NaN).
Proof.
  intros m data_max nbins Hm Hn.
  unfold define_hist_bins. cbn [String.eqb Ascii.eqb Bool.eqb map nth].
  destruct (linspace (np_log (Fin m)) (np_log data_max) (nbins + 1)) as [l|e] eqn:El.
  2:{ unfold linspace in El.
      destruct (Z.ltb_spec (nbins + 1) 0) as [?|_]; [lia | discriminate]. }
  pose proof (length_linspace _ _ _ _ El) as Hlen.
  cbn [rbind].
  eexists. eexists. split; [reflexivity|].
  repeat (rewrite length_map || rewrite length_seq). rewrite !Hlen.
  split; [reflexivity|]. split; [lia|].
  intros H0.
  rewrite (nth_indep _ (Fin 0) (np_exp NaN)) by (rewrite length_map, Hlen; lia).
  rewrite map_nth.
  destruct (linspace_head_nan (np_log (Fin m)) (np_log data_max) (nbins + 1) NaN
              (np_log_nonpositive m Hm) ltac:(lia)) as (l' & El' & Hhead).
  rewrite El in El'. injection El' as <-. rewrite Hhead.
  reflexivity.
Qed.

Lemma define_hist_bins_log_nonpositive_min_witness :
  exists edges centres : list xfloat,
    define_hist_bins (Fin 0) (Fin 10) 5 "log" = OK (edges, centres)
    /\ length edges = 6%nat
    /\ length centres = 5%nat
    /\ ((0 <= 5)%Z -> nth 0 edges (Fin 0) = NaN).
Proof.
  apply (define_hist_bins_log_nonpositive_min 0 (Fin 10) 5); [lra | lia].
Defined.

(** C9, as stated, fails: [define_hist_bins(0, 10, 5, 'log')] raises nothing
    and returns six edges and five centres. *)
Lemma define_hist_bins_log_zero_min_counterexample :
  exists edges centres : list xfloat,
    define_hist_bins (Fin 0) (Fin 10) 5 "log" = OK (edges, centres)
    /\ length edges = 6%nat /\ length centres = 5%nat
    /\ forall e, define_hist_bins (Fin 0) (Fin 10) 5 "log" <> Raise e.
Proof.
  unfold define_hist_bins. cbn [String.eqb Ascii.eqb Bool.eqb map nth].
  destruct (linspace (np_log (Fin 0)) (np_log (Fin 10)) (5 + 1)) as [l|e] eqn:El.
  2:{ unfold linspace in El. simpl in El. discriminate. }
  pose proof (length_linspace _ _ _ _ El) as Hlen.
  cbn [rbind]. eexists. eexists. split; [reflexivity|].
  repeat (rewrite length_map || rewrite length_seq). rewrite !Hlen.
  repeat split; try reflexivity. intros e. discriminate.
Qed.

End HistBinsFacts.

(* ------------------------------------------------------------------------- *)
(** ** The spectral aggregators *)

Module BinningFacts.
Import Py Binning ListFacts.
Local Open Scope nat_scope.

(** *** The off-by-one of [hilberthuang_1d] *)

(** C3: with edges 0, 1, 2 and one IMF, the sample of frequency 1/2 and
    amplitude 2 lies in bin 0 and the sample of frequency 3/2 and amplitude 3
    lies in bin 1, the last bin.  Row [ii] of the spectrum collects the
    samples that [np.digitize] numbers [ii], and digitize numbers the bins
    from 1: the first sample is counted in row 1, the second in no row.  The
    column total is 4 where the in-range energy is 13. *)
Theorem hilberthuang_1d_loses_last_bin :
  let fbins := [0; 1; 2]%Q in
  let infr := [[Fin (1 # 2)]; [Fin (3 # 2)]] in
  let inam := [[Fin 2]; [Fin 3]] in
  in_bin fbins 0 (Fin (1 # 2)) = true
  /\ in_bin fbins 1 (Fin (3 # 2)) = true
  /\ hilberthuang_1d infr inam fbins "energy" = OK [[Fin 0]; [Fin 4]]
  /\ column_total [[Fin 0]; [Fin 4]] 0 = Fin 4
  /\ in_range_energy infr inam fbins 0 = Fin 13.
Proof.
  cbv zeta. repeat split; vm_compute; reflexivity.
Qed.

(** *** The filter of [hilberthuang] *)

(** C6: with edges 0, 1, 2 and energy mode, five samples of one IMF:
    frequency 1/2 (bin 0) lands in row 1, frequency 3/2 (bin 1) is dropped,
    frequency -1 (below the range) is kept and lands in row 0, and
    frequencies 5 and 2 (at or above the last edge) are dropped. *)
Theorem hilberthuang_keeps_underflow_drops_last_bin :
  let edges := [0; 1; 2]%Q in
  let infr := [[Fin (1 # 2)]; [Fin (3 # 2)]; [Fin (-1)]; [Fin 5]; [Fin 2]] in
  let inam := [[Fin 2]; [Fin 3]; [Fin 5]; [Fin 7]; [Fin 11]] in
  in_bin edges 0 (Fin (1 # 2)) = true
  /\ in_bin edges 1 (Fin (3 # 2)) = true
  /\ in_range edges (Fin (-1)) = false
  /\ hilberthuang infr inam edges "energy" false
     = OK (Dense [[Fin 0; Fin 0; Fin 25; Fin 0; Fin 0];
                  [Fin 4; Fin 0; Fin 0; Fin 0; Fin 0]]).
Proof.
  cbv zeta. repeat split; vm_compute; reflexivity.
Qed.

(** *** How [np.digitize] numbers the bins

    On non-decreasing edges a sample of bin [i] (between [edges[i]] and
    [edges[i+1]]) is numbered [i + 1]; 0 is kept for the samples below the
    first edge.  [hilberthuang_1d] and [hilberthuang] use that number as a
    row index without subtracting 1. *)

Lemma nondecreasing_head_le (b : Q) (r : list Q) (k : nat) :
  nondecreasing (b :: r) = true -> k < length r -> (b <= nth k r 0)%Q.
Proof.
  revert b k; induction r as [|c r IH]; intros b k Hs Hk; [simpl in Hk; lia|].
  simpl in Hs. apply andb_prop in Hs. destruct Hs as [Hbc Hs].
  apply Qle_bool_iff in Hbc.
  destruct k as [|k]; [exact Hbc|].
  simpl in Hk. apply Qle_trans with c; [exact Hbc|].
  apply IH; [exact Hs | lia].
Qed.

Lemma nondecreasing_tail (b : Q) (r : list Q) :
  nondecreasing (b :: r) = true -> nondecreasing r = true.
Proof.
  destruct r as [|c r]; [reflexivity|].
  simpl. intros H. apply andb_prop in H. apply H.
Qed.

Lemma searchsorted_right_in_bin (bins : list Q) (i : nat) (q : Q) :
  nondecreasing bins = true ->
  S i < length bins ->
  in_bin bins i (Fin q) = true ->
  searchsorted_right bins (Fin q) = S i.
Proof.
  revert i; induction bins as [|b r IH]; intros i Hs Hi Hbin; [simpl in Hi; lia|].
  simpl in Hi.
  destruct i as [|i].
  - unfold in_bin in Hbin. cbn [nth] in Hbin.
    apply andb_prop in Hbin. destruct Hbin as [Hlo Hhi].
    cbn [searchsorted_right]. rewrite Hlo. f_equal.
    destruct r as [|c r]; [reflexivity|].
    cbn [nth] in Hhi. cbn [searchsorted_right].
    apply negb_true_iff in Hhi. now rewrite Hhi.
  - assert (Hb : Qle_bool b q = true).
    { apply Qle_bool_iff. apply Qle_trans with (nth i r 0%Q).
      - apply nondecreasing_head_le; [exact Hs | lia].
      - unfold in_bin in Hbin. cbn [nth] in Hbin.
        apply andb_prop in Hbin. apply Qle_bool_iff, Hbin. }
    cbn [searchsorted_right]. rewrite Hb. f_equal.
    apply IH; [now apply nondecreasing_tail with b | lia | exact Hbin].
Qed.

Lemma digitize_elem_in_bin (bins : list Q) (i : nat) (q : Q) :
  nondecreasing bins = true ->
  S i < length bins ->
  in_bin bins i (Fin q) = true ->
  digitize_elem bins (monotonicity bins) (Fin q) = S i.
Proof.
  intros Hs Hi Hbin. unfold digitize_elem, monotonicity. rewrite Hs.
  cbn [Z.eqb]. now apply searchsorted_right_in_bin.
Qed.

(** A sample below the first edge is numbered 0. *)
Lemma digitize_elem_below (b : Q) (r : list Q) (q : Q) :
  nondecreasing (b :: r) = true ->
  Qle_bool b q = false ->
  digitize_elem (b :: r) (monotonicity (b :: r)) (Fin q) = 0.
Proof.
  intros Hs Hq. unfold digitize_elem, monotonicity. rewrite Hs.
  cbn [Z.eqb searchsorted_right]. now rewrite Hq.
Qed.

(** *** Exact sums

    Addition of samples in exact arithmetic ([fadd]) is associative and
    commutative with unit zero, also when NaN takes part. *)










(** A matrix accepted by the constructor has its row indices in range. *)
Lemma coo_matrix_rows_in_range (data : list fnum) (row col : list nat)
    (M N : Z) (m : coo) :
  coo_matrix data row col M N = OK m ->
  coo_rows m = Z.to_nat M /\ coo_cols m = Z.to_nat N
  /\ forall e, In e (coo_entries m) -> fst (snd e) < coo_rows m.
Proof.
  unfold coo_matrix.
  destruct ((M <? 0)%Z || (N <? 0)%Z); [discriminate|].
  destruct (negb _); [discriminate|].
  destruct (forallb (fun r => (Z.of_nat r <? M)%Z) row) eqn:Hrow; [|discriminate].
  cbn [negb].
  destruct (negb _); [discriminate|].
  intros H. injection H as <-. simpl. split; [reflexivity|]. split; [reflexivity|].
  intros [d [r c]] He. unfold coo_entries in He. simpl in *.
  apply in_combine_r, in_combine_l in He.
  rewrite forallb_forall in Hrow. specialize (Hrow r He).
  apply Z.ltb_lt in Hrow. lia.
Qed.

(** *** Reshaping and trimming a tabulated row *)

Lemma removelast_map {A B} (f : A -> B) (l : list A) :
  removelast (map f l) = map f (removelast l).
Proof.
  induction l as [|x l IH]; [reflexivity|].
  destruct l as [|y l]; [reflexivity|].
  change (removelast (map f (x :: y :: l))) with (f x :: removelast (map f (y :: l))).
  rewrite IH. reflexivity.
Qed.

Lemma removelast_seq (a n : nat) : removelast (seq a n) = seq a (n - 1).
Proof.
  destruct n as [|n]; [reflexivity|].
  rewrite seq_S, removelast_last. f_equal. lia.
Qed.

Lemma slice_inner_map_seq {A} (h : nat -> A) (a n : nat) :
  slice_inner (map h (seq a n)) = map h (seq (S a) (n - 2)).
Proof.
  unfold slice_inner. rewrite tl_map, removelast_map. f_equal.
  destruct n as [|n]; [reflexivity|].
  simpl tl. rewrite removelast_seq. f_equal; lia.
Qed.

Lemma firstn_seq_min (n a len : nat) : firstn n (seq a len) = seq a (Nat.min n len).
Proof.
  revert a len; induction n as [|n IH]; intros a [|len]; try reflexivity.
  simpl. now rewrite IH.
Qed.

Lemma reshape2_chunk (g : nat -> fnum) (d1 d2 j : nat) :
  j < d2 ->
  firstn d1 (skipn (j * d1) (map g (seq 0 (d1 * d2)))) = map g (seq (j * d1) d1).
Proof.
  intros H. rewrite skipn_map, skipn_seq, firstn_map, firstn_seq_min.
  f_equal. f_equal. nia.
Qed.

Lemma reshape2_trimmed (g : nat -> fnum) (d1 d2 : nat) :
  slice_inner (map slice_inner (reshape2 d2 d1 (map g (seq 0 (d1 * d2)))))
  = map (fun j => map g (seq (S (j * d1)) (d1 - 2))) (seq 1 (d2 - 2)).
Proof.
  unfold reshape2. rewrite map_map, slice_inner_map_seq.
  apply map_ext_in. intros j Hj. apply in_seq in Hj.
  rewrite reshape2_chunk by lia. apply slice_inner_map_seq.
Qed.

(** Both settings do return on well-formed data; one evaluation. *)
Example holospectrum_two_samples :
  let infr := [[Fin (1 # 2)]; [Fin (1 # 2)]] in
  let infr2 := [[[Fin (1 # 2)]]; [[Fin (3 # 2)]]] in
  let inam2 := [[[Fin 2]]; [[Fin 3]]] in
  holospectrum infr infr2 inam2 [0; 1; 2]%Q [0; 1; 2]%Q "energy" true
  = OK (TimeResolved [[[Fin 4; Fin 0]; [Fin 0; Fin 0]];
                      [[Fin 0; Fin 0]; [Fin 9; Fin 0]]])
  /\ holospectrum infr infr2 inam2 [0; 1; 2]%Q [0; 1; 2]%Q "energy" false
     = OK (TimeCollapsed [[Fin 4; Fin 0]; [Fin 9; Fin 0]]).
Proof.
  cbv zeta. split; vm_compute; reflexivity.
Qed.

(** *** [holospectrum] returns on well-shaped input *)

Lemma length_concat_shape2 {A} (n0 n1 : nat) (a : list (list A)) :
  shape2 n0 n1 a -> length (concat a) = n0 * n1.
Proof.
  intros [Hlen Hrows]. subst n0.
  induction Hrows as [|r a Hr Hrows IH]; [reflexivity|].
  simpl. rewrite length_app, IH, Hr. reflexivity.
Qed.

Lemma concat_shape3 {A} (n0 n1 n2 : nat) (a : list (list (list A))) :
  shape3 n0 n1 n2 a -> shape2 (n0 * n1) n2 (concat a).
Proof.
  intros [Hlen Hs]. split.
  - apply length_concat_shape2. split; [exact Hlen|].
    eapply Forall_impl; [|exact Hs]. intros m Hm. apply Hm.
  - apply Forall_concat. eapply Forall_impl; [|exact Hs]. intros m Hm. apply Hm.
Qed.

Lemma length_flat_shape3 {A} (n0 n1 n2 : nat) (a : list (list (list A))) :
  shape3 n0 n1 n2 a -> length (concat (concat a)) = n0 * n1 * n2.
Proof.
  intros H. apply length_concat_shape2, concat_shape3, H.
Qed.

Lemma shape2_map {A B} (f : A -> B) (n0 n1 : nat) (a : list (list A)) :
  shape2 n0 n1 a -> shape2 n0 n1 (map (map f) a).
Proof.
  intros [Hlen Hrows]. split; [now rewrite length_map|].
  apply Forall_map. eapply Forall_impl; [|exact Hrows].
  intros r Hr. now rewrite length_map.
Qed.

Lemma shape3_map {A B} (f : A -> B) (n0 n1 n2 : nat) (a : list (list (list A))) :
  shape3 n0 n1 n2 a -> shape3 n0 n1 n2 (map (map (map f)) a).
Proof.
  intros [Hlen Hs]. split; [now rewrite length_map|].
  apply Forall_map. eapply Forall_impl; [|exact Hs].
  intros m Hm. now apply shape2_map.
Qed.

Lemma shape2_zipw {A B C} (f : A -> B -> C) (n0 a b : nat)
    (u : list (list A)) (v : list (list B)) :
  shape2 n0 a u -> shape2 n0 b v -> shape2 n0 (Nat.min a b) (zipw (zipw f) u v).
Proof.
  intros [Hu Hur] [Hv Hvr]. split.
  - rewrite length_zipw, Hu, Hv. apply Nat.min_id.
  - apply (Forall_zipw (fun r => length r = a) (fun r => length r = b)); auto.
    intros r s Hr Hs. now rewrite length_zipw, Hr, Hs.
Qed.

Lemma shape3_zipw {A B C} (f : A -> B -> C) (n0 n1 a b : nat)
    (u : list (list (list A))) (v : list (list (list B))) :
  shape3 n0 n1 a u -> shape3 n0 n1 b v ->
  shape3 n0 n1 (Nat.min a b) (zipw (zipw (zipw f)) u v).
Proof.
  intros [Hu Hur] [Hv Hvr]. split.
  - rewrite length_zipw, Hu, Hv. apply Nat.min_id.
  - apply (Forall_zipw (shape2 n1 a) (shape2 n1 b)); auto.
    intros r s Hr Hs. now apply shape2_zipw.
Qed.

Lemma searchsorted_right_le (bins : list Q) (x : fnum) :
  searchsorted_right bins x <= length bins.
Proof.
  induction bins as [|b bins IH]; simpl; [lia|].
  destruct (match x with Fin q => Qle_bool b q | NaN => true end); lia.
Qed.

Lemma digitize_elem_le (bins : list Q) (mono : Z) (x : fnum) :
  digitize_elem bins mono x <= length bins.
Proof.
  unfold digitize_elem. destruct (mono =? -1)%Z; [lia|].
  apply searchsorted_right_le.
Qed.

Lemma check_bins_ok (bins : list Q) :
  monotonicity bins <> 0%Z -> check_bins bins = OK (monotonicity bins).
Proof.
  intros H. unfold check_bins.
  destruct (Z.eqb_spec (monotonicity bins) 0); [contradiction | reflexivity].
Qed.

Lemma Forall_true {A} (P : A -> Prop) (l : list A) : (forall x, P x) -> Forall P l.
Proof. intros H. apply Forall_forall. auto. Qed.

Lemma forallb_Forall {A} (p : A -> bool) (P : A -> Prop) (l : list A) :
  (forall x, P x -> p x = true) -> Forall P l -> forallb p l = true.
Proof.
  intros H HP. apply forallb_forall. rewrite Forall_forall in HP. auto.
Qed.

Lemma Forall_repeat {A} (P : A -> Prop) (x : A) (n : nat) :
  P x -> Forall P (repeat x n).
Proof.
  intros H. apply Forall_forall. intros y Hy.
  now rewrite (repeat_spec _ _ _ Hy).
Qed.

Lemma shape2_repeat {A} (x : A) (n1 n2 : nat) :
  shape2 n1 n2 (repeat (repeat x n2) n1).
Proof.
  split; [apply repeat_length|]. apply Forall_repeat, repeat_length.
Qed.

Lemma shape3_broadcast_last {A} (n0 n1 k : nat) (a : list (list A)) :
  shape2 n0 n1 a -> shape3 n0 n1 k (map (map (fun i => repeat i k)) a).
Proof.
  intros [Hlen Hrows]. split; [now rewrite length_map|].
  apply Forall_map. eapply Forall_impl; [|exact Hrows].
  intros r Hr. split; [now rewrite length_map|].
  apply Forall_map, Forall_true. intros i. apply repeat_length.
Qed.

Lemma coo_matrix_ok (data : list fnum) (row col : list nat) (M N : nat) :
  length row = length data ->
  length col = length data ->
  Forall (fun r => r < M) row ->
  Forall (fun c => c < N) col ->
  exists m, coo_matrix data row col (Z.of_nat M) (Z.of_nat N) = OK m.
Proof.
  intros Hr Hc Hrow Hcol. unfold coo_matrix.
  destruct (Z.ltb_spec (Z.of_nat M) 0); [lia|].
  destruct (Z.ltb_spec (Z.of_nat N) 0); [lia|].
  cbn [orb]. rewrite Hr, Hc, !Nat.eqb_refl. cbn [andb negb].
  rewrite (forallb_Forall _ (fun r => r < M) row), (forallb_Forall _ (fun c => c < N) col);
    try assumption.
  - cbn [negb]. eexists. reflexivity.
  - intros c Hlt. apply Z.ltb_lt. lia.
  - intros r Hlt. apply Z.ltb_lt. lia.
Qed.

(** The trailing sizes that [holospectrum] reads from its arguments agree
    with the declared shape wherever they matter. *)
Lemma read_shape_agrees {A B} (n0 n1 n2 : nat)
    (a : list (list A)) (b : list (list (list B))) :
  shape2 n0 n1 a -> shape3 n0 n1 n2 b ->
  n0 = 0 \/ (ncols a = n1 /\ (n1 = 0 \/ length (nth 0 (nth 0 b []) []) = n2)).
Proof.
  intros [Ha Har] [Hb Hbr].
  destruct a as [|r a]; [left; now rewrite <- Ha|]. right.
  apply Forall_cons_iff in Har. destruct Har as [Hr _].
  split; [exact Hr|].
  destruct b as [|m b]; [simpl in *; lia|].
  apply Forall_cons_iff in Hbr. destruct Hbr as [[Hm Hmr] _].
  destruct m as [|s m]; [left; now rewrite <- Hm|]. right.
  apply Forall_cons_iff in Hmr. destruct Hmr as [Hs _]. exact Hs.
Qed.

(** On arrays of matching shapes and monotonic edges both settings of
    [return_time] return a spectrum. *)
Lemma holospectrum_returns (infr : array2) (infr2 inam2 : array3)
    (freq_edges freq_edges2 : list Q) (mode : string) (return_time : bool)
    (n0 n1 n2 : nat) :
  monotonicity freq_edges <> 0%Z ->
  monotonicity freq_edges2 <> 0%Z ->
  shape2 n0 n1 infr -> shape3 n0 n1 n2 infr2 -> shape3 n0 n1 n2 inam2 ->
  exists r,
    holospectrum infr infr2 inam2 freq_edges freq_edges2 mode return_time = OK r.
Proof.
  intros Hm1 Hm2 Hinfr Hinfr2 Hinam2.
  unfold holospectrum, digitize3, digitize2.
  rewrite (check_bins_ok _ Hm1), (check_bins_ok _ Hm2). cbn [rbind fst snd].
  set (dig1 := digitize_elem freq_edges (monotonicity freq_edges)).
  set (dig2 := digitize_elem freq_edges2 (monotonicity freq_edges2)).
  set (F1 := length freq_edges + 1).
  set (F2 := length freq_edges2 + 1).
  set (k1 := ncols (map (map dig1) infr)).
  set (k2 := length (nth 0 (nth 0 infr2 []) [])).
  assert (Hinds : shape2 n0 n1 (map (map dig1) infr)) by now apply shape2_map.
  assert (HIA : shape3 n0 n1 n2 (map (map (map dig2)) infr2)) by now apply shape3_map.
  assert (Hdims : n0 = 0 \/ (k1 = n1 /\ (n1 = 0 \/ k2 = n2)))
    by apply (read_shape_agrees n0 n1 n2 _ _ Hinds Hinfr2).
  assert (Hlen0 : length infr = n0) by apply Hinfr.
  assert (Hdata : length (concat (concat
            (if String.eqb mode "energy" then map (map (map fsq)) inam2 else inam2)))
          = n0 * n1 * n2).
  { destruct (String.eqb mode "energy").
    - apply length_flat_shape3. now apply shape3_map.
    - now apply length_flat_shape3. }
  match goal with
  | |- context [coo_matrix ?d ?r ?c (Z.of_nat ?M) (Z.of_nat ?N)] =>
      destruct (coo_matrix_ok d r c M N) as [m Hm]
  end.
  - rewrite Hdata, Hlen0.
    rewrite (length_flat_shape3 n0 k1 k2).
    + destruct Hdims as [-> | [-> [-> | ->]]]; lia.
    + split; [now rewrite length_map, length_seq|].
      apply Forall_map, Forall_true. intros t. apply shape2_repeat.
  - rewrite Hdata.
    rewrite (length_flat_shape3 n0 n1 (Nat.min k2 n2)).
    + destruct Hdims as [-> | [_ [-> | ->]]]; lia.
    + apply shape3_zipw; [|exact HIA]. now apply shape3_broadcast_last.
  - apply Forall_concat, Forall_concat, Forall_map, Forall_forall.
    intros t Ht. apply in_seq in Ht.
    apply Forall_repeat, Forall_repeat. lia.
  - apply Forall_concat, Forall_concat.
    apply (Forall_zipw (Forall (Forall (fun a => a <= length freq_edges)))
                       (Forall (Forall (fun b => b <= length freq_edges2)))).
    + intros u v Hu Hv.
      apply (Forall_zipw (Forall (fun a => a <= length freq_edges))
                         (Forall (fun b => b <= length freq_edges2))); auto.
      intros u' v' Hu' Hv'.
      apply (Forall_zipw (fun a => a <= length freq_edges)
                         (fun b => b <= length freq_edges2)); auto.
      intros a b Ha Hb. unfold F1, F2. nia.
    + apply Forall_map, Forall_map, Forall_true. intros r.
      apply Forall_map, Forall_map, Forall_true. intros x.
      apply Forall_repeat, digitize_elem_le.
    + apply Forall_map, Forall_true. intros mm.
      apply Forall_map, Forall_true. intros r.
      apply Forall_map, Forall_true. intros x. apply digitize_elem_le.
  - rewrite Hm. cbn [rbind]. destruct return_time; eexists; reflexivity.
Qed.

(** *** Single samples through [hilberthuang]

    Whatever the edges, a sample below the first edge is stored (in row 0),
    and a sample of the last bin is not stored at all. *)

Lemma digitize2_single (bins : list Q) (x : fnum) :
  nondecreasing bins = true ->
  digitize2 [[x]] bins = OK [[searchsorted_right bins x]].
Proof.
  intros Hs. unfold digitize2, check_bins, monotonicity, digitize_elem.
  rewrite Hs. reflexivity.
Qed.

Lemma coo_matrix_eq (data : list fnum) (row col : list nat) (M N : nat) :
  length row = length data ->
  length col = length data ->
  Forall (fun r => r < M) row ->
  Forall (fun c => c < N) col ->
  coo_matrix data row col (Z.of_nat M) (Z.of_nat N)
  = OK {| coo_rows := M; coo_cols := N;
          coo_data := data; coo_row := row; coo_col := col |}.
Proof.
  intros Hr Hc Hrow Hcol. unfold coo_matrix.
  destruct (Z.ltb_spec (Z.of_nat M) 0); [lia|].
  destruct (Z.ltb_spec (Z.of_nat N) 0); [lia|].
  cbn [orb]. rewrite Hr, Hc, !Nat.eqb_refl. cbn [andb negb].
  rewrite (forallb_Forall _ (fun r => r < M) row), (forallb_Forall _ (fun c => c < N) col);
    try assumption.
  - cbn [negb]. now rewrite !Nat2Z.id.
  - intros c Hlt. apply Z.ltb_lt. lia.
  - intros r Hlt. apply Z.ltb_lt. lia.
Qed.

Lemma hilberthuang_underflow_is_kept (b c : Q) (r : list Q) (q : Q) (a : fnum) :
  nondecreasing (b :: c :: r) = true ->
  Qle_bool b q = false ->
  in_range (b :: c :: r) (Fin q) = false
  /\ exists m,
       hilberthuang [[Fin q]] [[a]] (b :: c :: r) "energy" true = OK (Sparse m)
       /\ coo_data m = [fsq a] /\ coo_row m = [0] /\ coo_col m = [0].
Proof.
  intros Hs Hq. split.
  - unfold in_range. cbn [nth]. now rewrite Hq.
  - unfold hilberthuang. cbn [String.eqb Ascii.eqb Bool.eqb map].
    rewrite (digitize2_single _ _ Hs). cbn [rbind searchsorted_right].
    rewrite Hq. cbn [length ncols nth seq map repeat concat app].
    rewrite Nat.eqb_refl, orb_true_r.
    unfold mask_select. cbn [length map combine filter fst snd].
    replace (Z.of_nat (S (S (length r))) - 1)%Z with (Z.of_nat (S (length r))) by lia.
    rewrite (coo_matrix_eq [fsq a] [0] [0] (S (length r)) 1);
      try reflexivity; try (constructor; [lia | constructor]).
    cbn [rbind]. eexists. split; [reflexivity|]. repeat split.
Qed.

Lemma hilberthuang_last_bin_is_dropped (bins : list Q) (i : nat) (q : Q) (a : fnum) :
  nondecreasing bins = true ->
  length bins = S (S i) ->
  in_bin bins i (Fin q) = true ->
  exists m,
    hilberthuang [[Fin q]] [[a]] bins "energy" true = OK (Sparse m)
    /\ coo_data m = [].
Proof.
  intros Hs Hlen Hbin.
  unfold hilberthuang. cbn [String.eqb Ascii.eqb Bool.eqb map].
  rewrite (digitize2_single _ _ Hs). cbn [rbind].
  rewrite (searchsorted_right_in_bin bins i q Hs) by (assumption || lia).
  rewrite Hlen.
  cbn [length ncols nth seq map repeat concat app].
  replace (Z.of_nat (S i) <? Z.of_nat (S (S i)) - 1)%Z with false
    by (symmetry; apply Z.ltb_ge; lia).
  cbn [Nat.eqb orb].
  unfold mask_select. cbn [length map combine filter fst snd].
  replace (Z.of_nat (S (S i)) - 1)%Z with (Z.of_nat (S i)) by lia.
  rewrite (coo_matrix_eq [] [] [] (S i) 1); try reflexivity; try constructor.
  cbn [rbind]. eexists. split; reflexivity.
Qed.

(** *** A single sample through [hilberthuang_1d]

    A sample of the last bin is in range, and no row counts it. *)

Lemma last_as_nth {A} (l : list A) (d : A) : last l d = nth (length l - 1) l d.
Proof.
  induction l as [|x l IH]; [reflexivity|].
  destruct l as [|y l]; [reflexivity|].
  change (last (x :: y :: l) d) with (last (y :: l) d). rewrite IH.
  simpl length. simpl Nat.sub. rewrite Nat.sub_0_r. reflexivity.
Qed.

Lemma nondecreasing_first_le (bins : list Q) (i : nat) :
  nondecreasing bins = true -> i < length bins ->
  (nth 0 bins 0 <= nth i bins 0)%Q.
Proof.
  intros Hs Hi. destruct bins as [|b r]; [simpl in Hi; lia|].
  destruct i as [|i]; [apply Qle_refl|].
  cbn [nth]. apply nondecreasing_head_le; [exact Hs | simpl in Hi; lia].
Qed.

Lemma hilberthuang_1d_last_bin_is_lost (bins : list Q) (i : nat) (q : Q) (a : fnum) :
  nondecreasing bins = true ->
  length bins = S (S i) ->
  in_bin bins i (Fin q) = true ->
  in_range bins (Fin q) = true
  /\ hilberthuang_1d [[Fin q]] [[a]] bins "energy"
     = OK (map (fun _ => [fzero]) (seq 0 (S i))).
Proof.
  intros Hs Hlen Hbin.
  assert (Hbin' := Hbin). unfold in_bin in Hbin'.
  apply andb_prop in Hbin'. destruct Hbin' as [Hlo Hhi].
  apply Qle_bool_iff in Hlo. apply negb_true_iff in Hhi.
  assert (Hfirst : Qle_bool (nth 0 bins 0%Q) q = true).
  { apply Qle_bool_iff. apply Qle_trans with (nth i bins 0%Q); [|exact Hlo].
    apply nondecreasing_first_le; [exact Hs | lia]. }
  assert (Hlast : Qle_bool q (last bins 0%Q) = true).
  { rewrite last_as_nth, Hlen. replace (S (S i) - 1) with (S i) by lia.
    apply Qle_bool_iff, Qlt_le_weak, Qnot_le_lt.
    intros H. apply Qle_bool_iff in H. congruence. }
  split; [unfold in_range; now rewrite Hfirst, Hlast|].
  unfold hilberthuang_1d. rewrite Hlen. cbn [Nat.eqb map].
  unfold fgt, flt. rewrite Hfirst. cbn [negb]. rewrite Hlast. cbn [negb].
  rewrite (digitize2_single _ _ Hs). cbn [rbind].
  rewrite (searchsorted_right_in_bin bins i q Hs) by (assumption || lia).
  f_equal. replace (S (S i) - 1) with (S i) by lia.
  apply map_ext_in. intros ii Hii. apply in_seq in Hii.
  cbn [ncols nth length seq map column].
  destruct (Nat.eqb_spec (S i) ii) as [?|_]; [lia|].
  reflexivity.
Qed.

End BinningFacts.

(* ------------------------------------------------------------------------- *)
(** ** The two aggregation orders of [holospectrum] *)

Module HolospectrumSumFacts.
Import Py Binning ListFacts BinningFacts.
Local Open Scope nat_scope.

(** With the identity for rounding, the explicit form is [holospectrum]. *)
Lemma holospectrum_with_exact (infr : array2) (infr2 inam2 : array3)
    (freq_edges freq_edges2 : list Q) (mode : string) (return_time : bool) :
  holospectrum_with (fun q => q) infr infr2 inam2 freq_edges freq_edges2 mode return_time
  = holospectrum infr infr2 inam2 freq_edges freq_edges2 mode return_time.
Proof. reflexivity. Qed.

(** *** Entries ordered by time *)




Section ByTime.

Context {A : Type}.
Variable time : A -> nat.



End ByTime.







Section AnyRounding.

Variable rnd : Q -> Q.







End AnyRounding.



(** The rounding at the values used below: 10^16 + 1 lies half-way between
    the binary64 numbers 10^16 and 10^16 + 2 and goes to the one with the
    even significand; 10^16 + 2 and 1/2 are binary64 numbers; 1/3 is not. *)
Example qround64_samples :
  qround64 10000000000000001 = 10000000000000000%Q
  /\ qround64 10000000000000002 = 10000000000000002%Q
  /\ qround64 10000000000000003 = 10000000000000004%Q
  /\ qround64 (1 # 2) = (1 # 2)%Q
  /\ qround64 (1 # 3) = (6004799503160661 # 18014398509481984)%Q.
Proof. repeat split; vm_compute; reflexivity. Qed.


End HolospectrumSumFacts.

(* ------------------------------------------------------------------------- *)
(** ** More on the dispatcher [frequency_stats] *)

Module DispatchFacts.
Import Py Spectra ListFacts QuadratureFacts.

Section Dispatch.

Variable amplitude_normalise : array -> bool -> array.
Variable interp_envelope : list R -> string -> list R.
Variable wrap_phase : array -> array.
Variable hilbert : array -> carray.
Variable np_angle : carray -> array.
Variable np_unwrap : array -> array.
Variable savgol_filter : array -> Z -> Z -> result array.

(** The normaliser keeps the shape of its argument. *)
Hypothesis normalise_length :
  forall X c, length (amplitude_normalise X c) = length X.

Local Abbreviation frequency_stats :=
  (frequency_stats amplitude_normalise interp_envelope wrap_phase hilbert
                   np_angle np_unwrap savgol_filter).

Lemma bind_ok {A B} (m : io A) (k : A -> io B) (out : list string) (b : B) :
  bind m k = (out, OK b) ->
  exists a out1 out2, m = (out1, OK a) /\ k a = (out2, OK b) /\ out = out1 ++ out2.
Proof.
  unfold bind. destruct m as [out1 [a|e]]; [|discriminate].
  destruct (k a) as [out2 r] eqn:E. intros H. injection H as Ho Hr.
  exists a, out1, out2. subst. repeat split. exact E.
Qed.

Lemma lift_ok {A} (r : result A) (out : list string) (a : A) :
  lift r = (out, OK a) -> r = OK a /\ out = [].
Proof.
  unfold lift. intros H. injection H as <- ->. split; reflexivity.
Qed.

(** Peels the leading statement off a run that returned. *)
Ltac step_ok H :=
  let a := fresh "v" in
  let o1 := fresh "out" in
  let o2 := fresh "out" in
  let Hm := fresh "Hm" in
  let Ho := fresh "Ho" in
  apply bind_ok in H; destruct H as (a & o1 & o2 & Hm & H & Ho);
  try (apply lift_ok in Hm; destruct Hm as [Hm ->]); subst.

(** X1: the only method with which [frequency_stats] returns is ['quad'];
    when it returns, nothing has been printed.  Every other method string
    ends in an exception. *)
Theorem frequency_stats_returns_only_for_quad :
  forall (imf : array) (sample_rate : R) (method : string) (smooth_phase : Z)
         (out : list string) (res : array * array * array),
    frequency_stats imf sample_rate method smooth_phase = (out, OK res) ->
    method = "quad"%string /\ out = [].
Proof.
  intros imf sr method sp out res.
  unfold Spectra.frequency_stats.
  destruct (String.eqb method "hilbert") eqn:Eh; [discriminate|].
  destruct (String.eqb_spec method "quad") as [->|Hq].
  - intros H. split; [reflexivity|].
    step_ok H. step_ok Hm. step_ok Hm.
    unfold ret in Hm. injection Hm as <- <-.
    repeat step_ok H.
    unfold ret in H. injection H as <- _. reflexivity.
  - destruct (String.eqb method "direct_quad"); discriminate.
Qed.

(** X2: with ['quad'] an array of fewer than two time samples raises
    [IndexError] in the quadrature transform; no envelope is fitted and
    nothing is printed. *)
Theorem frequency_stats_quad_short_input :
  forall (imf : array) (sample_rate : R) (smooth_phase : Z),
    (length imf <= 1)%nat ->
    exists msg,
      frequency_stats imf sample_rate "quad" smooth_phase
      = ([], Raise (IndexError msg)).
Proof.
  intros imf sr sp Hlen.
  destruct (quadrature_short_input_raises (amplitude_normalise imf true)) as [msg Hq].
  { now rewrite normalise_length. }
  exists msg. unfold Spectra.frequency_stats, Spectra.quadrature_transform.
  cbn [String.eqb Ascii.eqb Bool.eqb]. rewrite Hq. reflexivity.
Qed.

End Dispatch.

Lemma quadrature_transform_ramp :
  Spectra.quadrature_transform clip_normalise [[0%R]; [1%R]]
  = OK [[(0, -1)%R]; [(1, 0)%R]].
Proof.
  unfold Spectra.quadrature_transform. rewrite clip_normalise_ramp.
  rewrite quadrature_of_normalised_eq, quadrature_mask_eq by (simpl; lia).
  rewrite inner_mask_ramp. simpl.
  rewrite quadrature_sample_0_descending_sign, quadrature_sample_1. reflexivity.
Qed.

Lemma frequency_stats_returns_only_for_quad_witness :
  exists res,
    Spectra.frequency_stats clip_normalise (fun x _ => x) (fun a => a)
      (map (map of_real)) (map (map fst)) (fun a => a) (fun a _ _ => OK a)
      [[0%R]; [1%R]] 1%R "quad" 31%Z = ([], OK res)
    /\ "quad"%string = "quad"%string /\ @nil string = [].
Proof.
  assert (exists res,
    Spectra.frequency_stats clip_normalise (fun x _ => x) (fun a => a)
      (map (map of_real)) (map (map fst)) (fun a => a) (fun a _ _ => OK a)
      [[0%R]; [1%R]] 1%R "quad" 31%Z = ([], OK res)) as [res H].
  { unfold Spectra.frequency_stats. cbn [String.eqb Ascii.eqb Bool.eqb].
    rewrite quadrature_transform_ramp. eexists. reflexivity. }
  exists res. split; [exact H|].
  exact (frequency_stats_returns_only_for_quad clip_normalise (fun x _ => x)
           (fun a => a) (map (map of_real)) (map (map fst)) (fun a => a)
           (fun a _ _ => OK a) [[0%R]; [1%R]] 1%R "quad" 31%Z [] res H).
Defined.

Lemma frequency_stats_quad_short_input_witness :
  exists msg,
    Spectra.frequency_stats clip_normalise (fun x _ => x) (fun a => a)
      (map (map of_real)) (map (map fst)) (fun a => a) (fun a _ _ => OK a)
      [[0%R]] 1%R "quad" 31%Z
    = ([], Raise (IndexError msg)).
Proof.
  apply (frequency_stats_quad_short_input clip_normalise (fun x _ => x)
           (fun a => a) (map (map of_real)) (map (map fst)) (fun a => a)
           (fun a _ _ => OK a) clip_normalise_length [[0%R]] 1%R 31%Z).
  simpl. lia.
Defined.

End DispatchFacts.

(* ------------------------------------------------------------------------- *)
(** ** More on phase and frequency *)

Module FrequencyFacts.
Import Py Spectra ListFacts QuadratureFacts PhaseFacts.
Local Open Scope R_scope.

Lemma nth2_map (g : R -> R) (a : array) (k j : nat) :
  (k < length a)%nat -> (j < length (nth k a []))%nat ->
  nth j (nth k (map (map g) a) []) 0 = g (nth j (nth k a []) 0).
Proof.
  intros Hk Hj.
  rewrite (nth_map_in (map g) a k [] []) by exact Hk.
  now rewrite (nth_map_in g _ j 0 0).
Qed.

Lemma rect_map (g : R -> R) (w : nat) (a : array) :
  rect w a -> rect w (map (map g) a).
Proof.
  intros H. unfold rect in *. apply Forall_map.
  eapply Forall_impl; [|exact H]. intros r Hr. now rewrite length_map.
Qed.

Lemma gradient_entries (w : nat) (a : array) :
  (2 <= length a)%nat -> rect w a ->
  let P := fun k j => nth j (nth k a []) 0 in
  let n := length a in
  exists g,
    gradient0 a = OK g /\ length g = n /\ rect w g
    /\ (forall j, nth j (nth 0 g []) 0 = P 1%nat j - P 0%nat j)
    /\ (forall i j, (1 <= i)%nat -> (S i < n)%nat ->
          nth j (nth i g []) 0 = (P (S i) j - P (i - 1)%nat j) / 2)
    /\ (forall j, nth j (nth (n - 1) g []) 0 = P (n - 1)%nat j - P (n - 2)%nat j).
Proof.
  intros Hn Hrect P n.
  destruct (gradient0_ok a Hn) as (g & Hg & Hlen & Hg0 & Hmid & Hlast).
  fold n in Hlen, Hmid, Hlast, Hn.
  assert (Hrow : forall k, (k < n)%nat -> length (nth k a []) = w)
    by (intros k Hk; now apply rect_nth).
  exists g. split; [exact Hg|]. split; [exact Hlen|]. split; [|split; [|split]].
  - apply Forall_nth. intros i d Hi. rewrite (nth_indep _ d []) by exact Hi.
    destruct (Nat.eq_dec i 0) as [->|Hi0].
    + rewrite Hg0, length_vsub, !Hrow by lia. apply Nat.min_id.
    + destruct (Nat.eq_dec i (n - 1)) as [->|Hi1].
      * rewrite Hlast, length_vsub, !Hrow by lia. apply Nat.min_id.
      * rewrite Hmid, length_map, length_vsub, !Hrow by lia. apply Nat.min_id.
  - intros j. rewrite Hg0, nth_vsub by (rewrite !Hrow by lia; reflexivity).
    reflexivity.
  - intros i j Hi1 Hi2. rewrite Hmid by lia.
    assert (Hl : length (nth (S i) a []) = length (nth (i - 1) a []))
      by (rewrite !Hrow by lia; reflexivity).
    destruct (Nat.lt_ge_cases j w) as [Hj|Hj].
    + rewrite (nth_map_in _ _ _ 0) by (rewrite length_vsub, !Hrow by lia; lia).
      now rewrite nth_vsub.
    + rewrite nth_overflow by (rewrite length_map, length_vsub, !Hrow by lia; lia).
      unfold P. rewrite !(nth_overflow (nth _ a [])) by (rewrite Hrow by lia; lia).
      lra.
  - intros j. rewrite Hlast, nth_vsub by (rewrite !Hrow by lia; reflexivity).
    reflexivity.
Qed.

(** X4: a phase that advances linearly, as that of a pure sinusoid of
    frequency [f j] in column [j] sampled at rate [fs], has instantaneous
    frequency exactly [f j] at every sample, the two boundary samples
    included. *)
Theorem freq_of_linear_phase :
  forall (phase : array) (fs : R) (w : nat) (phi f : nat -> R),
    fs <> 0 ->
    (2 <= length phase)%nat ->
    rect w phase ->
    (forall k j, (k < length phase)%nat -> (j < w)%nat ->
       nth j (nth k phase []) 0 = phi j + 2 * PI * f j * INR k / fs) ->
    exists ifreq : array,
      freq_from_phase phase fs = OK ifreq
      /\ length ifreq = length phase
      /\ forall k j, (k < length phase)%nat -> (j < w)%nat ->
           nth j (nth k ifreq []) 0 = f j.
Proof.
  intros phase fs w phi f Hfs Hn Hrect Hlin.
  destruct (gradient_entries w phase Hn Hrect)
    as (g & Hg & Hlen & Hgrect & HG0 & HGmid & HGlast).
  exists (map (map (fun d => d / (2 * PI) * fs)) g).
  split; [unfold freq_from_phase; now rewrite Hg|].
  split; [now rewrite length_map|].
  intros k j Hk Hj.
  rewrite nth2_map by (try rewrite (rect_nth w g k Hgrect); lia).
  pose proof PI_neq0 as Hpi.
  destruct (Nat.eq_dec k 0) as [->|Hk0].
  - rewrite HG0, !Hlin by lia. simpl INR. field. split; assumption.
  - destruct (Nat.eq_dec k (length phase - 1)) as [->|Hk1].
    + rewrite HGlast, !Hlin by lia.
      replace (length phase - 1)%nat with (S (length phase - 2)) by lia.
      rewrite S_INR. field. split; assumption.
    + rewrite HGmid, !Hlin by lia.
      rewrite S_INR, minus_INR by lia. simpl INR. field. split; assumption.
Qed.

Lemma freq_of_linear_phase_witness :
  exists ifreq : array,
    freq_from_phase [[0]; [2 * PI]; [4 * PI]] 1 = OK ifreq
    /\ length ifreq = 3%nat
    /\ forall k j, (k < 3)%nat -> (j < 1)%nat -> nth j (nth k ifreq []) 0 = 1.
Proof.
  apply (freq_of_linear_phase [[0]; [2 * PI]; [4 * PI]] 1 1%nat
           (fun _ => 0) (fun _ => 1)).
  - lra.
  - simpl. lia.
  - repeat constructor.
  - intros k j Hk Hj. simpl in Hk.
    destruct j as [|j]; [|lia].
    destruct k as [|[|[|k]]]; try lia; simpl; lra.
Defined.

(** *** Integrating a frequency *)

Lemma phase_from_freq_scalar (w : nat) (freq : array) (fs s : R) :
  rect w freq ->
  exists out,
    phase_from_freq freq fs (Scalar s) = OK out
    /\ length out = length freq /\ rect w out
    /\ forall k j, (k < length freq)%nat -> (j < w)%nat ->
         nth j (nth k out []) 0
         = s + sum_f_R0 (fun i => nth j (nth i freq []) 0 / fs * (2 * PI)) k.
Proof.
  intros Hrect.
  set (d := map (map (fun f => f / fs * (2 * PI))) freq).
  assert (Hd : rect w d) by now apply rect_map.
  assert (Hc : rect w (cumsum0 d)) by now apply cumsum0_rect.
  assert (Hld : length d = length freq) by apply length_map.
  exists (map (map (fun y => s + y)) (cumsum0 d)).
  split; [reflexivity|]. split; [now rewrite length_map, length_cumsum0|].
  split; [now apply rect_map|].
  intros k j Hk Hj.
  rewrite nth2_map.
  - rewrite (nth_cumsum0 w) by (assumption || lia). f_equal.
    clear Hk. induction k as [|k IH].
    + simpl. unfold d.
      destruct (Nat.lt_ge_cases 0 (length freq)) as [H0|H0].
      * rewrite nth2_map; [reflexivity | exact H0 | rewrite (rect_nth w); assumption].
      * assert (freq = []) by (apply length_zero_iff_nil; lia). subst freq.
        simpl. destruct j; simpl; lra.
    + simpl. rewrite IH. f_equal. unfold d.
      destruct (Nat.lt_ge_cases (S k) (length freq)) as [H0|H0].
      * rewrite nth2_map; [reflexivity | exact H0 | rewrite (rect_nth w); assumption].
      * rewrite !(nth_overflow _ []) by (rewrite ?length_map; lia).
        destruct j; simpl; lra.
  - rewrite length_cumsum0. lia.
  - rewrite (rect_nth w); [exact Hj | exact Hc | rewrite length_cumsum0; lia].
Qed.

(** X5: [phase_from_freq] with a scalar starting phase accumulates the
    per-sample phase steps [2 pi f / fs]: the first output sample is the start
    plus the first step (not the start itself), and every further sample adds
    the step of its own frequency. *)
Theorem phase_from_freq_accumulates :
  forall (freq : array) (fs s : R) (w : nat),
    fs <> 0 ->
    rect w freq ->
    exists out : array,
      phase_from_freq freq fs (Scalar s) = OK out
      /\ length out = length freq
      /\ (forall j, (0 < length freq)%nat -> (j < w)%nat ->
            nth j (nth 0 out []) 0 = s + 2 * PI * nth j (nth 0 freq []) 0 / fs)
      /\ (forall k j, (S k < length freq)%nat -> (j < w)%nat ->
            nth j (nth (S k) out []) 0
            = nth j (nth k out []) 0 + 2 * PI * nth j (nth (S k) freq []) 0 / fs).
Proof.
  intros freq fs s w Hfs Hrect.
  destruct (phase_from_freq_scalar w freq fs s Hrect) as (out & Hout & Hlen & _ & Hnth).
  exists out. split; [exact Hout|]. split; [exact Hlen|]. split.
  - intros j H0 Hj. rewrite Hnth by assumption. simpl. field. exact Hfs.
  - intros k j Hk Hj. rewrite !Hnth by lia. simpl. field. exact Hfs.
Qed.

Lemma phase_from_freq_accumulates_witness :
  exists out : array,
    phase_from_freq [[1]; [2]] 1 (Scalar 0) = OK out
    /\ length out = 2%nat
    /\ (forall j, (0 < 2)%nat -> (j < 1)%nat ->
          nth j (nth 0 out []) 0 = 0 + 2 * PI * nth j (nth 0 [[1]; [2]] []) 0 / 1)
    /\ (forall k j, (S k < 2)%nat -> (j < 1)%nat ->
          nth j (nth (S k) out []) 0
          = nth j (nth k out []) 0 + 2 * PI * nth j (nth (S k) [[1]; [2]] []) 0 / 1).
Proof.
  apply (phase_from_freq_accumulates [[1]; [2]] 1 0 1%nat).
  - lra.
  - repeat constructor.
Defined.

End FrequencyFacts.

(* ------------------------------------------------------------------------- *)
(** ** More on the quadrature transform *)

Module QuadratureShapeFacts.
Import Py Spectra ListFacts QuadratureFacts.
Local Open Scope R_scope.

(** Mapping [g] over a row-wise pairing of an array with a mask of the
    same shape, when [g] does not depend on the mask entry. *)
Lemma map_zipw_rows {C D} (f : R -> Z -> C) (g : C -> D) (h : R -> D)
    (P : Z -> Prop) (u : list R) (v : list Z) :
  (forall x m, P m -> g (f x m) = h x) ->
  Forall P v -> length u = length v ->
  map g (zipw f u v) = map h u.
Proof.
  intros Hf. revert v; induction u as [|a u IH]; intros [|b v] HP H; simpl in *;
    try discriminate; auto.
  apply Forall_cons_iff in HP. destruct HP as [Hb HP].
  rewrite Hf, IH; [reflexivity | exact HP | now injection H | exact Hb].
Qed.

Lemma map_zipw_array {C D} (f : R -> Z -> C) (g : C -> D) (h : R -> D)
    (P : Z -> Prop) (a : array) (m : list (list Z)) :
  (forall x k, P k -> g (f x k) = h x) ->
  Forall (Forall P) m ->
  length a = length m ->
  (forall t, (t < length a)%nat -> length (nth t a []) = length (nth t m [])) ->
  map (map g) (zipw (zipw f) a m) = map (map h) a.
Proof.
  intros Hf. revert m; induction a as [|r a IH]; intros [|s m] HP Hl Hrows;
    simpl in *; try discriminate; auto.
  apply Forall_cons_iff in HP. destruct HP as [Hs HP].
  rewrite (map_zipw_rows f g h P); [|exact Hf | exact Hs | exact (Hrows 0%nat ltac:(lia))].
  rewrite IH; [reflexivity | exact HP | now injection Hl |].
  intros t Ht. exact (Hrows (S t) ltac:(lia)).
Qed.

Lemma scimath_sqrt_real_nonneg (x : R) : 0 <= scimath_sqrt_real x.
Proof.
  unfold scimath_sqrt_real. destruct (Rlt_dec x 0); [lra | apply sqrt_pos].
Qed.

Lemma map2_id (a : array) : map (map (fun x : R => x)) a = a.
Proof.
  rewrite <- (map_id a) at 2. apply map_ext. intros r. apply map_id.
Qed.

Section RealPart.

Variable amplitude_normalise : array -> bool -> array.

(** X7: the real part of the quadrature transform is the normalised signal
    itself, sample for sample; the transform only adds the imaginary
    companion. *)
Theorem quadrature_real_part_is_normalised :
  forall (X : array) (w : nat),
    let nX := amplitude_normalise X true in
    (2 <= length nX)%nat ->
    rect w nX ->
    exists Zs : carray,
      quadrature_transform amplitude_normalise X = OK Zs
      /\ map (map fst) Zs = nX
      /\ map (map (fun z => Rabs (snd z))) Zs
         = map (map (fun x => scimath_sqrt_real (1 - x ^ 2))) nX.
Proof.
  intros X w nX HT Hw.
  set (mask := inner_mask nX ++ [nth (length nX - 2) (inner_mask nX) []]).
  assert (Hlen : length nX = length mask).
  { unfold mask. rewrite length_app, length_inner_mask. simpl. lia. }
  assert (Hrows : forall t, (t < length nX)%nat ->
            length (nth t nX []) = length (nth t mask [])).
  { intros t Ht. rewrite (PhaseFacts.rect_nth w nX t Hw Ht). unfold mask.
    destruct (Nat.lt_ge_cases t (length nX - 1)) as [Hlt|Hge].
    - rewrite app_nth1 by (rewrite length_inner_mask; lia).
      symmetry. apply (length_nth_inner_mask nX w t Hw). lia.
    - rewrite app_nth2 by (rewrite length_inner_mask; lia).
      rewrite length_inner_mask.
      replace (t - (length nX - 1))%nat with 0%nat by lia. cbn [nth].
      symmetry. apply (length_nth_inner_mask nX w _ Hw). lia. }
  assert (Hsigns : Forall (Forall (fun m => m = (-1)%Z \/ m = 1%Z)) mask).
  { unfold mask. apply Forall_app. split; [apply inner_mask_signs|].
    constructor; [|constructor].
    pose proof (inner_mask_signs nX) as Hall.
    rewrite Forall_forall in Hall. apply Hall, nth_In.
    rewrite length_inner_mask. lia. }
  exists (zipw (zipw quadrature_sample) nX mask).
  split; [|split].
  - unfold Spectra.quadrature_transform. fold nX.
    rewrite quadrature_of_normalised_eq, (quadrature_mask_eq nX HT). reflexivity.
  - rewrite <- (map2_id nX) at 2.
    apply (map_zipw_array _ _ _ (fun _ => True)); auto.
    apply Forall_forall. intros r _. apply Forall_forall. auto.
  - apply (map_zipw_array _ _ _ (fun m => m = (-1)%Z \/ m = 1%Z)); auto.
    intros x k Hk. unfold quadrature_sample. cbn [snd].
    pose proof (scimath_sqrt_real_nonneg (1 - x ^ 2)) as H0.
    destruct Hk as [-> | ->].
    + replace (scimath_sqrt_real (1 - x ^ 2) * IZR (-1))
        with (- scimath_sqrt_real (1 - x ^ 2)) by (simpl; ring).
      rewrite Rabs_Ropp. now apply Rabs_right, Rle_ge.
    + rewrite Rmult_1_r. now apply Rabs_right, Rle_ge.
Qed.

End RealPart.

Lemma quadrature_real_part_is_normalised_witness :
  exists Zs : carray,
    Spectra.quadrature_transform clip_normalise [[0]; [1]] = OK Zs
    /\ map (map fst) Zs = clip_normalise [[0]; [1]] true
    /\ map (map (fun z => Rabs (snd z))) Zs
       = map (map (fun x => scimath_sqrt_real (1 - x ^ 2)))
             (clip_normalise [[0]; [1]] true).
Proof.
  apply (quadrature_real_part_is_normalised clip_normalise [[0]; [1]] 1%nat).
  - simpl. lia.
  - simpl. repeat constructor.
Defined.

End QuadratureShapeFacts.

(* ------------------------------------------------------------------------- *)
(** ** Options of [phase_from_analytic_signal] *)

Module PhaseOptionFacts.
Import Py Spectra.
Local Open Scope R_scope.

Section Options.

Variable wrap_phase : array -> array.
Variable np_angle : carray -> array.
Variable np_unwrap : array -> array.
Variable savgol_filter : array -> Z -> Z -> result array.

Local Abbreviation phase_from_analytic_signal :=
  (Spectra.phase_from_analytic_signal wrap_phase np_angle np_unwrap savgol_filter).

(** X20: [phase_jump] is not validated: any value other than the four
    documented names leaves the phase where the ['peak'] setting leaves it,
    for every input, smoothing window and [ret_phase]. *)
Theorem phase_jump_unrecognised_is_peak :
  forall (analytic_signal : carray) (smoothing : option Z)
         (ret_phase phase_jump : string),
    phase_jump <> "ascending"%string ->
    phase_jump <> "descending"%string ->
    phase_jump <> "trough"%string ->
    phase_from_analytic_signal analytic_signal smoothing ret_phase phase_jump
    = phase_from_analytic_signal analytic_signal smoothing ret_phase "peak".
Proof.
  intros a s rp pj Ha Hd Ht. unfold Spectra.phase_from_analytic_signal.
  apply String.eqb_neq in Ha, Hd, Ht. rewrite Ha, Hd, Ht.
  change (String.eqb "peak" "ascending") with false.
  change (String.eqb "peak" "peak") with true.
  cbv iota. now destruct (String.eqb pj "peak").
Qed.

(** X21: [ret_phase] is not validated either.  With a value other than
    ['wrapped'] and ['unwrapped'] the function raises nothing of its own: it
    returns [None] when no smoothing is requested or the filter accepts the
    window, and passes on the filter's exception otherwise; the phase wrapper
    is not consulted. *)
Theorem ret_phase_unrecognised_is_none :
  forall (analytic_signal : carray) (smoothing : option Z)
         (ret_phase phase_jump : string),
    ret_phase <> "wrapped"%string ->
    ret_phase <> "unwrapped"%string ->
    phase_from_analytic_signal analytic_signal smoothing ret_phase phase_jump
    = match smoothing with
      | None => OK None
      | Some w =>
          match savgol_filter (np_unwrap (np_angle analytic_signal)) w 1 with
          | OK _ => OK None
          | Raise e => Raise e
          end
      end.
Proof.
  intros a s rp pj Hw Hu. unfold Spectra.phase_from_analytic_signal.
  apply String.eqb_neq in Hw, Hu. rewrite Hw, Hu.
  destruct s as [w|]; [|reflexivity].
  now destruct (savgol_filter (np_unwrap (np_angle a)) w 1).
Qed.

End Options.

Lemma phase_jump_unrecognised_is_peak_witness :
  phase_from_analytic_signal (fun a => a) (map (map fst)) (fun a => a)
    (fun a _ _ => OK a) [[(1, 0)]] None "unwrapped" "zero-crossing"
  = phase_from_analytic_signal (fun a => a) (map (map fst)) (fun a => a)
      (fun a _ _ => OK a) [[(1, 0)]] None "unwrapped" "peak".
Proof.
  apply (phase_jump_unrecognised_is_peak (fun a => a) (map (map fst)) (fun a => a)
           (fun a _ _ => OK a) [[(1, 0)]] None "unwrapped" "zero-crossing");
    discriminate.
Defined.

Lemma ret_phase_unrecognised_is_none_witness :
  phase_from_analytic_signal (fun a => a) (map (map fst)) (fun a => a)
    (fun a _ _ => OK a) [[(1, 0)]] (Some 3%Z) "both" "peak"
  = OK None.
Proof.
  apply (ret_phase_unrecognised_is_none (fun a => a) (map (map fst)) (fun a => a)
           (fun a _ _ => OK a) [[(1, 0)]] (Some 3%Z) "both" "peak");
    discriminate.
Defined.

End PhaseOptionFacts.

(* ------------------------------------------------------------------------- *)
(** ** More on histogram bins *)

Module HistBinsShapeFacts.
Import Py HistBins ListFacts HistBinsFacts.
Local Open Scope R_scope.

Lemma nth_removelast {A} (l : list A) (k : nat) (d : A) :
  (S k < length l)%nat -> nth k (removelast l) d = nth k l d.
Proof.
  revert k; induction l as [|x l IH]; intros k H; [simpl in H; lia|].
  destruct l as [|y l]; [simpl in H; lia|].
  change (removelast (x :: y :: l)) with (x :: removelast (y :: l)).
  destruct k as [|k]; [reflexivity|].
  cbn [nth]. apply IH. simpl in *. lia.
Qed.

(** [np.linspace] between two finite numbers: [n + 1] equally spaced
    samples that end exactly on [stop]. *)
Lemma linspace_finite (a b : R) (n : Z) :
  (1 <= n)%Z ->
  exists l,
    linspace (Fin a) (Fin b) (n + 1) = OK l
    /\ length l = S (Z.to_nat n)
    /\ (forall k, (k < Z.to_nat n)%nat ->
          nth k l NaN = Fin (a + INR k * ((b - a) / IZR n)))
    /\ nth (Z.to_nat n) l NaN = Fin b.
Proof.
  intros Hn.
  assert (Hn0 : IZR n <> 0) by (apply not_0_IZR; lia).
  unfold linspace.
  destruct (Z.ltb_spec (n + 1) 0) as [?|_]; [lia|].
  replace (n + 1 - 1)%Z with n by lia.
  destruct (Z.ltb_spec 0 n) as [_|?]; [|lia].
  destruct (Z.ltb_spec 1 (n + 1)) as [_|?]; [|lia].
  replace (Z.to_nat (n + 1)) with (S (Z.to_nat n)) by lia.
  set (m := Z.to_nat n).
  assert (Hstep : xdiv (xsub (Fin b) (Fin a)) (Fin (IZR n)) = Fin ((b + - a) / IZR n)).
  { unfold xsub, xneg, xadd, xdiv. destruct (Req_dec_T (IZR n) 0); [contradiction|reflexivity]. }
  rewrite Hstep.
  assert (Hy : exists F : nat -> xfloat,
            (forall k, F k = Fin (a + INR k * ((b - a) / IZR n)))
            /\ map (fun v => xadd v (Fin a))
                 (if xeq0 (Fin ((b + - a) / IZR n))
                  then map (fun v => xmul (xdiv v (Fin (IZR n))) (xsub (Fin b) (Fin a)))
                           (map (fun k => Fin (INR k)) (seq 0 (S m)))
                  else map (fun v => xmul v (Fin ((b + - a) / IZR n)))
                           (map (fun k => Fin (INR k)) (seq 0 (S m))))
               = map F (seq 0 (S m))).
  { exists (fun k => Fin (a + INR k * ((b - a) / IZR n))). split; [reflexivity|].
    destruct (xeq0 (Fin ((b + - a) / IZR n))); rewrite !map_map; apply map_ext; intros k.
    - unfold xdiv, xsub, xneg, xadd, xmul.
      destruct (Req_dec_T (IZR n) 0); [contradiction|]. f_equal. field. exact Hn0.
    - unfold xmul, xadd. f_equal. field. exact Hn0. }
  destruct Hy as (F & HF & Hy). rewrite Hy.
  exists (removelast (map F (seq 0 (S m))) ++ [Fin b]).
  split; [reflexivity|].
  assert (Hlen : length (removelast (map F (seq 0 (S m)))) = m).
  { rewrite BinningFacts.removelast_map, BinningFacts.removelast_seq, length_map, length_seq. lia. }
  split; [rewrite length_app, Hlen; simpl; lia|]. split.
  - intros k Hk. rewrite app_nth1 by lia.
    rewrite nth_removelast by (rewrite length_map, length_seq; lia).
    rewrite (nth_map_seq F 0 (S m) k NaN) by lia. apply HF.
  - rewrite app_nth2 by lia. rewrite Hlen, Nat.sub_diag. reflexivity.
Qed.

(** The centres are the midpoints of consecutive finite edges. *)
Lemma centres_of_finite_edges (edges : list xfloat) (e : nat -> R) (m : nat) :
  length edges = S m ->
  (forall k, (k <= m)%nat -> nth k edges NaN = Fin (e k)) ->
  let centres :=
    map (fun ii => xdiv (xadd (nth ii edges NaN) (nth (ii + 1) edges NaN)) (Fin 2))
        (seq 0 (length edges - 1)) in
  length centres = m
  /\ forall i, (i < m)%nat -> nth i centres NaN = Fin ((e i + e (S i)) / 2).
Proof.
  intros Hlen He centres. unfold centres. rewrite Hlen.
  replace (S m - 1)%nat with m by lia.
  split; [now rewrite length_map, length_seq|].
  intros i Hi. rewrite (nth_map_seq _ 0 m i NaN) by exact Hi.
  cbn [Nat.add]. replace (i + 1)%nat with (S i) by lia.
  rewrite !He by lia. unfold xadd, xdiv.
  destruct (Req_dec_T 2 0); [lra | reflexivity].
Qed.

Lemma define_hist_bins_linear_entries (a b : R) (n : Z) :
  (1 <= n)%Z ->
  let m := Z.to_nat n in
  let e := fun k => if (k <? m)%nat then a + INR k * ((b - a) / IZR n) else b in
  exists edges centres,
    define_hist_bins (Fin a) (Fin b) n "linear" = OK (edges, centres)
    /\ length edges = S m /\ length centres = m
    /\ (forall k, (k <= m)%nat -> nth k edges NaN = Fin (e k))
    /\ (forall i, (i < m)%nat -> nth i centres NaN = Fin ((e i + e (S i)) / 2)).
Proof.
  intros Hn m e.
  destruct (linspace_finite a b n Hn) as (l & Hl & Hlen & Hk & Hlast).
  fold m in Hlen, Hk, Hlast.
  assert (He : forall k, (k <= m)%nat -> nth k l NaN = Fin (e k)).
  { intros k Hkm. unfold e. destruct (Nat.ltb_spec k m) as [Hlt|Hge].
    - now apply Hk.
    - replace k with m by lia. exact Hlast. }
  destruct (centres_of_finite_edges l e m Hlen He) as [Hc1 Hc2].
  unfold define_hist_bins. cbn [String.eqb Ascii.eqb Bool.eqb].
  rewrite Hl. cbn [rbind].
  eexists. eexists. split; [reflexivity|]. repeat split; assumption.
Qed.

(** X8: on a linear scale with [nbins >= 1] there are [nbins + 1] edges
    and [nbins] centres; the first edge is [data_min] and the last edge is
    exactly [data_max] (it is assigned, not computed). *)
Theorem define_hist_bins_linear_layout :
  forall (a b : R) (n : Z),
    (1 <= n)%Z ->
    exists (edges centres : list xfloat),
      define_hist_bins (Fin a) (Fin b) n "linear" = OK (edges, centres)
      /\ length edges = S (Z.to_nat n) /\ length centres = Z.to_nat n
      /\ nth 0 edges NaN = Fin a
      /\ nth (Z.to_nat n) edges NaN = Fin b.
Proof.
  intros a b n Hn.
  assert (Hn0 : IZR n <> 0) by (apply not_0_IZR; lia).
  destruct (define_hist_bins_linear_entries a b n Hn)
    as (edges & centres & H & Hl1 & Hl2 & He & _).
  exists edges, centres.
  split; [exact H|]. split; [exact Hl1|]. split; [exact Hl2|]. split.
  - rewrite He by lia. destruct (Nat.ltb_spec 0 (Z.to_nat n)) as [_|?]; [|lia].
    f_equal. simpl. field. exact Hn0.
  - rewrite He by lia. now rewrite Nat.ltb_irrefl.
Qed.

Lemma define_hist_bins_linear_layout_witness :
  exists (edges centres : list xfloat),
    define_hist_bins (Fin 0) (Fin 10) 5 "linear" = OK (edges, centres)
    /\ length edges = 6%nat /\ length centres = 5%nat
    /\ nth 0 edges NaN = Fin 0
    /\ nth 5 edges NaN = Fin 10.
Proof.
  apply (define_hist_bins_linear_layout 0 10 5). lia.
Defined.





(** X12: the failures of [define_hist_bins_from_data].  Data without
    elements raises [ValueError] whatever the other arguments; with data,
    a missing [nbins] and a [mode] other than ['sqrt'] raise [ValueError]
    even when the scale is valid; and a given [nbins] makes the result
    independent of [mode]. *)
Theorem define_hist_bins_from_data_failures :
  forall (X : list (list R)) (nbins : option Z) (mode mode' scale : string) (n : Z),
    (concat X = [] ->
       exists msg, define_hist_bins_from_data X nbins mode scale = Raise (ValueError msg))
    /\ (concat X <> [] -> mode <> "sqrt"%string ->
         exists msg, define_hist_bins_from_data X None mode scale = Raise (ValueError msg))
    /\ define_hist_bins_from_data X (Some n) mode scale
       = define_hist_bins_from_data X (Some n) mode' scale.
Proof.
  intros X nbins mode mode' scale n.
  unfold define_hist_bins_from_data, array_min, array_max. split; [|split].
  - intros ->. eexists. reflexivity.
  - intros Hne Hmode. destruct (concat X) as [|x l]; [now destruct Hne|].
    cbn [rbind]. apply String.eqb_neq in Hmode. rewrite Hmode.
    eexists. reflexivity.
  - reflexivity.
Qed.

Lemma define_hist_bins_from_data_failures_witness :
  (exists msg, define_hist_bins_from_data [] None "sqrt" "linear"
               = Raise (ValueError msg))
  /\ (exists msg, define_hist_bins_from_data [[1]; [2]] None "fd" "linear"
                  = Raise (ValueError msg)).
Proof.
  split.
  - apply (proj1 (define_hist_bins_from_data_failures [] None "sqrt" "sqrt" "linear" 0)).
    reflexivity.
  - apply (proj1 (proj2 (define_hist_bins_from_data_failures [[1]; [2]] None "fd" "fd"
                           "linear" 0))); discriminate.
Defined.

End HistBinsShapeFacts.

(* ------------------------------------------------------------------------- *)
(** ** More on the spectral aggregators *)

Module AggregatorFacts.
Import Py Binning ListFacts BinningFacts.
Local Open Scope nat_scope.

Lemma map_const_seq {A} (x : A) (a n : nat) : map (fun _ => x) (seq a n) = repeat x n.
Proof.
  revert a; induction n as [|n IH]; intros a; simpl; [reflexivity|]. now rewrite IH.
Qed.

Lemma ncols_map {A B} (f : A -> B) (a : list (list A)) :
  ncols (map (map f) a) = ncols a.
Proof.
  unfold ncols. destruct a as [|r a]; simpl; [reflexivity | apply length_map].
Qed.

(** X13: [hilberthuang_1d] does not reject a [mode] that is neither
    ['power'] nor ['energy']: with usable edges it returns a spectrum of the
    usual shape in which every cell is zero. *)
Theorem hilberthuang_1d_unknown_mode_is_zero :
  forall (infr inam : array2) (fbins : list Q) (mode : string),
    mode <> "power"%string ->
    mode <> "energy"%string ->
    fbins <> [] ->
    monotonicity fbins <> 0%Z ->
    hilberthuang_1d infr inam fbins mode
    = OK (repeat (repeat fzero (ncols infr)) (length fbins - 1)).
Proof.
  intros infr inam fbins mode Hp He Hne Hmono.
  apply String.eqb_neq in Hp, He.
  unfold hilberthuang_1d.
  destruct fbins as [|b r]; [now destruct Hne|]. cbn [length Nat.eqb].
  unfold digitize2. rewrite (check_bins_ok _ Hmono). cbn [rbind].
  rewrite Hp, He, !ncols_map. f_equal.
  rewrite <- (map_const_seq (repeat fzero (ncols infr)) 0 (S (length r) - 1)).
  apply map_ext. intros ii. apply map_const_seq.
Qed.

Lemma hilberthuang_1d_unknown_mode_is_zero_witness :
  hilberthuang_1d [[Fin (1 # 2)]; [Fin (3 # 2)]] [[Fin 2]; [Fin 3]] [0; 1; 2]%Q "amplitude"
  = OK [[Fin 0]; [Fin 0]].
Proof.
  apply (hilberthuang_1d_unknown_mode_is_zero
           [[Fin (1 # 2)]; [Fin (3 # 2)]] [[Fin 2]; [Fin 3]] [0; 1; 2]%Q "amplitude");
    discriminate.
Defined.

(** *** Which samples [np.digitize] numbers [i] *)

Lemma searchsorted_right_spec (bins : list Q) (q : Q) :
  let k := searchsorted_right bins (Fin q) in
  (forall i, i < k -> Qle_bool (nth i bins 0%Q) q = true)
  /\ (k < length bins -> Qle_bool (nth k bins 0%Q) q = false).
Proof.
  induction bins as [|b r IH]; cbn [searchsorted_right].
  - split; [intros i Hi; lia | simpl; lia].
  - destruct (Qle_bool b q) eqn:Hb.
    + destruct IH as [IH1 IH2]. split.
      * intros [|i] Hi; [exact Hb|]. cbn [nth]. apply IH1. lia.
      * intros Hk. cbn [nth]. apply IH2. simpl in Hk. lia.
    + split; [intros i Hi; lia | intros _; exact Hb].
Qed.

Lemma searchsorted_right_nan (bins : list Q) : searchsorted_right bins NaN = length bins.
Proof.
  induction bins as [|b r IH]; simpl; [reflexivity | now rewrite IH].
Qed.

(** On non-decreasing edges a sample is numbered [S i] exactly when it lies
    in bin [i]. *)
Lemma digitize_number_is_bin (bins : list Q) (i : nat) (x : fnum) :
  nondecreasing bins = true ->
  S i < length bins ->
  (searchsorted_right bins x =? S i) = in_bin bins i x.
Proof.
  intros Hs Hi. destruct x as [q|].
  - destruct (in_bin bins i (Fin q)) eqn:Hbin.
    + rewrite (searchsorted_right_in_bin bins i q Hs Hi Hbin). apply Nat.eqb_refl.
    + apply Nat.eqb_neq. intros Hk.
      destruct (searchsorted_right_spec bins q) as [H1 H2]. rewrite Hk in H1, H2.
      unfold in_bin in Hbin. rewrite (H1 i), (H2 Hi) in Hbin by lia. discriminate.
  - rewrite searchsorted_right_nan. cbn [in_bin]. apply Nat.eqb_neq. lia.
Qed.

(** A sample is numbered 0 exactly when it is a number below the first
    edge. *)
Lemma digitize_number_zero (b : Q) (r : list Q) (x : fnum) :
  (searchsorted_right (b :: r) x =? 0) = flt x (Fin b).
Proof.
  destruct x as [q|]; cbn [searchsorted_right flt]; [|reflexivity].
  destruct (Qle_bool b q); reflexivity.
Qed.

Lemma nondecreasing_nth_le (bins : list Q) (i j : nat) :
  nondecreasing bins = true -> i <= j -> j < length bins ->
  (nth i bins 0 <= nth j bins 0)%Q.
Proof.
  revert i j; induction bins as [|b r IH]; intros i j Hs Hij Hj; [simpl in Hj; lia|].
  destruct i as [|i].
  - destruct j as [|j]; [apply Qle_refl|].
    cbn [nth]. apply nondecreasing_head_le; [exact Hs | simpl in Hj; lia].
  - destruct j as [|j]; [lia|]. cbn [nth].
    apply IH; [now apply nondecreasing_tail with b | lia | simpl in Hj; lia].
Qed.

(** *** The rows of [hilberthuang_1d] *)

Lemma blanked_number (fbins : list Q) (ii : nat) (x : fnum) :
  nondecreasing fbins = true ->
  S ii < length fbins ->
  (searchsorted_right fbins (blanked fbins x) =? ii)
  = match ii with 0 => false | S i => in_bin fbins i x end.
Proof.
  intros Hs Hii.
  assert (Hnan : (searchsorted_right fbins NaN =? ii) = false).
  { rewrite searchsorted_right_nan. apply Nat.eqb_neq. lia. }
  destruct x as [q|]; [|unfold blanked; cbn [flt fgt]; rewrite Hnan; now destruct ii].
  unfold blanked. cbn [flt].
  destruct (Qle_bool (nth 0 fbins 0%Q) q) eqn:Hlo; cbn [negb].
  - unfold fgt. cbn [flt].
    destruct (Qle_bool q (last fbins 0%Q)) eqn:Hhi; cbn [negb].
    + destruct ii as [|i]; [|apply digitize_number_is_bin; [exact Hs | lia]].
      destruct fbins as [|b r]; [simpl in Hii; lia|].
      rewrite digitize_number_zero. cbn [flt nth] in *. now rewrite Hlo.
    + cbn [flt fgt]. rewrite Hnan. destruct ii as [|i]; [reflexivity|].
      symmetry. unfold in_bin. apply andb_false_iff. right. apply negb_false_iff.
      apply Qle_bool_iff.
      assert (Hq : (last fbins 0 < q)%Q).
      { apply Qnot_le_lt. intros H. apply Qle_bool_iff in H. congruence. }
      apply Qle_trans with (last fbins 0%Q); [|now apply Qlt_le_weak].
      rewrite last_as_nth. apply nondecreasing_nth_le; [exact Hs | lia | lia].
  - cbn [fgt flt]. rewrite Hnan. destruct ii as [|i]; [reflexivity|].
    symmetry. unfold in_bin. apply andb_false_iff. left.
    destruct (Qle_bool (nth i fbins 0%Q) q) eqn:Hi; [|reflexivity].
    apply Qle_bool_iff in Hi.
    assert (H0 : (nth 0 fbins 0 <= q)%Q).
    { apply Qle_trans with (nth i fbins 0%Q); [|exact Hi].
      apply nondecreasing_nth_le; [exact Hs | lia | lia]. }
    apply Qle_bool_iff in H0. congruence.
Qed.

Lemma column_map {A B} (f : A -> B) (da : A) (db : B) (n jj : nat) (a : list (list A)) :
  Forall (fun r => length r = n) a -> jj < n ->
  column db jj (map (map f) a) = map f (column da jj a).
Proof.
  intros H Hj. unfold column. rewrite !map_map.
  apply map_ext_in. intros r Hr. rewrite Forall_forall in H.
  rewrite (nth_indep _ db (f da)) by (rewrite length_map, (H r Hr); exact Hj).
  apply map_nth.
Qed.

Lemma mask_select_none {A B} (l : list B) (a : list A) :
  mask_select (map (fun _ => false) l) a = [].
Proof.
  unfold mask_select. revert a; induction l as [|x l IH]; intros [|y a]; simpl; auto.
Qed.

(** X14: on non-decreasing edges and arrays of [n0 >= 1] time samples by
    [n1] IMFs, [hilberthuang_1d] in energy mode returns one row per bin; row
    0 is zero everywhere, and row [i + 1] holds, for each IMF, the sum of
    the squared non-NaN amplitudes of the samples whose frequency lies in
    bin [i].  (The samples of the last bin thus have no row.) *)
Theorem hilberthuang_1d_rows :
  forall (infr inam : array2) (fbins : list Q) (n0 n1 : nat),
    nondecreasing fbins = true ->
    fbins <> [] ->
    0 < n0 ->
    shape2 n0 n1 infr ->
    shape2 n0 n1 inam ->
    exists spec : list (list fnum),
      hilberthuang_1d infr inam fbins "energy" = OK spec
      /\ shape2 (length fbins - 1) n1 spec
      /\ (forall jj, jj < n1 -> 0 < length fbins - 1 ->
            nth jj (nth 0 spec []) NaN = fzero)
      /\ (forall i jj, S i < length fbins - 1 -> jj < n1 ->
            nth jj (nth (S i) spec []) NaN
            = nansum (map fsq (mask_select (map (in_bin fbins i) (column NaN jj infr))
                                           (column NaN jj inam)))).
Proof.
  intros infr inam fbins n0 n1 Hs Hne Hpos [Hlen Hrows] Hinam.
  assert (Hmono : monotonicity fbins = 1%Z) by (unfold monotonicity; now rewrite Hs).
  unfold hilberthuang_1d.
  destruct (Nat.eqb_spec (length fbins) 0) as [H0|_].
  { apply length_zero_iff_nil in H0. contradiction. }
  unfold digitize2, check_bins. rewrite Hmono. cbn [Z.eqb rbind].
  rewrite !map_map.
  set (num := fun x => digitize_elem fbins 1 (blanked fbins x)).
  assert (Hfinds : map (fun r => map (digitize_elem fbins 1)
                     (map (fun x => if fgt x (Fin (last fbins 0%Q)) then NaN else x)
                        (map (fun x => if flt x (Fin (nth 0 fbins 0%Q)) then NaN else x) r)))
                     infr
                   = map (map num) infr).
  { apply map_ext. intros r. rewrite !map_map. reflexivity. }
  rewrite Hfinds.
  assert (Hncols : ncols (map (fun r => map (fun x => if fgt x (Fin (last fbins 0%Q)) then NaN else x)
                     (map (fun x => if flt x (Fin (nth 0 fbins 0%Q)) then NaN else x) r)) infr) = n1).
  { destruct infr as [|r infr]; [simpl in Hlen; lia|].
    unfold ncols. cbn [map nth]. rewrite !length_map.
    apply Forall_cons_iff in Hrows. apply Hrows. }
  rewrite Hncols.
  set (cell := fun ii jj =>
         nansum (map fsq (mask_select (map (fun f => f =? ii) (column 0 jj (map (map num) infr)))
                                      (column NaN jj inam)))).
  assert (Hcell : forall ii jj, S ii < length fbins -> jj < n1 ->
            cell ii jj
            = nansum (map fsq (mask_select
                       (map (fun x => match ii with 0 => false | S i => in_bin fbins i x end)
                            (column NaN jj infr))
                       (column NaN jj inam)))).
  { intros ii jj Hii Hjj. unfold cell.
    rewrite (column_map num NaN 0 n1 jj infr Hrows Hjj), map_map.
    do 3 f_equal. apply map_ext. intros x. unfold num, digitize_elem. cbn [Z.eqb].
    now apply blanked_number. }
  exists (map (fun ii => map (cell ii) (seq 0 n1)) (seq 0 (length fbins - 1))).
  split; [reflexivity|]. split; [|split].
  - split; [now rewrite length_map, length_seq|].
    apply Forall_map, Forall_forall. intros ii _. now rewrite length_map, length_seq.
  - intros jj Hjj Hrow0.
    rewrite (nth_map_seq _ 0 _ 0 []) by exact Hrow0.
    rewrite (nth_map_seq _ 0 n1 jj NaN) by exact Hjj.
    cbn [Nat.add]. rewrite Hcell by lia.
    now rewrite mask_select_none.
  - intros i jj Hi Hjj.
    rewrite (nth_map_seq _ 0 _ (S i) []) by lia.
    rewrite (nth_map_seq _ 0 n1 jj NaN) by exact Hjj.
    cbn [Nat.add]. now rewrite Hcell by lia.
Qed.

Lemma hilberthuang_1d_rows_witness :
  let infr := [[Fin (1 # 2)]; [Fin (3 # 2)]] in
  let inam := [[Fin 2]; [Fin 3]] in
  let fbins := [0; 1; 2]%Q in
  exists spec : list (list fnum),
    hilberthuang_1d infr inam fbins "energy" = OK spec
    /\ shape2 (length fbins - 1) 1 spec
    /\ (forall jj, jj < 1 -> 0 < length fbins - 1 ->
          nth jj (nth 0 spec []) NaN = fzero)
    /\ (forall i jj, S i < length fbins - 1 -> jj < 1 ->
          nth jj (nth (S i) spec []) NaN
          = nansum (map fsq (mask_select (map (in_bin fbins i) (column NaN jj infr))
                                         (column NaN jj inam)))).
Proof.
  apply (hilberthuang_1d_rows [[Fin (1 # 2)]; [Fin (3 # 2)]] [[Fin 2]; [Fin 3]]
           [0; 1; 2]%Q 2 1).
  - reflexivity.
  - discriminate.
  - lia.
  - split; [reflexivity | repeat constructor].
  - split; [reflexivity | repeat constructor].
Defined.

(** *** The cells of [hilberthuang] *)

Lemma mask_select_nil_r {A} (m : list bool) : mask_select m (@nil A) = [].
Proof. unfold mask_select. now destruct m. Qed.

Lemma mask_select_cons {A} (b : bool) (m : list bool) (x : A) (a : list A) :
  mask_select (b :: m) (x :: a) = if b then x :: mask_select m a else mask_select m a.
Proof. unfold mask_select. simpl. now destruct b. Qed.

Lemma mask_select_combine {A B} (m : list bool) (a : list A) (b : list B) :
  combine (mask_select m a) (mask_select m b) = mask_select m (combine a b).
Proof.
  revert a b; induction m as [|c m IH]; intros a b; [reflexivity|].
  destruct a as [|x a]; [now rewrite !mask_select_nil_r|].
  destruct b as [|y b].
  { cbn [combine]. rewrite !mask_select_nil_r. apply combine_nil. }
  cbn [combine]. rewrite !mask_select_cons. destruct c; cbn [combine]; now rewrite IH.
Qed.

Lemma mask_select_by_row {A} (g : nat -> bool) (data : list A) (ys xs : list nat) :
  mask_select (map g ys) (combine data (combine ys xs))
  = filter (fun e => g (fst (snd e))) (combine data (combine ys xs)).
Proof.
  revert data xs; induction ys as [|y ys IH]; intros data xs.
  - destruct data; reflexivity.
  - destruct data as [|d data]; [reflexivity|].
    destruct xs as [|x xs].
    { cbn [combine filter]. apply mask_select_nil_r. }
    cbn [combine map filter fst snd]. rewrite mask_select_cons, IH. reflexivity.
Qed.

Lemma filter_filter {A} (p q : A -> bool) (l : list A) :
  filter p (filter q l) = filter (fun x => q x && p x) l.
Proof.
  induction l as [|x l IH]; [reflexivity|].
  cbn [filter]. destruct (q x); cbn [filter andb]; [destruct (p x)|]; now rewrite IH.
Qed.

Lemma combine_app {A B} (l1 l2 : list A) (k1 k2 : list B) :
  length l1 = length k1 ->
  combine (l1 ++ l2) (k1 ++ k2) = combine l1 k1 ++ combine l2 k2.
Proof.
  revert k1; induction l1 as [|x l1 IH]; intros [|y k1] H; simpl in *;
    try discriminate; auto.
  rewrite IH; [reflexivity | now injection H].
Qed.

(** The entries that one time sample contributes to cell [(r, t0)]. *)
Lemma row_cells {A} (ra : list A) (y : list nat) (a r t0 : nat) :
  length ra = length y ->
  map fst (filter (fun e => (fst (snd e) =? r) && (snd (snd e) =? t0))
                  (combine ra (combine y (repeat a (length y)))))
  = if a =? t0 then mask_select (map (fun v => v =? r) y) ra else [].
Proof.
  revert ra; induction y as [|v y IH]; intros [|d ra] H; simpl in H; try discriminate.
  - now destruct (a =? t0).
  - cbn [length repeat combine filter fst snd map].
    rewrite mask_select_cons.
    assert (IH' := IH ra ltac:(lia)).
    destruct (a =? t0) eqn:Ea.
    + rewrite andb_true_r. destruct (v =? r); cbn [map]; now rewrite IH'.
    + rewrite andb_false_r. exact IH'.
Qed.

Lemma cells_of_rows {A} (n : nat) (Y : list (list nat)) (As : list (list A))
    (a r t0 : nat) :
  length As = length Y ->
  Forall (fun row => length row = n) As ->
  Forall (fun row => length row = n) Y ->
  map fst (filter (fun e => (fst (snd e) =? r) && (snd (snd e) =? t0))
                  (combine (concat As)
                     (combine (concat Y)
                        (concat (map (fun t => repeat t n) (seq a (length Y)))))))
  = if (a <=? t0) && (t0 <? a + length Y)
    then mask_select (map (fun v => v =? r) (nth (t0 - a) Y [])) (nth (t0 - a) As [])
    else [].
Proof.
  revert As a; induction Y as [|y Y IH]; intros As a Hlen HA HY.
  - cbn [concat combine]. rewrite combine_nil. cbn [filter map length].
    destruct (Nat.leb_spec a t0), (Nat.ltb_spec t0 (a + 0)); try reflexivity; lia.
  - destruct As as [|ra As]; [simpl in Hlen; lia|].
    apply Forall_cons_iff in HA, HY. destruct HA as [Hra HA], HY as [Hy HY].
    cbn [length seq map concat].
    rewrite (combine_app y (concat Y)) by (now rewrite repeat_length).
    rewrite (combine_app ra (concat As))
      by (rewrite length_combine, repeat_length, Hra, Hy; now rewrite Nat.min_id).
    rewrite filter_app, map_app.
    rewrite <- Hy at 1. rewrite row_cells by (now rewrite Hra, Hy).
    rewrite (IH As (S a)) by (assumption || (simpl in Hlen; lia)).
    destruct (Nat.eqb_spec a t0) as [->|Hne].
    + rewrite Nat.sub_diag. cbn [nth].
      destruct (Nat.leb_spec (S t0) t0); [lia|]. cbn [andb]. rewrite app_nil_r.
      destruct (Nat.leb_spec t0 t0), (Nat.ltb_spec t0 (t0 + S (length Y))); try lia.
      reflexivity.
    + cbn [app].
      destruct (Nat.leb_spec (S a) t0) as [Hle|Hgt].
      * destruct (Nat.leb_spec a t0); [|lia].
        replace (t0 - a) with (S (t0 - S a)) by lia. cbn [nth andb].
        destruct (Nat.ltb_spec t0 (S a + length Y)), (Nat.ltb_spec t0 (a + S (length Y)));
          try reflexivity; lia.
      * cbn [andb].
        destruct (Nat.leb_spec a t0); [lia | reflexivity].
Qed.

Lemma length_mask_select {A B} (m : list bool) (a : list A) (b : list B) :
  length a = length b -> length (mask_select m a) = length (mask_select m b).
Proof.
  revert a b; induction m as [|c m IH]; intros [|x a] [|y b] H; simpl in H;
    try discriminate; try reflexivity.
  rewrite !mask_select_cons. destruct c; cbn [length]; rewrite (IH a b); auto.
Qed.

Lemma Forall_mask_select {A} (P : A -> Prop) (m : list bool) (a : list A) :
  Forall P a -> Forall P (mask_select m a).
Proof.
  revert a; induction m as [|c m IH]; intros [|x a] H;
    try (unfold mask_select; simpl; constructor).
  apply Forall_cons_iff in H. destruct H as [Hx H].
  rewrite mask_select_cons. destruct c; [constructor|]; auto.
Qed.

Lemma Forall_mask_select_self (g : nat -> bool) (ys : list nat) :
  Forall (fun y => g y = true) (mask_select (map g ys) ys).
Proof.
  induction ys as [|y ys IH]; [constructor|].
  cbn [map]. rewrite mask_select_cons. destruct (g y) eqn:E; [constructor|]; auto.
Qed.

Lemma Forall_concat_repeat (n0 n : nat) :
  Forall (fun c => c < n0) (concat (map (fun t => repeat t n) (seq 0 n0))).
Proof.
  apply Forall_concat, Forall_map, Forall_forall. intros t Ht. apply in_seq in Ht.
  apply Forall_repeat. lia.
Qed.

(** X15: on non-decreasing edges (at least two) and arrays of [n0 >= 1]
    time samples by [n1] IMFs, [hilberthuang] returns a dense array with
    one row per bin and one column per time sample.  Cell [(0, t)] is the
    sum of the magnitudes of the IMFs whose frequency at time [t] is below
    the first edge; cell [(i + 1, t)] is the sum over the IMFs whose
    frequency at time [t] lies in bin [i].  The magnitude is the squared
    amplitude in energy mode and the amplitude in every other mode. *)
Theorem hilberthuang_cells :
  forall (infr inam : array2) (freq_edges : list Q) (mode : string) (n0 n1 : nat),
    nondecreasing freq_edges = true ->
    2 <= length freq_edges ->
    0 < n0 ->
    shape2 n0 n1 infr ->
    shape2 n0 n1 inam ->
    let magnitude := fun a => if String.eqb mode "energy" then fsq a else a in
    exists dense : list (list fnum),
      hilberthuang infr inam freq_edges mode false = OK (Dense dense)
      /\ shape2 (length freq_edges - 1) n0 dense
      /\ forall r t, r < length freq_edges - 1 -> t < n0 ->
           nth t (nth r dense []) NaN
           = fsum (mask_select
                     (map (fun x => match r with
                                    | 0 => flt x (Fin (nth 0 freq_edges 0%Q))
                                    | S i => in_bin freq_edges i x
                                    end) (nth t infr []))
                     (map magnitude (nth t inam []))).
Proof.
  intros infr inam edges mode n0 n1 Hs Hlen2 Hpos [Hlen Hrows] [Hlena Hrowsa] magnitude.
  assert (Hmono : monotonicity edges = 1%Z) by (unfold monotonicity; now rewrite Hs).
  unfold hilberthuang, digitize2, check_bins. rewrite Hmono. cbn [Z.eqb rbind].
  set (dz := digitize_elem edges 1).
  set (amps := if String.eqb mode "energy" then map (map fsq) inam else inam).
  assert (Hamps : amps = map (map magnitude) inam).
  { unfold amps, magnitude. destruct (String.eqb mode "energy"); [reflexivity|].
    rewrite <- (map_id inam) at 1. apply map_ext. intros r. symmetry. apply map_id. }
  rewrite Hamps.
  assert (HAm : Forall (fun r => length r = n1) (map (map magnitude) inam)).
  { apply Forall_map. eapply Forall_impl; [|exact Hrowsa]. intros r Hr. now rewrite length_map. }
  assert (HY : Forall (fun r => length r = n1) (map (map dz) infr)).
  { apply Forall_map. eapply Forall_impl; [|exact Hrows]. intros r Hr. now rewrite length_map. }
  assert (Hnc : ncols (map (map dz) infr) = n1).
  { destruct infr as [|r infr]; [simpl in Hlen; lia|].
    unfold ncols. cbn [map nth]. rewrite length_map.
    apply Forall_cons_iff in Hrows. apply Hrows. }
  rewrite Hnc, !length_map, length_seq, Hlen.
  set (data := concat (map (map magnitude) inam)).
  set (ys := concat (map (map dz) infr)).
  set (xs := concat (map (fun t => repeat t n1) (seq 0 n0))).
  set (good := fun y => (Z.of_nat y <? Z.of_nat (length edges) - 1)%Z || (y =? 0)).
  assert (Hld : length data = n0 * n1).
  { apply length_concat_shape2. split; [now rewrite length_map|exact HAm]. }
  assert (Hly : length ys = n0 * n1).
  { apply length_concat_shape2. split; [now rewrite length_map|exact HY]. }
  assert (Hlx : length xs = n0 * n1).
  { apply length_concat_shape2. split; [now rewrite length_map, length_seq|].
    apply Forall_map, Forall_true. intros t. apply repeat_length. }
  replace (Z.of_nat (length edges) - 1)%Z with (Z.of_nat (length edges - 1)) by lia.
  rewrite (coo_matrix_eq _ _ _ (length edges - 1) n0).
  2:{ apply length_mask_select. now rewrite Hly, Hld. }
  2:{ apply length_mask_select. now rewrite Hlx, Hld. }
  2:{ eapply Forall_impl; [|apply (Forall_mask_select_self good ys)].
      intros y Hy. unfold good in Hy. apply orb_prop in Hy.
      destruct Hy as [Hy|Hy]; [apply Z.ltb_lt in Hy; lia | apply Nat.eqb_eq in Hy; lia]. }
  2:{ apply Forall_mask_select, Forall_concat_repeat. }
  cbn [rbind].
  eexists. split; [reflexivity|].
  unfold toarray. cbn [coo_rows coo_cols].
  split.
  { split; [now rewrite length_map, length_seq|].
    apply Forall_map, Forall_forall. intros r _. now rewrite length_map, length_seq. }
  intros r t Hr Ht.
  rewrite (nth_map_seq _ 0 _ r []) by exact Hr.
  rewrite (nth_map_seq _ 0 n0 t NaN) by exact Ht.
  cbn [Nat.add]. f_equal.
  unfold cell_values, coo_entries. cbn [coo_data coo_row coo_col].
  rewrite !mask_select_combine. fold good.
  rewrite (mask_select_by_row good data ys xs), filter_filter.
  rewrite (filter_ext _ (fun e => (fst (snd e) =? r) && (snd (snd e) =? t))).
  2:{ intros [d [y x]]. cbn [fst snd]. unfold good.
      destruct (Nat.eqb_spec y r) as [->|Hne]; [|now rewrite andb_false_r].
      destruct (Z.ltb_spec (Z.of_nat r) (Z.of_nat (length edges) - 1)); [reflexivity | lia]. }
  unfold data, ys, xs.
  replace n0 with (length (map (map dz) infr)) at 1 by (now rewrite length_map).
  rewrite (cells_of_rows n1 _ _ 0 r t); [| now rewrite !length_map, Hlen, Hlena | exact HAm | exact HY].
  rewrite length_map, Hlen.
  destruct (Nat.leb_spec 0 t); [|lia]. destruct (Nat.ltb_spec t (0 + n0)); [|lia].
  cbn [andb]. rewrite Nat.sub_0_r.
  change (@nil fnum) with (map magnitude []) at 1.
  rewrite (map_nth (map magnitude) inam [] t).
  change (@nil nat) with (map dz []).
  rewrite (map_nth (map dz) infr [] t), map_map.
  f_equal. apply map_ext. intros x. unfold dz, digitize_elem. cbn [Z.eqb].
  destruct r as [|i].
  - destruct edges as [|b rest]; [simpl in Hlen2; lia|]. apply digitize_number_zero.
  - apply digitize_number_is_bin; [exact Hs | lia].
Qed.

Lemma hilberthuang_cells_witness :
  let infr := [[Fin (1 # 2)]; [Fin (3 # 2)]; [Fin (-1)]] in
  let inam := [[Fin 2]; [Fin 3]; [Fin 5]] in
  let freq_edges := [0; 1; 2]%Q in
  let magnitude := fun a => if String.eqb "energy" "energy" then fsq a else a in
  exists dense : list (list fnum),
    hilberthuang infr inam freq_edges "energy" false = OK (Dense dense)
    /\ shape2 (length freq_edges - 1) 3 dense
    /\ forall r t, r < length freq_edges - 1 -> t < 3 ->
         nth t (nth r dense []) NaN
         = fsum (mask_select
                   (map (fun x => match r with
                                  | 0 => flt x (Fin (nth 0 freq_edges 0%Q))
                                  | S i => in_bin freq_edges i x
                                  end) (nth t infr []))
                   (map magnitude (nth t inam []))).
Proof.
  apply (hilberthuang_cells [[Fin (1 # 2)]; [Fin (3 # 2)]; [Fin (-1)]]
           [[Fin 2]; [Fin 3]; [Fin 5]] [0; 1; 2]%Q "energy" 3 1).
  - reflexivity.
  - simpl. lia.
  - lia.
  - split; [reflexivity | repeat constructor].
  - split; [reflexivity | repeat constructor].
Defined.

Lemma check_bins_not_monotonic (bins : list Q) :
  monotonicity bins = 0%Z ->
  check_bins bins
  = Raise (ValueError "bins must be monotonically increasing or decreasing").
Proof. intros H. unfold check_bins. now rewrite H. Qed.

Lemma not_monotonic_nonempty (bins : list Q) :
  monotonicity bins = 0%Z -> length bins <> 0.
Proof. destruct bins; [discriminate | discriminate]. Qed.

(** X16: edges that are neither non-decreasing nor non-increasing are
    rejected by all three aggregators with the [ValueError] of
    [np.digitize], whatever the data, the mode and the output options; for
    [holospectrum] it is enough that one of its two edge vectors is not
    monotonic. *)
Theorem aggregators_reject_non_monotonic_edges :
  forall (infr inam : array2) (infr2 inam2 : array3) (edges edges2 : list Q)
         (mode : string) (flag : bool),
    monotonicity edges = 0%Z ->
    let err := ValueError "bins must be monotonically increasing or decreasing" in
    hilberthuang_1d infr inam edges mode = Raise err
    /\ hilberthuang infr inam edges mode flag = Raise err
    /\ holospectrum infr infr2 inam2 edges edges2 mode flag = Raise err
    /\ holospectrum infr infr2 inam2 edges2 edges mode flag = Raise err.
Proof.
  intros infr inam infr2 inam2 edges edges2 mode flag H err.
  pose proof (check_bins_not_monotonic _ H) as Hc.
  repeat split.
  - unfold hilberthuang_1d.
    destruct (Nat.eqb_spec (length edges) 0) as [E|_];
      [now apply not_monotonic_nonempty in H|].
    unfold digitize2. now rewrite Hc.
  - unfold hilberthuang, digitize2. now rewrite Hc.
  - unfold holospectrum, digitize3, digitize2.
    destruct (check_bins edges2) as [m|e] eqn:E2.
    + cbn [rbind]. now rewrite Hc.
    + unfold check_bins in E2.
      destruct (monotonicity edges2 =? 0)%Z; [|discriminate].
      injection E2 as <-. reflexivity.
  - unfold holospectrum, digitize3. now rewrite Hc.
Qed.

Lemma aggregators_reject_non_monotonic_edges_witness :
  let err := ValueError "bins must be monotonically increasing or decreasing" in
  let edges := [0; 2; 1]%Q in
  hilberthuang_1d [[Fin 1]] [[Fin 1]] edges "power" = Raise err
  /\ hilberthuang [[Fin 1]] [[Fin 1]] edges "power" false = Raise err
  /\ holospectrum [[Fin 1]] [[[Fin 1]]] [[[Fin 1]]] edges [0; 1]%Q "power" false = Raise err
  /\ holospectrum [[Fin 1]] [[[Fin 1]]] [[[Fin 1]]] [0; 1]%Q edges "power" false = Raise err.
Proof.
  apply (aggregators_reject_non_monotonic_edges [[Fin 1]] [[Fin 1]] [[[Fin 1]]] [[[Fin 1]]]
           [0; 2; 1]%Q [0; 1]%Q "power" false).
  reflexivity.
Defined.

Lemma holospectrum_inv (infr : array2) (infr2 inam2 : array3)
    (freq_edges freq_edges2 : list Q) (mode : string) (return_time : bool)
    (r : holo_result) :
  holospectrum infr infr2 inam2 freq_edges freq_edges2 mode return_time = OK r ->
  exists m : coo,
    coo_rows m = length infr
    /\ coo_cols m = (length freq_edges + 1) * (length freq_edges2 + 1)
    /\ r = if return_time
           then TimeResolved
                  (map (fun a => slice_inner (map slice_inner a))
                       (map (reshape2 (length freq_edges2 + 1) (length freq_edges + 1))
                            (toarray m)))
           else TimeCollapsed
                  (slice_inner (map slice_inner
                     (reshape2 (length freq_edges2 + 1) (length freq_edges + 1)
                               (coo_sum_axis0 m)))).
Proof.
  unfold holospectrum, digitize3, digitize2.
  destruct (check_bins freq_edges2) as [m2|e]; [|discriminate].
  destruct (check_bins freq_edges) as [m1|e]; [|discriminate].
  cbn [rbind fst snd].
  match goal with
  | |- context [coo_matrix ?d ?rw ?c ?M ?N] =>
      destruct (coo_matrix d rw c M N) as [m|e] eqn:Hm; [|discriminate]
  end.
  cbn [rbind]. intros H.
  apply coo_matrix_rows_in_range in Hm. destruct Hm as [Hr [Hc _]].
  rewrite Nat2Z.id in Hr, Hc.
  exists m. split; [exact Hr|]. split; [exact Hc|].
  destruct return_time; now injection H as <-.
Qed.

Lemma trimmed_shape (g : nat -> fnum) (d1 d2 : nat) :
  shape2 (d2 - 2) (d1 - 2)
    (slice_inner (map slice_inner (reshape2 d2 d1 (map g (seq 0 (d1 * d2)))))).
Proof.
  rewrite reshape2_trimmed. split; [now rewrite length_map, length_seq|].
  apply Forall_map, Forall_true. intros j. now rewrite length_map, length_seq.
Qed.

(** X17: on monotonic edge vectors and arrays of matching shapes
    ([n0] time samples, [n1] first-level IMFs, [n2] second-level IMFs)
    [holospectrum] returns, with [return_time], one slice per time sample
    of [len(freq_edges2) - 1] rows by [len(freq_edges) - 1] columns and,
    without it, a single such slice: the folded index space has one slot
    more than edges on each axis and the first and last slot of each axis
    are cut away. *)
Theorem holospectrum_shape :
  forall (infr : array2) (infr2 inam2 : array3) (freq_edges freq_edges2 : list Q)
         (mode : string) (n0 n1 n2 : nat),
    monotonicity freq_edges <> 0%Z ->
    monotonicity freq_edges2 <> 0%Z ->
    shape2 n0 n1 infr -> shape3 n0 n1 n2 infr2 -> shape3 n0 n1 n2 inam2 ->
    (exists a, holospectrum infr infr2 inam2 freq_edges freq_edges2 mode true
               = OK (TimeResolved a)
               /\ shape3 n0 (length freq_edges2 - 1) (length freq_edges - 1) a)
    /\ (exists a, holospectrum infr infr2 inam2 freq_edges freq_edges2 mode false
                  = OK (TimeCollapsed a)
                  /\ shape2 (length freq_edges2 - 1) (length freq_edges - 1) a).
Proof.
  intros infr infr2 inam2 e1 e2 mode n0 n1 n2 Hm1 Hm2 Hi Hi2 Ha2.
  replace (length e2 - 1) with (length e2 + 1 - 2) by lia.
  replace (length e1 - 1) with (length e1 + 1 - 2) by lia.
  split.
  - destruct (holospectrum_returns infr infr2 inam2 e1 e2 mode true n0 n1 n2
                Hm1 Hm2 Hi Hi2 Ha2) as [r Hr].
    destruct (holospectrum_inv _ _ _ _ _ _ _ _ Hr) as [m [Hrows [Hcols ->]]].
    eexists. split; [exact Hr|].
    unfold toarray. rewrite Hrows, Hcols.
    split; [rewrite !length_map, length_seq; apply Hi|].
    rewrite !map_map. apply Forall_map, Forall_true. intros t.
    apply trimmed_shape.
  - destruct (holospectrum_returns infr infr2 inam2 e1 e2 mode false n0 n1 n2
                Hm1 Hm2 Hi Hi2 Ha2) as [r Hr].
    destruct (holospectrum_inv _ _ _ _ _ _ _ _ Hr) as [m [Hrows [Hcols ->]]].
    eexists. split; [exact Hr|].
    unfold coo_sum_axis0. rewrite Hcols. apply trimmed_shape.
Qed.

Lemma holospectrum_shape_witness :
  let infr := [[Fin (1 # 2)]; [Fin (3 # 2)]] in
  let infr2 := [[[Fin (1 # 4)]]; [[Fin (1 # 3)]]] in
  let inam2 := [[[Fin 2]]; [[Fin 3]]] in
  let e1 := [0; 1; 2]%Q in
  let e2 := [0; 1]%Q in
  (exists a, holospectrum infr infr2 inam2 e1 e2 "energy" true = OK (TimeResolved a)
             /\ shape3 2 (length e2 - 1) (length e1 - 1) a)
  /\ (exists a, holospectrum infr infr2 inam2 e1 e2 "energy" false = OK (TimeCollapsed a)
                /\ shape2 (length e2 - 1) (length e1 - 1) a).
Proof.
  apply (holospectrum_shape [[Fin (1 # 2)]; [Fin (3 # 2)]]
           [[[Fin (1 # 4)]]; [[Fin (1 # 3)]]] [[[Fin 2]]; [[Fin 3]]]
           [0; 1; 2]%Q [0; 1]%Q "energy" 2 1 1).
  - discriminate.
  - discriminate.
  - split; [reflexivity | repeat constructor].
  - split; [reflexivity | repeat constructor].
  - split; [reflexivity | repeat constructor].
Defined.

End AggregatorFacts.

(* ------------------------------------------------------------------------- *)
(** ** The mean vector *)

Module MeanVectorFacts.
Import Py Spectra ListFacts.
Local Open Scope R_scope.

Lemma phasor_scaled (p a : R) :
  Cmul (Cadd (of_real (sin p)) (Cmul imag_unit (of_real (cos p)))) (of_real a)
  = (sin p * a, cos p * a).
Proof. unfold Cmul, Cadd, of_real, imag_unit. cbn [fst snd]. f_equal; ring. Qed.

Lemma Csum_acc (l : list complex) (acc : complex) :
  fold_left Cadd l acc
  = (fst acc + Rsum (map fst l), snd acc + Rsum (map snd l)).
Proof.
  revert acc. induction l as [|z l IH]; intros acc; cbn [fold_left map Rsum fold_right].
  - destruct acc as [x y]. cbn [fst snd]. f_equal; ring.
  - rewrite IH. unfold Cadd. cbn [fst snd]. fold (Rsum (map fst l)) (Rsum (map snd l)).
    f_equal; ring.
Qed.

Lemma Csum_parts (l : list complex) :
  Csum l = (Rsum (map fst l), Rsum (map snd l)).
Proof. unfold Csum. rewrite Csum_acc. cbn [fst snd]. f_equal; ring. Qed.

Lemma map_zipw {A B C D} (g : C -> D) (f : A -> B -> C) (u : list A) (v : list B) :
  map g (zipw f u v) = zipw (fun a b => g (f a b)) u v.
Proof.
  revert v. induction u as [|a u IH]; intros [|b v]; cbn [zipw map]; try reflexivity.
  now rewrite IH.
Qed.

Lemma zipw_ext_in {A B C} (f g : A -> B -> C) (u : list A) (v : list B) :
  (forall a b, In b v -> f a b = g a b) -> zipw f u v = zipw g u v.
Proof.
  revert v. induction u as [|a u IH]; intros [|b v] H; cbn [zipw]; try reflexivity.
  rewrite H by (left; reflexivity). f_equal. apply IH. intros a' b' Hb. apply H. now right.
Qed.

Lemma length_zipw_same {A B C} (f : A -> B -> C) (u : list A) (v : list B) :
  length u = length v -> length (zipw f u v) = length v.
Proof.
  revert v. induction u as [|a u IH]; intros [|b v] H; cbn [zipw length] in *;
    try reflexivity; try discriminate.
  f_equal. apply IH. now injection H.
Qed.

Lemma column_of_products (IP : list R) (IA : array) (m j : nat) :
  Forall (fun r => length r = m) IA -> (j < m)%nat ->
  map (fun r => nth j r (0, 0)) (products IP IA)
  = zipw (fun p r => (sin p * nth j r 0, cos p * nth j r 0)) IP IA.
Proof.
  intros Hrows Hj. unfold products. rewrite map_zipw.
  apply zipw_ext_in. intros p r Hr.
  rewrite Forall_forall in Hrows. specialize (Hrows r Hr).
  rewrite (nth_indep _ (0, 0) ((fun a => (sin p * a, cos p * a)) 0))
    by (rewrite length_map; lia).
  apply (map_nth (fun a => (sin p * a, cos p * a))).
Qed.

Lemma mean_vector_eq (IP : list R) (IA : array) (mask : option (list bool)) :
  length IP = length IA ->
  mean_vector IP IA mask = OK (cmean0 (products IP IA)).
Proof.
  intros Hlen. unfold mean_vector. rewrite length_map, Hlen, Nat.eqb_refl.
  cbn [rbind]. do 2 f_equal. unfold products. rewrite zipw_map_l.
  apply zipw_ext_in. intros p r _. apply map_ext. intros a. apply phasor_scaled.
Qed.

Lemma ncols_products (IP : list R) (IA : array) (n m : nat) :
  (0 < n)%nat -> length IP = n -> length IA = n ->
  Forall (fun r => length r = m) IA ->
  length (nth 0 (products IP IA) []) = m.
Proof.
  intros Hn HP HA Hrows.
  destruct IP as [|p IP]; [simpl in HP; lia|].
  destruct IA as [|r IA]; [simpl in HA; lia|].
  unfold products. cbn [zipw nth]. rewrite length_map.
  now apply Forall_cons_iff in Hrows.
Qed.

(** X18: for [n >= 1] phases and an [n] by [m] amplitude array,
    [mean_vector] returns [m] complex numbers; the real part of entry [j] is
    the average over time of [sin(IP) * IA[:, j]] and its imaginary part the
    average of [cos(IP) * IA[:, j]].  The [mask] argument has no influence. *)
Theorem mean_vector_closed_form :
  forall (IP : list R) (IA : array) (mask : option (list bool)) (n m : nat),
    (0 < n)%nat -> length IP = n -> length IA = n ->
    Forall (fun r => length r = m) IA ->
    mean_vector IP IA mask
    = OK (map (fun j =>
                 (Rsum (zipw (fun p r => sin p * nth j r 0) IP IA) / INR n,
                  Rsum (zipw (fun p r => cos p * nth j r 0) IP IA) / INR n))
              (seq 0 m)).
Proof.
  intros IP IA mask n m Hn HP HA Hrows.
  rewrite mean_vector_eq by congruence. f_equal.
  unfold cmean0. rewrite (ncols_products IP IA n m Hn HP HA Hrows).
  apply map_ext_in. intros j Hj. apply in_seq in Hj.
  rewrite (column_of_products IP IA m j Hrows) by lia.
  rewrite Csum_parts, !map_zipw. cbn [fst snd].
  unfold products. rewrite length_zipw_same by congruence. now rewrite HA.
Qed.

Lemma mean_vector_closed_form_witness :
  mean_vector [0; PI / 2] [[1; 2]; [3; 4]] (Some [true; false])
  = OK (map (fun j =>
               (Rsum (zipw (fun p r => sin p * nth j r 0) [0; PI / 2] [[1; 2]; [3; 4]])
                  / INR 2,
                Rsum (zipw (fun p r => cos p * nth j r 0) [0; PI / 2] [[1; 2]; [3; 4]])
                  / INR 2))
            (seq 0 2)).
Proof.
  apply (mean_vector_closed_form [0; PI / 2] [[1; 2]; [3; 4]] (Some [true; false]) 2 2).
  - lia.
  - reflexivity.
  - reflexivity.
  - repeat constructor.
Defined.

End MeanVectorFacts.
